(** * A shallow embedding of the [ppl] dataflow pipeline library

    The development follows [src/pipeline.h] and [src/pipeline.cpp]: the
    node contract, the graph registry with its editing operations, the
    validator [is_valid], the pull-based tick scheduler [step] / [run]
    and the renderer [operator<<].
    The node classes of [src/pipeline.test.cpp] are embedded as one
    instance of the node contract, so that the end-to-end scenarios can be
    evaluated. *)

From stdpp Require Import gmap strings list fin_maps sorting pretty.

Open Scope Z_scope.

(** ** Base types *)

(** [pipeline::node_id] and [node::slot_id] are both [int]. *)
Abbreviation node_id := Z.
Abbreviation slot_id := Z.

(** Arithmetic on [int]: the result is reduced to the 32-bit two's
    complement range (overflow of a signed [int] is undefined in C++; the
    usual targets compute the wrapped value, which is what the model
    takes). *)
Definition int_wrap (z : Z) : Z := (z + 2 ^ 31) `mod` 2 ^ 32 - 2 ^ 31.

Inductive pipeline_error_kind :=
| invalid_node_id
| no_such_slot
| slot_already_used
| connection_type_mismatch.

Inductive poll := ready | empty | closed.

(** [std::type_index]: the tokens for [void], [int], [double] and any other
    type. *)
Inductive type_index :=
| ty_void
| ty_int
| ty_double
| ty_other (n : nat).

#[global] Instance pipeline_error_kind_eq_dec : EqDecision pipeline_error_kind.
Proof. solve_decision. Defined.

#[global] Instance poll_eq_dec : EqDecision poll.
Proof. solve_decision. Defined.

#[global] Instance type_index_eq_dec : EqDecision type_index.
Proof. solve_decision. Defined.

(** The result of a call that may throw a [pipeline_error] or dereference a
    null pointer. *)
Inductive outcome (A : Type) :=
| Ok (a : A)
| Throw (e : pipeline_error_kind)
| Undefined.

Arguments Ok {A} a.
Arguments Throw {A} e.
Arguments Undefined {A}.

(** [pipeline_error::what]. *)
Definition what (k : pipeline_error_kind) : string :=
  match k with
  | invalid_node_id => "invalid node ID"
  | no_such_slot => "no such slot"
  | slot_already_used => "slot already used"
  | connection_type_mismatch => "connection type mismatch"
  end.

(** ** The node contract

    The virtual members of [ppl::node].  A node object is owned by the
    registry under its id, and a [const node*] held by user code is modelled
    by [option node_id] ([None] is [nullptr]) resolved in the owning
    registry; the user members that look through such a pointer receive a
    view of the registry's payloads. *)
Class NodeImpl (N : Type) := {
  name : N → string;
  get_input_types : N → list type_index;
  get_output_type : N → type_index;
  (** [connect(const node* source, int slot)]; may throw. *)
  node_connect : (node_id → option N) → N → option node_id → slot_id → outcome N;
  (** [poll_next()]; [None] when the call does not return normally. *)
  poll_next : (node_id → option N) → N → option (poll * N);
  (** The output token is the [typeid] of the class's [Output] parameter:
      polling an object does not change it. *)
  poll_next_output_type h x r x' :
    poll_next h x = Some (r, x') → get_output_type x' = get_output_type x;
}.

(** The node envelope: the user object and the private bookkeeping members
    [connections_] and [dependencies_] of [ppl::node].  [connections_] is a
    [std::unordered_map<slot_id, const int>], kept here as the list of its
    entries in iteration order (the order is unspecified by the standard;
    keys are unique).  [dependencies_] is a [std::vector]. *)
Record node (N : Type) := Node {
  payload : N;
  connections_ : list (slot_id * node_id);
  dependencies_ : list (node_id * slot_id);
}.

Arguments Node {N} _ _ _.
Arguments payload {N} _.
Arguments connections_ {N} _.
Arguments dependencies_ {N} _.

(** [ppl::pipeline]: [nodes_] is a [std::map<node_id, node*>]. *)
Record pipeline (N : Type) := Pipeline {
  nodes_ : gmap Z (node N);
  current_id : Z;
}.

Arguments Pipeline {N} _ _.
Arguments nodes_ {N} _.
Arguments current_id {N} _.

(** The state of one tick: the node objects, the memo [visited] of
    [pipeline::step] and, as a ghost trace, the ids whose [poll_next] has
    been invoked, in call order. *)
Record tick (N : Type) := Tick {
  heap : gmap Z (node N);
  visited : gmap Z poll;
  polled : list node_id;
}.

Arguments Tick {N} _ _ _.
Arguments heap {N} _.
Arguments visited {N} _.
Arguments polled {N} _.

(** ** Container operations *)

(** Keys of a [std::map] in iteration (ascending) order. *)
Definition ordered_ids {V : Type} (m : gmap Z V) : list node_id :=
  merge_sort Z.le (elements (dom m)).

(** [std::map::emplace]: no effect when the key is present. *)
Definition map_emplace {V : Type} (k : Z) (v : V) (m : gmap Z V) : gmap Z V :=
  match m !! k with
  | Some _ => m
  | None => <[k := v]> m
  end.

(** [std::unordered_map::emplace]: no effect when the key is present; a new
    entry is met first by a later iteration (as libstdc++ does for a key
    that hashes to an empty bucket).  The standard leaves the iteration
    order open; the order taken here is the one of libstdc++ as long as
    every key has a bucket of its own and the table is not rehashed, that
    is for the slots 0 to 12 of a node.  Only the evaluations of the
    example pipelines rely on it: the general statements about the loops
    over [connections_] hold for every list. *)
Definition conn_emplace (slot : slot_id) (src : node_id)
    (c : list (slot_id * node_id)) : list (slot_id * node_id) :=
  if decide (slot ∈ c.*1) then c else (slot, src) :: c.

(** [connections_.erase(slot)]. *)
Definition conn_erase (slot : slot_id) (c : list (slot_id * node_id)) :
    list (slot_id * node_id) :=
  filter (λ item, item.1 ≠ slot) c.

(** [std::erase_if(connections_, item.second == src)]. *)
Definition conn_erase_src (src : node_id) (c : list (slot_id * node_id)) :
    list (slot_id * node_id) :=
  filter (λ item, item.2 ≠ src) c.

(** [std::erase_if(dependencies_, item.first == id)]. *)
Definition dep_erase (id : node_id) (d : list (node_id * slot_id)) :
    list (node_id * slot_id) :=
  filter (λ item, item.1 ≠ id) d.

(** [visited[src]] on a [std::unordered_map<node_id, int>]: an absent key
    is inserted with value 0. *)
Definition touch (src : node_id) (v : gmap Z Z) : gmap Z Z :=
  match v !! src with
  | Some _ => v
  | None => <[src := 0]> v
  end.

Definition set_payload {N : Type} (x : N) (nd : node N) : node N :=
  Node x (connections_ nd) (dependencies_ nd).

Definition set_connections {N : Type} (c : list (slot_id * node_id))
    (nd : node N) : node N :=
  Node (payload nd) c (dependencies_ nd).

Definition set_dependencies {N : Type} (d : list (node_id * slot_id))
    (nd : node N) : node N :=
  Node (payload nd) (connections_ nd) d.

(** ** The graph registry *)

Section Registry.
Context {N : Type} `{!NodeImpl N}.

(** The payloads as seen through node pointers. *)
Definition view (m : gmap Z (node N)) : node_id → option N :=
  λ id, payload <$> (m !! id).

Definition empty_pipeline : pipeline N := Pipeline ∅ 1.

Definition get_node (p : pipeline N) (n_id : node_id) : option (node N) :=
  nodes_ p !! n_id.

(** [create_node<N>(args...)], given the constructed object. *)
Definition create_node (n : N) (p : pipeline N) : node_id * pipeline N :=
  (current_id p,
   Pipeline (map_emplace (current_id p) (Node n [] []) (nodes_ p))
            (int_wrap (current_id p + 1))).

(** First loop of [erase_node]: every upstream forgets the erased node. *)
Fixpoint erase_upstream (n_id : node_id) (conns : list (slot_id * node_id))
    (m : gmap Z (node N)) : option (gmap Z (node N)) :=
  match conns with
  | [] => Some m
  | (_, src) :: rest =>
      match m !! src with
      | None => None
      | Some nd =>
          erase_upstream n_id rest
            (<[src := set_dependencies (dep_erase n_id (dependencies_ nd)) nd]> m)
      end
  end.

(** Second loop of [erase_node]: every downstream slot is emptied. *)
Fixpoint erase_downstream (deps : list (node_id * slot_id))
    (m : gmap Z (node N)) : option (gmap Z (node N)) :=
  match deps with
  | [] => Some m
  | (dst, slot) :: rest =>
      match m !! dst with
      | None => None
      | Some nd =>
          erase_downstream rest
            (<[dst := set_connections (conn_erase slot (connections_ nd)) nd]> m)
      end
  end.

Definition erase_node (n_id : node_id) (p : pipeline N) :
    outcome () * pipeline N :=
  match get_node p n_id with
  | None => (Throw invalid_node_id, p)
  | Some nd =>
      match erase_upstream n_id (connections_ nd) (nodes_ p) with
      | None => (Undefined, p)
      | Some m1 =>
          match m1 !! n_id with
          | None => (Undefined, p)
          | Some nd1 =>
              match erase_downstream (dependencies_ nd1) m1 with
              | None => (Undefined, p)
              | Some m2 => (Ok (), Pipeline (delete n_id m2) (current_id p))
              end
          end
      end
  end.

Definition connect (src dst : node_id) (slot : slot_id) (p : pipeline N) :
    outcome () * pipeline N :=
  match get_node p src, get_node p dst with
  | Some src_node, Some dst_node =>
      if decide (slot ∈ (connections_ dst_node).*1) then
        (Throw slot_already_used, p)
      else if decide (slot < 0 ∨
                      Z.of_nat (length (get_input_types (payload dst_node))) ≤ slot) then
        (Throw no_such_slot, p)
      else
        match get_input_types (payload dst_node) !! Z.to_nat slot with
        | None => (Undefined, p)
        | Some t =>
            if decide (t ≠ get_output_type (payload src_node)) then
              (Throw connection_type_mismatch, p)
            else
              match node_connect (view (nodes_ p)) (payload dst_node) (Some src) slot with
              | Throw e => (Throw e, p)
              | Undefined => (Undefined, p)
              | Ok x =>
                  let m1 :=
                    <[dst := Node x (conn_emplace slot src (connections_ dst_node))
                                    (dependencies_ dst_node)]> (nodes_ p) in
                  match m1 !! src with
                  | None => (Undefined, p)
                  | Some s1 =>
                      (Ok (),
                       Pipeline
                         (<[src := set_dependencies (dependencies_ s1 ++ [(dst, slot)]) s1]> m1)
                         (current_id p))
                  end
              end
        end
  | _, _ => (Throw invalid_node_id, p)
  end.

(** The loop of [disconnect] that clears the bindings stored in the
    destination object: [dst_node->connect(nullptr, slot)] for every slot
    bound to [src]. *)
Fixpoint clear_slots (src dst : node_id) (conns : list (slot_id * node_id))
    (m : gmap Z (node N)) : outcome () * gmap Z (node N) :=
  match conns with
  | [] => (Ok (), m)
  | (slot, connected_by) :: rest =>
      if decide (src = connected_by) then
        match m !! dst with
        | None => (Undefined, m)
        | Some nd =>
            match node_connect (view m) (payload nd) None slot with
            | Throw e => (Throw e, m)
            | Undefined => (Undefined, m)
            | Ok x => clear_slots src dst rest (<[dst := set_payload x nd]> m)
            end
        end
      else clear_slots src dst rest m
  end.

Definition disconnect (src dst : node_id) (p : pipeline N) :
    outcome () * pipeline N :=
  match get_node p src, get_node p dst with
  | Some src_node, Some dst_node =>
      match clear_slots src dst (connections_ dst_node) (nodes_ p) with
      | (Throw e, m) => (Throw e, Pipeline m (current_id p))
      | (Undefined, m) => (Undefined, Pipeline m (current_id p))
      | (Ok _, m) =>
          let m1 := alter (λ nd, set_connections (conn_erase_src src (connections_ nd)) nd)
                          dst m in
          let m2 := alter (λ nd, set_dependencies (dep_erase dst (dependencies_ nd)) nd)
                          src m1 in
          (Ok (), Pipeline m2 (current_id p))
      end
  | _, _ => (Throw invalid_node_id, p)
  end.

Definition get_dependencies (src : node_id) (p : pipeline N) :
    outcome (list (node_id * slot_id)) :=
  match get_node p src with
  | None => Throw invalid_node_id
  | Some src_node => Ok (dependencies_ src_node)
  end.

End Registry.

(** ** Move construction and move assignment

    Pipeline objects live in a store indexed by address, so that
    [p = std::move(p)] can be told from a move between two objects. *)

Section Move.
Context {N : Type}.

(** [pipeline(pipeline&& other)]: [nodes_] is taken from [other], which is
    cleared; [current_id] of the new object has no initialiser and holds
    the indeterminate value [junk]; [other.current_id] is not touched.
    The result is the new object and what is left of [other]. *)
Definition move_construct (junk : Z) (other : pipeline N) :
    pipeline N * pipeline N :=
  (Pipeline (nodes_ other) junk, Pipeline ∅ (current_id other)).

(** [operator=(pipeline&& other)] called on the object at address [this]
    with the object at address [other]. *)
Definition move_assign (this other : nat) (s : gmap nat (pipeline N)) :
    option (gmap nat (pipeline N)) :=
  match s !! this, s !! other with
  | Some p_this, Some p_other =>
      if decide (this ≠ other) then
        Some (<[other := Pipeline ∅ (current_id p_other)]>
                (<[this := Pipeline (nodes_ p_other) (current_id p_this)]> s))
      else Some s
  | _, _ => None
  end.

End Move.

(** ** The validator *)

Section Validator.
Context {N : Type} `{!NodeImpl N}.

(** [get_dependencies(id).empty()]; the id comes from [nodes_], so the
    call does not throw. *)
Definition deps_empty (o : outcome (list (node_id * slot_id))) : bool :=
  match o with
  | Ok [] => true
  | _ => false
  end.

(** First loop of [is_valid]; [None] stands for the [return false]
    statements inside the loop, otherwise the flags [has_sink] and
    [has_source] are returned. *)
Fixpoint scan_nodes (p : pipeline N) (ids : list node_id)
    (has_sink has_source : bool) : option (bool * bool) :=
  match ids with
  | [] => Some (has_sink, has_source)
  | id :: rest =>
      match nodes_ p !! id with
      | None => None
      | Some nd =>
          if decide (length (connections_ nd) ≠ length (get_input_types (payload nd))) then
            None
          else if bool_decide (get_output_type (payload nd) ≠ ty_void) &&
                  deps_empty (get_dependencies id p) then
            None
          else
            scan_nodes p rest
              (if decide (get_output_type (payload nd) = ty_void) then true else has_sink)
              (if decide (get_input_types (payload nd) = []) then true else has_source)
      end
  end.

(** The loop over [node->connections_] inside the lambda [has_cycle]. *)
Fixpoint cycle_loop (rec : node_id → gmap Z Z → option (bool * gmap Z Z))
    (conns : list (slot_id * node_id)) (v : gmap Z Z) :
    option (bool * gmap Z Z) :=
  match conns with
  | [] => Some (false, v)
  | (_, next_src) :: rest =>
      match rec next_src v with
      | None => None
      | Some (true, v1) => Some (true, v1)
      | Some (false, v1) => cycle_loop rec rest v1
      end
  end.

(** The lambda [has_cycle]: 1 = visiting, 2 = visited.  [None] when the
    recursion does not come back within [fuel] nested calls or a null
    node is dereferenced. *)
Fixpoint has_cycle (fuel : nat) (p : pipeline N) (src : node_id)
    (v : gmap Z Z) : option (bool * gmap Z Z) :=
  match fuel with
  | O => None
  | S f =>
      let v0 := touch src v in
      if decide (v0 !! src = Some 1) then Some (true, v0)
      else if decide (v0 !! src = Some 2) then Some (false, v0)
      else
        let v1 := <[src := 1]> v0 in
        match get_node p src with
        | None => None
        | Some nd =>
            match cycle_loop (has_cycle f p) (connections_ nd) v1 with
            | None => None
            | Some (true, v2) => Some (true, v2)
            | Some (false, v2) => Some (false, <[src := 2]> v2)
            end
        end
  end.

(** The loop of [is_valid] that starts [has_cycle] at every sink; the
    boolean is [true] when a cycle was reported. *)
Fixpoint cycle_scan (fuel : nat) (p : pipeline N) (ids : list node_id)
    (v : gmap Z Z) : option (bool * gmap Z Z) :=
  match ids with
  | [] => Some (false, v)
  | id :: rest =>
      match nodes_ p !! id with
      | None => None
      | Some nd =>
          if decide (get_output_type (payload nd) = ty_void) then
            match has_cycle fuel p id v with
            | None => None
            | Some (true, v1) => Some (true, v1)
            | Some (false, v1) => cycle_scan fuel p rest v1
            end
          else cycle_scan fuel p rest v
      end
  end.

(** The two loops inside the lambda [dfs_all]. *)
Fixpoint dfs_loop (rec : node_id → gmap Z Z → option (gmap Z Z))
    (next : list node_id) (v : gmap Z Z) : option (gmap Z Z) :=
  match next with
  | [] => Some v
  | next_src :: rest =>
      match rec next_src v with
      | None => None
      | Some v1 => dfs_loop rec rest v1
      end
  end.

(** The lambda [dfs_all]. *)
Fixpoint dfs_all (fuel : nat) (p : pipeline N) (src : node_id)
    (v : gmap Z Z) : option (gmap Z Z) :=
  match fuel with
  | O => None
  | S f =>
      let v0 := touch src v in
      if decide (v0 !! src = Some 1) then Some v0
      else
        let v1 := <[src := 1]> v0 in
        match get_node p src with
        | None => None
        | Some nd =>
            match dfs_loop (dfs_all f p) (connections_ nd).*2 v1 with
            | None => None
            | Some v2 => dfs_loop (dfs_all f p) (dependencies_ nd).*1 v2
            end
        end
  end.

(** [is_valid], with [fuel] bounding the depth of the two recursive
    lambdas. *)
Definition is_valid_fuel (fuel : nat) (p : pipeline N) : option bool :=
  match scan_nodes p (ordered_ids (nodes_ p)) false false with
  | None => Some false
  | Some (has_sink, has_source) =>
      if negb has_sink || negb has_source then Some false
      else
        match cycle_scan fuel p (ordered_ids (nodes_ p)) ∅ with
        | None => None
        | Some (true, _) => Some false
        | Some (false, _) =>
            match ordered_ids (nodes_ p) with
            | [] => Some true
            | id :: _ =>
                match dfs_all fuel p id ∅ with
                | None => None
                | Some visited_all =>
                    if decide (size visited_all ≠ size (nodes_ p)) then Some false
                    else Some true
                end
            end
        end
  end.

(** Neither lambda nests deeper than one call per node plus one. *)
Definition is_valid (p : pipeline N) : option bool :=
  is_valid_fuel (2 + size (nodes_ p)) p.

End Validator.

(** ** The tick scheduler *)

Section Scheduler.
Context {N : Type} `{!NodeImpl N}.

(** The loop over [node->connections_] inside the lambda [polling]: the
    first result that is [empty] or [closed] ends the loop and is
    returned as [Some]; [None] when the loop runs to its end. *)
Fixpoint poll_upstreams (rec : node_id → tick N → option (poll * tick N))
    (conns : list (slot_id * node_id)) (t : tick N) :
    option (option poll * tick N) :=
  match conns with
  | [] => Some (None, t)
  | (_, next_src) :: rest =>
      match rec next_src t with
      | None => None
      | Some (empty, t1) => Some (Some empty, t1)
      | Some (closed, t1) => Some (Some closed, t1)
      | Some (ready, t1) => poll_upstreams rec rest t1
      end
  end.

Definition memoize (src : node_id) (r : poll) (t : tick N) : tick N :=
  Tick (heap t) (<[src := r]> (visited t)) (polled t).

(** [visited[src] = node->poll_next()]. *)
Definition poll_node (src : node_id) (t : tick N) : option (poll * tick N) :=
  match heap t !! src with
  | None => None
  | Some nd =>
      match poll_next (view (heap t)) (payload nd) with
      | None => None
      | Some (r, x) =>
          Some (r, Tick (<[src := set_payload x nd]> (heap t))
                        (<[src := r]> (visited t))
                        (polled t ++ [src]))
      end
  end.

(** The lambda [polling].  [None] when the recursion does not come back
    within [fuel] nested calls, a null node is dereferenced or a
    [poll_next] does not return. *)
Fixpoint polling (fuel : nat) (src : node_id) (t : tick N) :
    option (poll * tick N) :=
  match fuel with
  | O => None
  | S f =>
      match visited t !! src with
      | Some r => Some (r, t)
      | None =>
          match heap t !! src with
          | None => None
          | Some nd =>
              match poll_upstreams (polling f) (connections_ nd) t with
              | None => None
              | Some (Some r, t1) => Some (r, memoize src r t1)
              | Some (None, t1) => poll_node src t1
              end
          end
      end
  end.

(** The loop of [step] over [nodes_]. *)
Fixpoint poll_sinks (fuel : nat) (ids : list node_id) (is_all_closed : bool)
    (t : tick N) : option (bool * tick N) :=
  match ids with
  | [] => Some (is_all_closed, t)
  | id :: rest =>
      match heap t !! id with
      | None => None
      | Some nd =>
          if decide (get_output_type (payload nd) = ty_void) then
            match polling fuel id t with
            | None => None
            | Some (r, t1) =>
                poll_sinks fuel rest
                  (if decide (r ≠ closed) then false else is_all_closed) t1
            end
          else poll_sinks fuel rest is_all_closed t
      end
  end.

(** One tick, with the final tick state. *)
Definition step_tick (fuel : nat) (p : pipeline N) : option (bool * tick N) :=
  poll_sinks fuel (ordered_ids (nodes_ p)) true (Tick (nodes_ p) ∅ []).

Definition step (fuel : nat) (p : pipeline N) : option (bool * pipeline N) :=
  match step_tick fuel p with
  | None => None
  | Some (b, t) => Some (b, Pipeline (heap t) (current_id p))
  end.

(** [while (!step()) {}], for at most [ticks] iterations. *)
Fixpoint run (ticks fuel : nat) (p : pipeline N) : option (pipeline N) :=
  match ticks with
  | O => None
  | S k =>
      match step fuel p with
      | None => None
      | Some (true, p1) => Some p1
      | Some (false, p1) => run k fuel p1
      end
  end.


End Scheduler.

(** ** The node classes of [pipeline.test.cpp] *)

Module TestNodes.

Inductive test_node :=
| test_sink (slot0 : option node_id)
| test_source (current_value : Z)
| test_component (slot0 slot1 : option node_id) (current_value : Z)
| flex_source (current_value bound : Z)
| stream_sink (slot0 : option node_id) (stream : string)
| skip_source (current_value bound : Z)
| test_sink_double (slot0 : option node_id).

Definition test_input_types (n : test_node) : list type_index :=
  match n with
  | test_sink _ | stream_sink _ _ => [ty_int]
  | test_sink_double _ => [ty_double]
  | test_component _ _ _ => [ty_int; ty_int]
  | test_source _ | flex_source _ _ | skip_source _ _ => []
  end.

Definition test_output_type (n : test_node) : type_index :=
  match n with
  | test_sink _ | stream_sink _ _ | test_sink_double _ => ty_void
  | _ => ty_int
  end.

Definition test_name (n : test_node) : string :=
  match n with
  | test_sink _ | stream_sink _ _ => "TestSink"
  | test_sink_double _ => "TestSinkDouble"
  | test_source _ => "SimpleSource"
  | test_component _ _ _ => "TestComponent"
  | flex_source _ b => "FlexSource: Bound = " +:+ pretty b
  | skip_source _ b => "SkipSource: Bound = " +:+ pretty b
  end.

(** [producer<int>::value()]. *)
Definition value (n : test_node) : option Z :=
  match n with
  | test_source v | flex_source v _ | skip_source v _ | test_component _ _ v => Some v
  | _ => None
  end.

(** [dynamic_cast<const ppl::producer<int>*>(src)]. *)
Definition cast_int_producer (h : node_id → option test_node)
    (src : option node_id) : option node_id :=
  match src with
  | None => None
  | Some id =>
      match h id with
      | Some n => if decide (test_output_type n = ty_int) then Some id else None
      | None => None
      end
  end.

(** [dynamic_cast<const ppl::producer<double>*>(src)]: no class of the
    test file derives from [producer<double>]. *)
Definition cast_double_producer (h : node_id → option test_node)
    (src : option node_id) : option node_id := None.

Definition test_connect (h : node_id → option test_node) (n : test_node)
    (src : option node_id) (slot : slot_id) : outcome test_node :=
  match n with
  | test_sink s0 =>
      Ok (if decide (slot = 0) then test_sink (cast_int_producer h src) else n)
  | stream_sink s0 out =>
      Ok (if decide (slot = 0) then stream_sink (cast_int_producer h src) out else n)
  | test_sink_double s0 =>
      Ok (if decide (slot = 0) then test_sink_double (cast_double_producer h src) else n)
  | test_component s0 s1 v =>
      Ok (if decide (slot = 0) then test_component (cast_int_producer h src) s1 v
          else if decide (slot = 1) then test_component s0 (cast_int_producer h src) v
          else n)
  | test_source _ | flex_source _ _ | skip_source _ _ => Throw no_such_slot
  end.

(** [slot->value()] through a stored pointer. *)
Definition deref_value (h : node_id → option test_node)
    (slot : option node_id) : option Z :=
  match slot with
  | None => None
  | Some id =>
      match h id with
      | Some n => value n
      | None => None
      end
  end.

Definition test_poll_next (h : node_id → option test_node) (n : test_node) :
    option (poll * test_node) :=
  match n with
  | test_sink s0 =>
      match deref_value h s0 with
      | Some _ => Some (ready, n)
      | None => None
      end
  | stream_sink s0 out =>
      match deref_value h s0 with
      | Some v => Some (ready, stream_sink s0 (out +:+ pretty v +:+ " "))
      | None => None
      end
  | test_sink_double s0 => None
  | test_source v =>
      if decide (10 ≤ v) then Some (closed, n)
      else Some (ready, test_source (int_wrap (v + 1)))
  | flex_source v b =>
      if decide (b ≤ v) then Some (closed, n)
      else Some (ready, flex_source (int_wrap (v + 1)) b)
  | skip_source v b =>
      if decide (b ≤ v) then Some (closed, n)
      else if decide (Z.rem v 2 = 0) then Some (empty, skip_source (int_wrap (v + 1)) b)
      else Some (ready, skip_source (int_wrap (v + 1)) b)
  | test_component s0 s1 v =>
      match deref_value h s0, deref_value h s1 with
      | Some a, Some b => Some (ready, test_component s0 s1 (int_wrap (a + b)))
      | _, _ => None
      end
  end.

#[global, refine] Instance test_node_impl : NodeImpl test_node := {|
  name := test_name;
  get_input_types := test_input_types;
  get_output_type := test_output_type;
  node_connect := test_connect;
  poll_next := test_poll_next;
|}.
Proof.
  intros h x r x'. destruct x; simpl; intros E;
    repeat (case_match; simplify_eq); simplify_eq; reflexivity.
Defined.

(** Editing scripts: a sequence of registry calls, stopped at the first
    one that does not return normally. *)
Inductive edit :=
| Create (n : test_node)
| Connect (src dst : node_id) (slot : slot_id)
| Disconnect (src dst : node_id)
| Erase (id : node_id).

Definition apply_edit (e : edit) (p : pipeline test_node) :
    outcome () * pipeline test_node :=
  match e with
  | Create n => (Ok (), (create_node n p).2)
  | Connect src dst slot => connect src dst slot p
  | Disconnect src dst => disconnect src dst p
  | Erase id => erase_node id p
  end.

Fixpoint build (es : list edit) (p : pipeline test_node) :
    option (pipeline test_node) :=
  match es with
  | [] => Some p
  | e :: rest =>
      match apply_edit e p with
      | (Ok _, p1) => build rest p1
      | _ => None
      end
  end.

(** The stream written by the [stream_sink] with the given id. *)
Definition stream_of (p : pipeline test_node) (id : node_id) : option string :=
  match get_node p id with
  | Some (Node (stream_sink _ out) _ _) => Some out
  | _ => None
  end.

(** Test Cases 20 and 23 (scenario S1): ids 1..5 are the bound-5 source,
    the bound-10 source, the sum component and the two stream sinks. *)
Definition s1_script : list edit :=
  [ Create (flex_source 0 5); Create (flex_source 0 10);
    Create (test_component None None 0);
    Create (stream_sink None EmptyString); Create (stream_sink None EmptyString);
    Connect 1 3 0; Connect 2 3 1; Connect 3 4 0; Connect 2 5 0 ].

End TestNodes.

(** ** Predicates used by the statements *)

Section Predicates.
Context {N : Type} `{!NodeImpl N}.

(** Number of entries of a [dependencies_] vector equal to [x]. *)
Definition occurrences (x : node_id * slot_id)
    (l : list (node_id * slot_id)) : nat :=
  length (filter (λ y, y = x) l).

(** The mirror invariant: slots are keys of [connections_] (each at most
    once), every filled slot has exactly one matching entry in the
    [dependencies_] of its live upstream, and every entry of a
    [dependencies_] vector is a filled slot of a live downstream. *)
Definition mirror (p : pipeline N) : Prop :=
  (∀ n nd, nodes_ p !! n = Some nd → NoDup (connections_ nd).*1) ∧
  (∀ n nd slot up, nodes_ p !! n = Some nd → (slot, up) ∈ connections_ nd →
     ∃ u, nodes_ p !! up = Some u ∧
          occurrences (n, slot) (dependencies_ u) = 1%nat) ∧
  (∀ u ud d slot, nodes_ p !! u = Some ud → (d, slot) ∈ dependencies_ ud →
     ∃ dn, nodes_ p !! d = Some dn ∧ (slot, u) ∈ connections_ dn).

(** The bookkeeping members of the node with id [k]. *)
Definition graph (m : gmap Z (node N)) (k : node_id) :
    option (list (slot_id * node_id) * list (node_id * slot_id)) :=
  (λ nd, (connections_ nd, dependencies_ nd)) <$> (m !! k).

(** The mirror invariant, on the bookkeeping members alone. *)
Definition mirror_graph
    (g : node_id → option (list (slot_id * node_id) * list (node_id * slot_id))) :
    Prop :=
  (∀ n c d, g n = Some (c, d) → NoDup c.*1) ∧
  (∀ n c d slot up, g n = Some (c, d) → (slot, up) ∈ c →
     ∃ cu du, g up = Some (cu, du) ∧ occurrences (n, slot) du = 1%nat) ∧
  (∀ u cu du d slot, g u = Some (cu, du) → (d, slot) ∈ du →
     ∃ cd dd, g d = Some (cd, dd) ∧ (slot, u) ∈ cd).

(** One editing operation that returned normally. *)
Inductive edited : pipeline N → pipeline N → Prop :=
| edited_create n p :
    edited p (create_node n p).2
| edited_connect src dst slot p p' :
    connect src dst slot p = (Ok (), p') → edited p p'
| edited_disconnect src dst p p' :
    disconnect src dst p = (Ok (), p') → edited p p'
| edited_erase id p p' :
    erase_node id p = (Ok (), p') → edited p p'.

(** The violated preconditions of [connect], as the specification lists
    them. *)
Definition violates_node_id (p : pipeline N) (src dst : node_id) : Prop :=
  get_node p src = None ∨ get_node p dst = None.

Definition violates_slot_free (p : pipeline N) (dst : node_id) (slot : slot_id) : Prop :=
  ∃ nd, get_node p dst = Some nd ∧ slot ∈ (connections_ nd).*1.

Definition violates_slot_range (p : pipeline N) (dst : node_id) (slot : slot_id) : Prop :=
  ∃ nd, get_node p dst = Some nd ∧
        (slot < 0 ∨ Z.of_nat (length (get_input_types (payload nd))) ≤ slot).

Definition violates_type (p : pipeline N) (src dst : node_id) (slot : slot_id) : Prop :=
  ∃ sn nd, get_node p src = Some sn ∧ get_node p dst = Some nd ∧
           get_input_types (payload nd) !! Z.to_nat slot ≠
             Some (get_output_type (payload sn)).

(** The slots of [nd] that are bound to [src], in the order in which
    [connections_] is iterated. *)
Definition bound_slots (src : node_id) (nd : node N) : list slot_id :=
  (filter (λ item, item.2 = src) (connections_ nd)).*1.

(** What [disconnect] is said to do with the object of [dst], in the
    words of the specification: the calls [dst.connect(null, s)], one for
    each slot [s] of the list, one after the other.  It is compared with
    the loop [clear_slots] of the code. *)
Fixpoint connect_null (dst : node_id) (slots : list slot_id)
    (m : gmap Z (node N)) : outcome () * gmap Z (node N) :=
  match slots with
  | [] => (Ok (), m)
  | s :: rest =>
      match m !! dst with
      | None => (Undefined, m)
      | Some nd =>
          match node_connect (view m) (payload nd) None s with
          | Throw e => (Throw e, m)
          | Undefined => (Undefined, m)
          | Ok x => connect_null dst rest (<[dst := set_payload x nd]> m)
          end
      end
  end.

(** [t'] is a later state of the same tick: memo entries are kept, and
    the nodes keep their [connections_] and their output token. *)
Definition tick_ext (t t' : tick N) : Prop :=
  (∀ id r, visited t !! id = Some r → visited t' !! id = Some r) ∧
  (∀ id, connections_ <$> (heap t' !! id) = connections_ <$> (heap t !! id)) ∧
  (∀ id, get_output_type ∘ payload <$> (heap t' !! id) =
         get_output_type ∘ payload <$> (heap t !! id)).

(** What a call of [polling] adds to the trace of polled ids: ids without
    a memo entry before the call and with one after it. *)
Definition polled_more (t t' : tick N) : Prop :=
  tick_ext t t' ∧
  ∃ delta, polled t' = polled t ++ delta ∧
           ∀ x, x ∈ delta → visited t !! x = None ∧ is_Some (visited t' !! x).

(** In state [t] a call [polling(x)] goes through ready memo entries and
    then calls [polling(y)]. *)
Definition blocked (t : tick N) (x y : node_id) : Prop :=
  visited t !! x = None ∧
  ∃ nd pre slot post,
    heap t !! x = Some nd ∧
    connections_ nd = pre ++ (slot, y) :: post ∧
    ∀ su, su ∈ pre → visited t !! su.2 = Some ready.

(** The calls of [polling] in progress, innermost first, around a call on
    [y]. *)
Fixpoint chain (t : tick N) (c : list node_id) (y : node_id) : Prop :=
  match c with
  | [] => True
  | m :: c' => blocked t m y ∧ chain t c' m
  end.

(** Every polled id has a memo entry and was polled once. *)
Definition polled_once (t : tick N) : Prop :=
  NoDup (polled t) ∧ ∀ x, x ∈ polled t → is_Some (visited t !! x).

(** The nodes of [t] have the [connections_] they have in [m0]. *)
Definition same_graph (m0 : gmap Z (node N)) (t : tick N) : Prop :=
  ∀ id, connections_ <$> (heap t !! id) = connections_ <$> (m0 !! id).

(** [rk] decreases along [connections_], which lead to live nodes. *)
Definition ranked (rk : node_id → nat) (m : gmap Z (node N)) : Prop :=
  ∀ id nd slot u, m !! id = Some nd → (slot, u) ∈ connections_ nd →
    is_Some (m !! u) ∧ (rk u < rk id)%nat.

(** [I] is a property of the node objects that [poll_next] keeps and
    under which every [poll_next] returns. *)
Definition poll_returns (I : gmap Z (node N) → Prop) : Prop :=
  (∀ m id nd, I m → m !! id = Some nd →
     is_Some (poll_next (view m) (payload nd))) ∧
  (∀ m id nd r x, I m → m !! id = Some nd →
     poll_next (view m) (payload nd) = Some (r, x) →
     I (<[id := set_payload x nd]> m)).

End Predicates.

(** ** Pipelines used as examples *)

Module Examples.
Import TestNodes.

(** Scenario S1. *)
Definition s1 : pipeline test_node :=
  default empty_pipeline (build s1_script empty_pipeline).

(** A sink fed by a source, and two components that feed each other and
    take their other input from that source: ids 1..4 are the sink, the
    source and the two components. *)
Definition cyclic_script : list edit :=
  [ Create (test_sink None); Create (test_source 0);
    Create (test_component None None 0); Create (test_component None None 0);
    Connect 2 1 0; Connect 2 3 0; Connect 4 3 1; Connect 2 4 0; Connect 3 4 1 ].

Definition cyclic : pipeline test_node :=
  default empty_pipeline (build cyclic_script empty_pipeline).

(** A component (id 3) with an exhausted source (id 1) in slot 0 and a
    source that is dry on its first poll (id 2) in slot 1; sink 4 reads
    the exhausted source and sink 5 the component. *)
Definition mixed_script : list edit :=
  [ Create (flex_source 0 0); Create (skip_source 0 6);
    Create (test_component None None 0);
    Create (stream_sink None EmptyString); Create (stream_sink None EmptyString);
    Connect 1 3 0; Connect 2 3 1; Connect 1 4 0; Connect 3 5 0 ].

Definition mixed : pipeline test_node :=
  default empty_pipeline (build mixed_script empty_pipeline).

(** The same wiring, with the two slots of the component connected in
    the other order. *)
Definition mixed_swapped_script : list edit :=
  [ Create (flex_source 0 0); Create (skip_source 0 6);
    Create (test_component None None 0);
    Create (stream_sink None EmptyString); Create (stream_sink None EmptyString);
    Connect 2 3 1; Connect 1 3 0; Connect 1 4 0; Connect 3 5 0 ].

Definition mixed_swapped : pipeline test_node :=
  default empty_pipeline (build mixed_swapped_script empty_pipeline).

(** Test Case 9: a sink (id 1) fed by a source (id 2), and a sink of
    [double] (id 3). *)
Definition test9_script : list edit :=
  [ Create (test_sink None); Create (test_source 0); Connect 2 1 0;
    Create (test_sink_double None) ].

Definition test9 : pipeline test_node :=
  default empty_pipeline (build test9_script empty_pipeline).



(** Test Case 27 (scenario S6). *)
Definition test27_script : list edit :=
  [ Create (skip_source 0 6); Create (test_component None None 0);
    Create (stream_sink None EmptyString);
    Connect 1 2 0; Connect 1 2 1; Connect 2 3 0 ].

Definition test27 : pipeline test_node :=
  default empty_pipeline (build test27_script empty_pipeline).



(** Every stored pointer of the object leads to a live producer of
    [int]. *)
Definition bound (h : node_id → option test_node) (n : test_node) : Prop :=
  match n with
  | test_sink s0 | stream_sink s0 _ => is_Some (deref_value h s0)
  | test_component s0 s1 _ => is_Some (deref_value h s0) ∧ is_Some (deref_value h s1)
  | test_sink_double _ => False
  | _ => True
  end.

Definition all_bound (m : gmap Z (node test_node)) : Prop :=
  ∀ id nd, m !! id = Some nd → bound (view m) (payload nd).

(** Depth of a node of scenario S1 above the sources. *)
Definition s1_rank (id : node_id) : nat :=
  if decide (id = 3) then 1 else if decide (id = 4) then 2
  else if decide (id = 5) then 1 else 0.

End Examples.

(** * More of the program *)

(** ** The stream renderer *)

(** The delimiter and the escape character of [std::quoted], and ['\n']. *)
Definition dquote : Ascii.ascii := Ascii.ascii_of_nat 34.
Definition backslash : Ascii.ascii := Ascii.ascii_of_nat 92.
Definition newline : string := String (Ascii.ascii_of_nat 10) EmptyString.

(** The body written by [std::quoted]: the escape character is put before
    every delimiter and every escape character. *)
Fixpoint escape (s : string) : string :=
  match s with
  | EmptyString => EmptyString
  | String c rest =>
      if decide (c = dquote ∨ c = backslash)
      then String backslash (String c (escape rest))
      else String c (escape rest)
  end.

(** [std::quoted(s)] written to an output stream. *)
Definition quoted (s : string) : string :=
  String dquote (escape s +:+ String dquote EmptyString).

(** [std::sort] of a [dependencies_] vector with the comparison
    [a.first < b.first]: ascending downstream ids (the order it leaves
    between entries with the same downstream id is unspecified; the model
    keeps their order). *)
Definition first_le (a b : Z * Z) : Prop := a.1 ≤ b.1.

#[global] Instance first_le_dec a b : Decision (first_le a b).
Proof. unfold first_le. apply _. Defined.

Definition sort_dependencies (d : list (Z * Z)) : list (Z * Z) :=
  merge_sort first_le d.

Section Renderer.
Context {N : Type} `{!NodeImpl N}.

(** [ss << node_id << " " << node->name()]. *)
Definition label (id : node_id) (nd : node N) : string :=
  pretty id +:+ " " +:+ name (payload nd).

(** The first loop of [operator<<]: one line per node. *)
Fixpoint node_lines (p : pipeline N) (ids : list node_id) : option (list string) :=
  match ids with
  | [] => Some []
  | id :: rest =>
      match nodes_ p !! id with
      | None => None
      | Some nd =>
          match node_lines p rest with
          | None => None
          | Some ls => Some (("  " +:+ quoted (label id nd) +:+ newline) :: ls)
          end
      end
  end.

(** The inner loop of the second loop: one line per entry of the sorted
    vector; [None] when [get_node(item.first)] is null. *)
Fixpoint edge_lines (p : pipeline N) (start : string)
    (deps : list (node_id * slot_id)) : option (list string) :=
  match deps with
  | [] => Some []
  | item :: rest =>
      match get_node p item.1 with
      | None => None
      | Some dn =>
          match edge_lines p start rest with
          | None => None
          | Some ls =>
              Some (("  " +:+ quoted start +:+ " -> " +:+
                     quoted (label item.1 dn) +:+ newline) :: ls)
          end
      end
  end.

(** The second loop of [operator<<]. *)
Fixpoint all_edge_lines (p : pipeline N) (ids : list node_id) :
    option (list string) :=
  match ids with
  | [] => Some []
  | id :: rest =>
      match nodes_ p !! id, get_dependencies id p with
      | Some nd, Ok dependencies =>
          match edge_lines p (label id nd) (sort_dependencies dependencies) with
          | None => None
          | Some l1 =>
              match all_edge_lines p rest with
              | None => None
              | Some l2 => Some (l1 ++ l2)
              end
          end
      | _, _ => None
      end
  end.

Definition concat_lines (ls : list string) : string :=
  foldr String.append EmptyString ls.

(** [operator<<]: the text written to the stream. *)
Definition render (p : pipeline N) : option string :=
  match node_lines p (ordered_ids (nodes_ p)),
        all_edge_lines p (ordered_ids (nodes_ p)) with
  | Some ns, Some es =>
      Some ("digraph G {" +:+ newline +:+ concat_lines ns +:+ newline +:+
            concat_lines es +:+ "}" +:+ newline)
  | _, _ => None
  end.


End Renderer.

(** ** Further predicates *)

Section MorePredicates.
Context {N : Type} `{!NodeImpl N}.

(** The counter is ahead of every id in use. *)
Definition ids_below (p : pipeline N) : Prop :=
  ∀ id, is_Some (nodes_ p !! id) → id < current_id p.

(** An editing operation made while the [int] counter can still be
    incremented without overflow. *)
Definition counted_edit (p p' : pipeline N) : Prop :=
  - 2 ^ 31 ≤ current_id p < 2 ^ 31 - 1 ∧ edited p p'.

(** User [connect] members do not change the tokens of their object. *)
Definition tokens_fixed : Prop :=
  ∀ h (x : N) src slot x',
    node_connect h x src slot = Ok x' →
    get_input_types x' = get_input_types x ∧
    get_output_type x' = get_output_type x.

(** Every filled slot exists and has the token of the node that fills
    it. *)
Definition well_typed (p : pipeline N) : Prop :=
  ∀ n nd slot up, nodes_ p !! n = Some nd → (slot, up) ∈ connections_ nd →
    0 ≤ slot ∧
    ∃ u, nodes_ p !! up = Some u ∧
         get_input_types (payload nd) !! Z.to_nat slot =
           Some (get_output_type (payload u)).

(** What a tick may have changed between [t] and [t']: the bookkeeping of
    no node, and the user object of polled nodes only. *)
Definition tick_frame (t t' : tick N) : Prop :=
  (∀ k, graph (heap t') k = graph (heap t) k) ∧
  (∃ delta, polled t' = polled t ++ delta) ∧
  (∀ k, k ∉ polled t' → heap t' !! k = heap t !! k).

(** Every memo entry is accounted for: the node was polled and the memo of
    each of its upstreams is [ready], or it was not polled and its entry,
    [empty] or [closed], is the memo of one of its upstreams. *)
Definition justified (t : tick N) : Prop :=
  ∀ n r, visited t !! n = Some r →
    ∃ nd, heap t !! n = Some nd ∧
      ((n ∈ polled t ∧
        (∀ su, su ∈ connections_ nd → visited t !! su.2 = Some ready)) ∨
       ((n ∉ polled t) ∧ r ≠ ready ∧
        ∃ su, su ∈ connections_ nd ∧ visited t !! su.2 = Some r)).

(** A slot of [n] holds [u]. *)
Definition plugged (p : pipeline N) (n u : node_id) : Prop :=
  ∃ nd slot, nodes_ p !! n = Some nd ∧ (slot, u) ∈ connections_ nd.

(** [n] is a sink or is upstream of one, through any number of slots. *)
Definition demanded (p : pipeline N) (n : node_id) : Prop :=
  ∃ s nd, nodes_ p !! s = Some nd ∧ get_output_type (payload nd) = ty_void ∧
          rtc (plugged p) s n.

(** [b] is named by the [connections_] or the [dependencies_] of [a]. *)
Definition adjacent (p : pipeline N) (a b : node_id) : Prop :=
  ∃ nd, nodes_ p !! a = Some nd ∧
        (b ∈ (connections_ nd).*2 ∨ b ∈ (dependencies_ nd).*1).

(** The nodes marked 2 by [has_cycle] are live, are plugged only into
    nodes marked 2, and [rk] decreases along their [connections_]. *)
Definition finished (p : pipeline N) (rk : node_id → nat) (v : gmap Z Z) : Prop :=
  ∀ k, v !! k = Some 2 →
    ∃ nd, nodes_ p !! k = Some nd ∧
          ∀ su, su ∈ connections_ nd → v !! su.2 = Some 2 ∧ (rk su.2 < rk k)%nat.

(** Marks 1 and 2 of [v] are marks of [v']. *)
Definition marks_kept (v v' : gmap Z Z) : Prop :=
  ∀ k, (v !! k = Some 1 → v' !! k = Some 1) ∧ (v !! k = Some 2 → v' !! k = Some 2).

(** The ids marked 1 in [v] are those of the list [l]. *)
Definition marked (v : gmap Z Z) (l : list node_id) : Prop :=
  NoDup l ∧ ∀ k, v !! k = Some 1 ↔ k ∈ l.

(** The calls of [has_cycle] in progress, innermost first, around a call
    on [src]: each one was made from the loop over the slots of the one
    after it. *)
Fixpoint stack_path (p : pipeline N) (l : list node_id) (src : node_id) : Prop :=
  match l with
  | [] => True
  | x :: l' => plugged p x src ∧ stack_path p l' x
  end.

(** Every node marked 1 that is not in progress has all its neighbours
    marked 1. *)
Definition explored (p : pipeline N) (S : list node_id) (v : gmap Z Z) : Prop :=
  ∀ x y, v !! x = Some 1 → x ∉ S → adjacent p x y → v !! y = Some 1.

(** The first two conditions of [is_valid] on a node: every slot is
    filled, and a node with an output has a dependant. *)
Definition node_complete (nd : node N) : Prop :=
  length (connections_ nd) = length (get_input_types (payload nd)) ∧
  (get_output_type (payload nd) ≠ ty_void → dependencies_ nd ≠ []).

(** [n] calls of [poll_next] on one object, with their results. *)
Fixpoint poll_times (n : nat) (h : node_id → option N) (x : N) :
    option (list poll * N) :=
  match n with
  | O => Some ([], x)
  | S k =>
      match poll_next h x with
      | None => None
      | Some (r, x1) =>
          match poll_times k h x1 with
          | None => None
          | Some (rs, x2) => Some (r :: rs, x2)
          end
      end
  end.

End MorePredicates.

Module MoreExamples.
Import TestNodes Examples.



(** The pointer member behind a slot of a test node ([slot0], [slot1]),
    when the class has that slot. *)
Definition slot_ptr (n : test_node) (slot : slot_id) : option (option node_id) :=
  match n with
  | test_sink s0 | stream_sink s0 _ | test_sink_double s0 =>
      if decide (slot = 0) then Some s0 else None
  | test_component s0 s1 _ =>
      if decide (slot = 0) then Some s0
      else if decide (slot = 1) then Some s1 else None
  | _ => None
  end.

(** The pointer members agree with [connections_]: a filled slot points
    to the node recorded for it. *)
Definition slots_follow (p : pipeline test_node) : Prop :=
  ∀ n nd slot up, nodes_ p !! n = Some nd → (slot, up) ∈ connections_ nd →
    slot_ptr (payload nd) slot = Some (Some up).

(** Scenario S1 after its first [connect]: slot 0 of the component is
    filled, slot 1 is not. *)
Definition half_plugged : pipeline test_node :=
  default empty_pipeline (build (take 6 s1_script) empty_pipeline).

(** The state at the end of the first tick of scenario S1. *)
Definition s1_tick : tick test_node :=
  default (Tick ∅ ∅ []) (snd <$> step_tick 3 s1).

(** The start of a tick of [mixed], and the state after a demand of
    its source 2. *)
Definition mixed_tick0 : tick test_node := Tick (nodes_ mixed) ∅ [].

Definition mixed_tick1 : tick test_node :=
  default mixed_tick0 (snd <$> polling 1 2 mixed_tick0).

(** The state at the end of the first tick of [cyclic]. *)
Definition cyclic_tick : tick test_node :=
  default (Tick ∅ ∅ []) (snd <$> step_tick 2 cyclic).

(** A line of the expected output: two spaces and the quoted labels. *)
Definition q : string := String dquote EmptyString.
Definition node_line (l : string) : string := "  " +:+ q +:+ l +:+ q +:+ newline.
Definition edge_line (a b : string) : string :=
  "  " +:+ q +:+ a +:+ q +:+ " -> " +:+ q +:+ b +:+ q +:+ newline.


Definition test27_expected : string :=
  "digraph G {" +:+ newline +:+
  node_line "1 SkipSource: Bound = 6" +:+
  node_line "2 TestComponent" +:+
  node_line "3 TestSink" +:+
  newline +:+
  edge_line "1 SkipSource: Bound = 6" "2 TestComponent" +:+
  edge_line "1 SkipSource: Bound = 6" "2 TestComponent" +:+
  edge_line "2 TestComponent" "3 TestSink" +:+
  "}" +:+ newline.

End MoreExamples.

(** * Proofs *)

(** ** Facts about the tick scheduler *)

Section SchedulerFacts.
Context {N : Type} `{!NodeImpl N}.
Implicit Types (t : tick N) (p : pipeline N).

Lemma tick_ext_refl t : tick_ext t t.
Proof. split; auto. Qed.

Lemma tick_ext_trans t1 t2 t3 : tick_ext t1 t2 → tick_ext t2 t3 → tick_ext t1 t3.
Proof.
  intros (Hv1 & Hc1 & Ht1) (Hv2 & Hc2 & Ht2). split_and!.
  - intros id r Hr. auto.
  - intros id. rewrite Hc2. apply Hc1.
  - intros id. rewrite Ht2. apply Ht1.
Qed.

Lemma tick_ext_memoize src r t :
  visited t !! src = None → tick_ext t (memoize src r t).
Proof.
  intros Hnone. split_and!; cbn [memoize visited heap polled]; [|done..].
  intros id r' Hr'. destruct (decide (src = id)) as [->|Hne]; [congruence|].
  by rewrite lookup_insert_ne.
Qed.

Lemma poll_node_inv src t r t' :
  poll_node src t = Some (r, t') →
  ∃ nd x, heap t !! src = Some nd ∧
          poll_next (view (heap t)) (payload nd) = Some (r, x) ∧
          t' = Tick (<[src := set_payload x nd]> (heap t))
                    (<[src := r]> (visited t)) (polled t ++ [src]).
Proof.
  unfold poll_node. intros E.
  destruct (heap t !! src) as [nd|] eqn:Hnd; [|done].
  destruct (poll_next (view (heap t)) (payload nd)) as [[r0 x]|] eqn:Hp; [|done].
  simplify_eq. eauto.
Qed.

Lemma tick_ext_poll_node src t r t' :
  visited t !! src = None → poll_node src t = Some (r, t') → tick_ext t t'.
Proof.
  intros Hnone (nd & x & Hnd & Hp & ->)%poll_node_inv.
  split_and!; cbn [memoize visited heap polled].
  - intros id r' Hr'. destruct (decide (src = id)) as [->|Hne]; [congruence|].
    by rewrite lookup_insert_ne.
  - intros id. destruct (decide (src = id)) as [->|Hne].
    + rewrite lookup_insert_eq, Hnd. done.
    + rewrite lookup_insert_ne by done. done.
  - intros id. destruct (decide (src = id)) as [->|Hne].
    + rewrite lookup_insert_eq, Hnd. simpl. f_equal.
      eapply poll_next_output_type, Hp.
    + rewrite lookup_insert_ne by done. done.
Qed.

(** A property kept by every call of [rec] is kept by the loop. *)
Lemma poll_upstreams_keeps (P : tick N → tick N → Prop) rec conns t o t' :
  (∀ t0, P t0 t0) →
  (∀ t0 t1 t2, P t0 t1 → P t1 t2 → P t0 t2) →
  (∀ u t0 r t1, rec u t0 = Some (r, t1) → P t0 t1) →
  poll_upstreams rec conns t = Some (o, t') → P t t'.
Proof.
  intros Hrefl Htrans Hrec. revert t.
  induction conns as [|[slot u] rest IH]; intros t E; simpl in E.
  - simplify_eq. apply Hrefl.
  - destruct (rec u t) as [[r t1]|] eqn:Hu; [|done].
    apply Hrec in Hu.
    destruct r; simplify_eq; eauto.
Qed.

Lemma polling_ext fuel src t r t' :
  polling fuel src t = Some (r, t') →
  tick_ext t t' ∧ visited t' !! src = Some r.
Proof.
  revert src t r t'. induction fuel as [|f IH]; intros src t r t' E; [done|].
  simpl in E.
  destruct (visited t !! src) as [r0|] eqn:Hv.
  { simplify_eq. split; [apply tick_ext_refl | done]. }
  destruct (heap t !! src) as [nd|] eqn:Hnd; [|done].
  destruct (poll_upstreams (polling f) (connections_ nd) t) as [[o t1]|] eqn:Hl; [|done].
  assert (tick_ext t t1) as Hext.
  { eapply (poll_upstreams_keeps tick_ext);
      [apply tick_ext_refl | apply tick_ext_trans | | exact Hl].
    intros u t0 r1 t2 Hu. by apply IH in Hu as [? _]. }
  destruct Hext as (Hv1 & Hc1 & Ht1).
  destruct o as [r1|].
  - simplify_eq. split; [|cbn [memoize visited]; apply lookup_insert_eq].
    split_and!; cbn [memoize visited heap]; [|done..].
    intros id r' Hr'. destruct (decide (src = id)) as [->|Hne]; [congruence|].
    rewrite lookup_insert_ne by done. by apply Hv1.
  - apply poll_node_inv in E as (nd1 & x & Hnd1 & Hp & ->).
    split; [|apply lookup_insert_eq].
    split_and!; cbn [visited heap].
    + intros id r' Hr'. destruct (decide (src = id)) as [->|Hne]; [congruence|].
      rewrite lookup_insert_ne by done. by apply Hv1.
    + intros id. rewrite <- Hc1. destruct (decide (src = id)) as [->|Hne].
      * rewrite lookup_insert_eq, Hnd1. done.
      * rewrite lookup_insert_ne by done. done.
    + intros id. rewrite <- Ht1. destruct (decide (src = id)) as [->|Hne].
      * rewrite lookup_insert_eq, Hnd1. simpl. f_equal.
        eapply poll_next_output_type, Hp.
      * rewrite lookup_insert_ne by done. done.
Qed.

Lemma polling_memo f u t r :
  visited t !! u = Some r → polling (S f) u t = Some (r, t).
Proof. intros Hv. simpl. by rewrite Hv. Qed.

Lemma poll_upstreams_ready_prefix f pre slot y post t :
  (∀ su, su ∈ pre → visited t !! su.2 = Some ready) →
  polling f y t = None →
  poll_upstreams (polling f) (pre ++ (slot, y) :: post) t = None.
Proof.
  intros Hpre Hy. induction pre as [|[s u] pre IH]; cbn [app poll_upstreams].
  - by rewrite Hy.
  - destruct f as [|f]; [done|].
    rewrite (polling_memo f u t ready) by (apply (Hpre (s, u)); set_solver).
    apply IH. intros su Hsu. apply Hpre. set_solver.
Qed.

(** A set of nodes in which every call leads to another call of the set
    never returns. *)
Lemma blocked_cycle_stuck (c : list node_id) t :
  (∀ x, x ∈ c → ∃ y, y ∈ c ∧ blocked t x y) →
  ∀ f x, x ∈ c → polling f x t = None.
Proof.
  intros Hc f. induction f as [|f IH]; intros x Hx; [done|].
  destruct (Hc x Hx) as (y & Hy & Hv & nd & pre & slot & post & Hnd & Hconn & Hpre).
  simpl. rewrite Hv, Hnd, Hconn.
  rewrite poll_upstreams_ready_prefix; auto.
Qed.

Lemma chain_unvisited t c y m : chain t c y → m ∈ c → visited t !! m = None.
Proof.
  revert y. induction c as [|a c IH]; intros y Hch Hm; [set_solver|].
  destruct Hch as [[Hv _] Hch].
  apply elem_of_cons in Hm as [->|Hm]; eauto.
Qed.

Lemma chain_closed t c1 c2 y0 x :
  chain t (c1 ++ c2) y0 → x ∈ c1 →
  ∃ y, blocked t x y ∧ (y = y0 ∨ y ∈ c1).
Proof.
  revert y0. induction c1 as [|a c1 IH]; intros y0 Hch Hx; [set_solver|].
  destruct Hch as [Hb Hch].
  apply elem_of_cons in Hx as [->|Hx].
  - eauto.
  - destruct (IH _ Hch Hx) as (y & Hy & Hor). exists y. split; [done|].
    right. destruct Hor as [->|Hin]; set_solver.
Qed.

Lemma chain_stuck t c y f : chain t c y → y ∈ c → polling f y t = None.
Proof.
  intros Hch Hy.
  apply list_elem_of_split in Hy as (c1 & c2 & ->).
  apply (blocked_cycle_stuck (c1 ++ [y])); [|set_solver].
  intros x Hx.
  replace (c1 ++ y :: c2) with ((c1 ++ [y]) ++ c2) in Hch
    by (by rewrite <- app_assoc).
  destruct (chain_closed _ _ _ _ _ Hch Hx) as (y' & Hb & Hor).
  exists y'. split; [|done].
  destruct Hor as [->|Hin]; [|done]. apply elem_of_app. right. by left.
Qed.

Lemma blocked_ext t t' x y :
  blocked t x y → tick_ext t t' → visited t' !! x = None → blocked t' x y.
Proof.
  intros (_ & nd & pre & slot & post & Hnd & Hconn & Hpre) (Hv & Hc & _) Hx.
  split; [done|].
  specialize (Hc x). rewrite Hnd in Hc. simpl in Hc.
  destruct (heap t' !! x) as [nd'|] eqn:Hnd'; [|done].
  exists nd', pre, slot, post. split_and!; [done|simpl in Hc; congruence|].
  intros su Hsu. apply Hv. by apply Hpre.
Qed.

Lemma chain_ext t t' c y :
  chain t c y → tick_ext t t' → (∀ m, m ∈ c → visited t' !! m = None) →
  chain t' c y.
Proof.
  revert y. induction c as [|a c IH]; intros y Hch Hext Hun; [done|].
  destruct Hch as [Hb Hch]. split.
  - eapply blocked_ext; eauto. apply Hun. set_solver.
  - apply IH; auto. intros m Hm. apply Hun. set_solver.
Qed.

(** The loop of a call [polling(y)] in progress, given that the nested
    calls keep the calls in progress without memo entry. *)
Lemma poll_upstreams_unvisited f y c nd t0 :
  (∀ u t r t' c', polling f u t = Some (r, t') → chain t c' u →
                   ∀ m, m ∈ c' → visited t' !! m = None) →
  heap t0 !! y = Some nd →
  ∀ rest pre t o t',
    connections_ nd = pre ++ rest →
    tick_ext t0 t →
    (∀ su, su ∈ pre → visited t !! su.2 = Some ready) →
    visited t !! y = None →
    chain t c y →
    poll_upstreams (polling f) rest t = Some (o, t') →
    ∀ m, m ∈ y :: c → visited t' !! m = None.
Proof.
  intros HT Hnd. induction rest as [|[slot u] rest IH];
    intros pre t o t' Hconn Hext Hpre Hy Hch E m Hm; simpl in E.
  - simplify_eq. apply elem_of_cons in Hm as [->|Hm]; [done|].
    eapply chain_unvisited; eauto.
  - destruct (polling f u t) as [[r t1]|] eqn:Hu; [|done].
    assert (chain t (y :: c) u) as Hch'.
    { split; [|done]. split; [done|].
      destruct Hext as (_ & Hc & _). specialize (Hc y). rewrite Hnd in Hc.
      destruct (heap t !! y) as [nd'|] eqn:Hnd'; [|done].
      exists nd', pre, slot, rest. split_and!; [done| |done].
      simpl in Hc. congruence. }
    pose proof (HT _ _ _ _ _ Hu Hch') as Hun.
    apply polling_ext in Hu as [Hext1 Hru].
    destruct r; simplify_eq; [|by apply Hun..].
    apply (IH (pre ++ [(slot, u)]) t1 o t'); auto.
    + by rewrite <- app_assoc.
    + eapply tick_ext_trans; eauto.
    + intros su [Hsu| ->%list_elem_of_singleton]%elem_of_app; [|done].
      apply Hext1. by apply Hpre.
    + apply Hun. by left.
    + eapply chain_ext; eauto. intros m' Hm'. apply Hun. by right.
Qed.

(** A call that returns leaves the calls in progress without memo
    entry. *)
Lemma polling_chain f : ∀ y t r t' c,
  polling f y t = Some (r, t') → chain t c y →
  ∀ m, m ∈ c → visited t' !! m = None.
Proof.
  induction f as [|f IH]; intros y t r t' c E Hch m Hm; [done|].
  destruct (decide (y ∈ c)) as [Hin|Hnin].
  { by rewrite (chain_stuck _ _ _ (S f) Hch Hin) in E. }
  simpl in E.
  destruct (visited t !! y) as [r0|] eqn:Hv.
  { simplify_eq. eapply chain_unvisited; eauto. }
  destruct (heap t !! y) as [nd|] eqn:Hnd; [|done].
  destruct (poll_upstreams (polling f) (connections_ nd) t) as [[o t1]|] eqn:Hl; [|done].
  assert (visited t1 !! m = None) as Hm1.
  { eapply (poll_upstreams_unvisited f y c nd t IH Hnd (connections_ nd) [] t);
      eauto using tick_ext_refl; set_solver. }
  assert (y ≠ m) by (intros ->; done).
  destruct o as [r1|].
  - simplify_eq. cbn [memoize visited]. by rewrite lookup_insert_ne.
  - apply poll_node_inv in E as (nd1 & x & Hnd1 & Hp & ->).
    cbn [visited]. by rewrite lookup_insert_ne.
Qed.

(** When the loop of [polling(y)] ends, [y] still has no memo entry. *)
Lemma poll_upstreams_self f y nd t o t' :
  visited t !! y = None → heap t !! y = Some nd →
  poll_upstreams (polling f) (connections_ nd) t = Some (o, t') →
  visited t' !! y = None.
Proof.
  intros Hv Hnd Hl.
  eapply (poll_upstreams_unvisited f y [] nd t (polling_chain f) Hnd
            (connections_ nd) [] t);
    eauto using tick_ext_refl; set_solver.
Qed.


(** *** The trace of polled ids *)

Lemma polled_more_refl t : polled_more t t.
Proof.
  split; [apply tick_ext_refl|]. exists []. split; [by rewrite app_nil_r|].
  intros x Hx. by apply elem_of_nil in Hx.
Qed.

Lemma polled_more_trans t1 t2 t3 :
  polled_more t1 t2 → polled_more t2 t3 → polled_more t1 t3.
Proof.
  intros [He1 (d1 & Hd1 & Hx1)] [He2 (d2 & Hd2 & Hx2)].
  split; [by eapply tick_ext_trans|].
  exists (d1 ++ d2). split; [by rewrite Hd2, Hd1, app_assoc|].
  intros x [Hx|Hx]%elem_of_app.
  - destruct (Hx1 x Hx) as [Hn [r Hr]]. split; [done|].
    exists r. by apply He2.
  - destruct (Hx2 x Hx) as [Hn Hs]. split; [|done].
    destruct (visited t1 !! x) as [r|] eqn:Hv; [|done].
    apply He1 in Hv. congruence.
Qed.

Lemma polling_polled_more fuel src t r t' :
  polling fuel src t = Some (r, t') → polled_more t t'.
Proof.
  revert src t r t'. induction fuel as [|f IH]; intros src t r t' E; [done|].
  pose proof (polling_ext _ _ _ _ _ E) as [Hext _].
  simpl in E.
  destruct (visited t !! src) as [r0|] eqn:Hv.
  { simplify_eq. apply polled_more_refl. }
  destruct (heap t !! src) as [nd|] eqn:Hnd; [|done].
  destruct (poll_upstreams (polling f) (connections_ nd) t) as [[o t1]|] eqn:Hl; [|done].
  pose proof (poll_upstreams_self _ _ _ _ _ _ Hv Hnd Hl) as Hv1.
  assert (polled_more t t1) as [He1 (d1 & Hd1 & Hx1)].
  { eapply (poll_upstreams_keeps polled_more);
      [apply polled_more_refl | apply polled_more_trans | | exact Hl].
    intros u t0 r1 t2 Hu. by eapply IH. }
  split; [done|]. destruct o as [r1|].
  - simplify_eq. exists d1. split; [done|].
    intros x Hx. destruct (Hx1 x Hx) as [Hn [r' Hr']]. split; [done|].
    exists r'. cbn [memoize visited].
    destruct (decide (src = x)) as [->|Hne]; [congruence|].
    by rewrite lookup_insert_ne.
  - apply poll_node_inv in E as (nd1 & x & Hnd1 & Hp & ->). cbn [polled visited].
    exists (d1 ++ [src]). split; [by rewrite Hd1, app_assoc|].
    intros y [Hy| ->%list_elem_of_singleton]%elem_of_app.
    + destruct (Hx1 y Hy) as [Hn [r' Hr']]. split; [done|].
      destruct (decide (src = y)) as [->|Hne]; [congruence|].
      rewrite lookup_insert_ne by done. eauto.
    + split; [done|]. rewrite lookup_insert_eq. eauto.
Qed.

Lemma polled_once_memoize src r t : polled_once t → polled_once (memoize src r t).
Proof.
  intros [Hnd Hvis]. split; [done|]. intros x Hx. cbn [memoize visited].
  destruct (decide (src = x)) as [->|Hne].
  - rewrite lookup_insert_eq. eauto.
  - rewrite lookup_insert_ne by done. by apply Hvis.
Qed.

Lemma polling_polled_once fuel src t r t' :
  polling fuel src t = Some (r, t') → polled_once t → polled_once t'.
Proof.
  revert src t r t'. induction fuel as [|f IH]; intros src t r t' E Hpo; [done|].
  simpl in E.
  destruct (visited t !! src) as [r0|] eqn:Hv.
  { by simplify_eq. }
  destruct (heap t !! src) as [nd|] eqn:Hnd; [|done].
  destruct (poll_upstreams (polling f) (connections_ nd) t) as [[o t1]|] eqn:Hl; [|done].
  pose proof (poll_upstreams_self _ _ _ _ _ _ Hv Hnd Hl) as Hv1.
  assert (polled_once t1) as Hpo1.
  { revert Hpo.
    eapply (poll_upstreams_keeps (λ a b, polled_once a → polled_once b));
      [done | by auto | | exact Hl].
    intros u t0 r1 t2 Hu. by eapply IH. }
  destruct o as [r1|].
  - simplify_eq. by apply polled_once_memoize.
  - apply poll_node_inv in E as (nd1 & x & Hnd1 & Hp & ->).
    destruct Hpo1 as [Hnodup Hvis]. split; cbn [polled visited].
    + apply NoDup_app. split_and!; [done| |apply NoDup_singleton].
      intros y Hy ->%list_elem_of_singleton.
      destruct (Hvis _ Hy) as [r' Hr']. congruence.
    + intros y [Hy| ->%list_elem_of_singleton]%elem_of_app.
      * destruct (decide (src = y)) as [->|Hne].
        -- rewrite lookup_insert_eq. eauto.
        -- rewrite lookup_insert_ne by done. by apply Hvis.
      * rewrite lookup_insert_eq. eauto.
Qed.

(** *** The loop of [step] *)

Lemma poll_sinks_keeps (P : tick N → tick N → Prop) fuel ids b t b' t' :
  (∀ t0, P t0 t0) →
  (∀ t0 t1 t2, P t0 t1 → P t1 t2 → P t0 t2) →
  (∀ u t0 r t1, polling fuel u t0 = Some (r, t1) → P t0 t1) →
  poll_sinks fuel ids b t = Some (b', t') → P t t'.
Proof.
  intros Hrefl Htrans Hrec. revert b t.
  induction ids as [|id rest IH]; intros b t E; simpl in E.
  - simplify_eq. apply Hrefl.
  - destruct (heap t !! id) as [nd|]; [|done].
    destruct (decide (get_output_type (payload nd) = ty_void)); [|by eauto].
    destruct (polling fuel id t) as [[r t1]|] eqn:Hu; [|done].
    apply Hrec in Hu. eauto.
Qed.




Lemma elem_of_ordered_ids {V : Type} (m : gmap Z V) id :
  id ∈ ordered_ids m ↔ is_Some (m !! id).
Proof.
  unfold ordered_ids. rewrite merge_sort_Permutation, elem_of_elements.
  apply elem_of_dom.
Qed.


(** *** The tick returns on a graph without cycle *)

Section Total.
Variable rk : node_id → nat.
Variable I : gmap Z (node N) → Prop.
Variable m0 : gmap Z (node N).
Hypothesis Hrk : ranked rk m0.
Hypothesis HI : poll_returns I.

Lemma same_graph_ext t t' : same_graph m0 t → tick_ext t t' → same_graph m0 t'.
Proof. intros Hs (_ & Hc & _) id. rewrite Hc. apply Hs. Qed.

Lemma same_graph_live t id : same_graph m0 t → is_Some (m0 !! id) → is_Some (heap t !! id).
Proof.
  intros Hs [nd Hnd]. specialize (Hs id). rewrite Hnd in Hs.
  destruct (heap t !! id); [eauto|done].
Qed.




End Total.

(** *** [run] *)



(** *** More fuel does not change a result *)

Lemma poll_upstreams_mono (rec rec' : node_id → tick N → option (poll * tick N))
    conns t x :
  (∀ u t0 y, rec u t0 = Some y → rec' u t0 = Some y) →
  poll_upstreams rec conns t = Some x → poll_upstreams rec' conns t = Some x.
Proof.
  intros Hrec. revert t. induction conns as [|[slot u] rest IH]; intros t E;
    simpl in *; [done|].
  destruct (rec u t) as [[r t1]|] eqn:Hu; [|done].
  rewrite (Hrec _ _ _ Hu). destruct r; auto.
Qed.

Lemma polling_mono f f' src t x :
  (f ≤ f')%nat → polling f src t = Some x → polling f' src t = Some x.
Proof.
  revert f' src t x. induction f as [|f IH]; intros f' src t x Hle E; [done|].
  destruct f' as [|f']; [lia|]. simpl in *.
  destruct (visited t !! src); [done|].
  destruct (heap t !! src) as [nd|]; [|done].
  destruct (poll_upstreams (polling f) (connections_ nd) t) as [y|] eqn:Hl; [|done].
  erewrite poll_upstreams_mono; [exact E| |exact Hl].
  intros u t0 y0 Hu. eapply IH; [|exact Hu]. lia.
Qed.

Lemma poll_sinks_mono f f' ids b t x :
  (f ≤ f')%nat → poll_sinks f ids b t = Some x → poll_sinks f' ids b t = Some x.
Proof.
  intros Hle. revert b t. induction ids as [|id rest IH]; intros b t E;
    simpl in *; [done|].
  destruct (heap t !! id) as [nd|]; [|done].
  destruct (decide (get_output_type (payload nd) = ty_void)); [|by auto].
  destruct (polling f id t) as [[r t1]|] eqn:Hu; [|done].
  rewrite (polling_mono _ _ _ _ _ Hle Hu). auto.
Qed.

Lemma step_mono f f' p x :
  (f ≤ f')%nat → step f p = Some x → step f' p = Some x.
Proof.
  unfold step, step_tick. intros Hle E.
  destruct (poll_sinks f _ _ _) as [[b t]|] eqn:Hs; [|done].
  by rewrite (poll_sinks_mono _ _ _ _ _ _ Hle Hs).
Qed.

Lemma run_mono k k' f f' p p' :
  (k ≤ k')%nat → (f ≤ f')%nat →
  run k f p = Some p' → run k' f' p = Some p'.
Proof.
  intros Hk Hf. revert k' p Hk. induction k as [|k IH]; intros k' p Hk E; [done|].
  destruct k' as [|k']; [lia|]. simpl in *.
  destruct (step f p) as [[b p1]|] eqn:Hs; [|done].
  rewrite (step_mono _ _ _ _ Hf Hs). destruct b; [done|].
  apply IH; [lia|done].
Qed.

Lemma poll_upstreams_app rec pre rest t :
  poll_upstreams rec (pre ++ rest) t =
  match poll_upstreams rec pre t with
  | Some (None, t1) => poll_upstreams rec rest t1
  | other => other
  end.
Proof.
  revert t. induction pre as [|[slot u] pre IH]; intros t; simpl.
  - by destruct (poll_upstreams rec rest t) as [[[] ?]|].
  - destruct (rec u t) as [[[] t1]|]; auto.
Qed.

End SchedulerFacts.

(** ** Facts about the registry *)

Section GraphFacts.
Implicit Types (c : list (slot_id * node_id)) (d : list (node_id * slot_id)).
Implicit Types (g : node_id → option (list (slot_id * node_id) * list (node_id * slot_id))).

Lemma occurrences_app x d1 d2 :
  occurrences x (d1 ++ d2) = (occurrences x d1 + occurrences x d2)%nat.
Proof. unfold occurrences. by rewrite filter_app, length_app. Qed.

Lemma occurrences_absent x d : x ∉ d → occurrences x d = 0%nat.
Proof.
  intros Hx. unfold occurrences.
  destruct (filter (λ y, y = x) d) as [|y l] eqn:Hf; [done|].
  assert (y ∈ filter (λ y, y = x) d) as [-> ?]%list_elem_of_filter
    by (rewrite Hf; by left).
  done.
Qed.

Lemma occurrences_present x d : occurrences x d ≠ 0%nat → x ∈ d.
Proof.
  intros Hn. destruct (decide (x ∈ d)) as [|Hx]; [done|].
  by apply occurrences_absent in Hx.
Qed.

Lemma occurrences_one x : occurrences x [x] = 1%nat.
Proof. unfold occurrences. by rewrite filter_cons_True. Qed.

Lemma occurrences_other x y : x ≠ y → occurrences x [y] = 0%nat.
Proof. intros Hne. apply occurrences_absent. by intros ->%list_elem_of_singleton. Qed.

Lemma occurrences_dep_erase x n d :
  x.1 ≠ n → occurrences x (dep_erase n d) = occurrences x d.
Proof.
  intros Hne. unfold occurrences, dep_erase. f_equal.
  apply list_filter_filter_l. by intros y ->.
Qed.

Lemma NoDup_keys_filter (P : slot_id * node_id → Prop) `{!∀ x, Decision (P x)} c :
  NoDup c.*1 → NoDup (filter P c).*1.
Proof.
  intros Hnd. eapply sublist_NoDup; [exact Hnd|].
  apply fmap_sublist, sublist_filter.
Qed.

Lemma keys_functional c s u1 u2 :
  NoDup c.*1 → (s, u1) ∈ c → (s, u2) ∈ c → u1 = u2.
Proof.
  induction c as [|[s0 u0] c IH]; intros Hnd H1 H2; [by apply elem_of_nil in H1|].
  apply NoDup_cons in Hnd as [Hnin Hnd].
  apply elem_of_cons in H1 as [H1|H1]; apply elem_of_cons in H2 as [H2|H2];
    simplify_eq; [done| | |by eauto].
  - exfalso. apply Hnin. by apply (list_elem_of_fmap_2 fst) in H2.
  - exfalso. apply Hnin. by apply (list_elem_of_fmap_2 fst) in H1.
Qed.

Lemma conn_emplace_fresh slot src c :
  slot ∉ c.*1 → conn_emplace slot src c = (slot, src) :: c.
Proof. intros Hn. unfold conn_emplace. by rewrite decide_False. Qed.

(** [connect] keeps the mirror invariant. *)
Lemma mirror_graph_connect g g' src dst slot :
  mirror_graph g →
  is_Some (g src) →
  (∃ c d, g dst = Some (c, d) ∧ slot ∉ c.*1) →
  (∀ k, g' k =
        (λ cd, (if decide (k = dst) then (slot, src) :: cd.1 else cd.1,
                if decide (k = src) then cd.2 ++ [(dst, slot)] else cd.2)) <$> g k) →
  mirror_graph g'.
Proof.
  intros (Hkeys & Hfw & Hbw) [[cs ds] Hsrc] (c0 & d0 & Hdst & Hfree) Hg'.
  assert ((dst, slot) ∉ ds) as Hnew.
  { intros Hin. destruct (Hbw _ _ _ _ _ Hsrc Hin) as (cd & dd & Hd & Hin').
    simplify_eq. apply Hfree. by apply (list_elem_of_fmap_2 fst) in Hin'. }
  split_and!.
  - intros n c d Hn. rewrite Hg' in Hn.
    destruct (g n) as [[c1 d1]|] eqn:Hgn; simplify_eq/=.
    destruct (decide (n = dst)) as [->|Hne]; [|by eauto].
    simplify_eq. apply NoDup_cons. eauto.
  - intros n c d s up Hn Hin. rewrite Hg' in Hn.
    destruct (g n) as [[c1 d1]|] eqn:Hgn; simplify_eq/=.
    assert (((s, up) = (slot, src) ∧ n = dst) ∨ (s, up) ∈ c1) as [[? ->]|Hin1].
    { destruct (decide (n = dst)); [|by right].
      apply elem_of_cons in Hin as [?|?]; auto. }
    + clear Hin. simplify_eq. rewrite Hg', Hsrc. simpl. eexists _, _. split; [done|].
      rewrite decide_True by done.
      rewrite occurrences_app, occurrences_one, occurrences_absent by done. done.
    + clear Hin. destruct (Hfw _ _ _ _ _ Hgn Hin1) as (cu & du & Hup & Hocc).
      rewrite Hg', Hup. simpl. eexists _, _. split; [done|].
      destruct (decide (up = src)) as [->|Hne]; [|done].
      rewrite occurrences_app, Hocc, occurrences_other; [done|].
      intros [= -> ->]. simplify_eq.
      apply Hfree. by apply (list_elem_of_fmap_2 fst) in Hin1.
  - intros u cu du d s Hu Hin. rewrite Hg' in Hu.
    destruct (g u) as [[c1 d1]|] eqn:Hgu; simplify_eq/=.
    assert (((d, s) = (dst, slot) ∧ u = src) ∨ (d, s) ∈ d1) as [[? ->]|Hin1].
    { destruct (decide (u = src)); [|by right].
      apply elem_of_app in Hin as [?|?%list_elem_of_singleton]; auto. }
    + clear Hin. simplify_eq. rewrite Hg', Hdst. simpl. eexists _, _. split; [done|].
      rewrite decide_True by done. by left.
    + clear Hin. destruct (Hbw _ _ _ _ _ Hgu Hin1) as (cd & dd & Hd & Hin').
      rewrite Hg', Hd. simpl. eexists _, _. split; [done|].
      destruct (decide (d = dst)); [by right|done].
Qed.

(** [disconnect] keeps the mirror invariant. *)
Lemma mirror_graph_disconnect g g' src dst :
  mirror_graph g →
  (∀ k, g' k =
        (λ cd, (if decide (k = dst) then conn_erase_src src cd.1 else cd.1,
                if decide (k = src) then dep_erase dst cd.2 else cd.2)) <$> g k) →
  mirror_graph g'.
Proof.
  intros (Hkeys & Hfw & Hbw) Hg'. split_and!.
  - intros n c d Hn. rewrite Hg' in Hn.
    destruct (g n) as [[c1 d1]|] eqn:Hgn; simplify_eq/=.
    destruct (decide (n = dst)); [apply NoDup_keys_filter|]; eauto.
  - intros n c d s up Hn Hin. rewrite Hg' in Hn.
    destruct (g n) as [[c1 d1]|] eqn:Hgn; simplify_eq/=.
    assert ((s, up) ∈ c1 ∧ (n = dst → up ≠ src)) as [Hin1 Hne].
    { destruct (decide (n = dst)); [|done].
      apply list_elem_of_filter in Hin as [? ?]. done. }
    clear Hin. destruct (Hfw _ _ _ _ _ Hgn Hin1) as (cu & du & Hup & Hocc).
    rewrite Hg', Hup. simpl. eexists _, _. split; [done|].
    destruct (decide (up = src)) as [->|]; [|done].
    rewrite occurrences_dep_erase; [done|]. simpl. intros ->. by apply Hne.
  - intros u cu du d s Hu Hin. rewrite Hg' in Hu.
    destruct (g u) as [[c1 d1]|] eqn:Hgu; simplify_eq/=.
    assert ((d, s) ∈ d1 ∧ (u = src → d ≠ dst)) as [Hin1 Hne].
    { destruct (decide (u = src)); [|done].
      apply list_elem_of_filter in Hin as [? ?]. done. }
    clear Hin. destruct (Hbw _ _ _ _ _ Hgu Hin1) as (cd & dd & Hd & Hin').
    rewrite Hg', Hd. simpl. eexists _, _. split; [done|].
    destruct (decide (d = dst)) as [->|]; [|done].
    apply list_elem_of_filter. split; [|done]. simpl. intros ->. by apply Hne.
Qed.

(** [erase_node] keeps the mirror invariant. *)
Lemma mirror_graph_erase g g' n cn dn :
  mirror_graph g →
  g n = Some (cn, dn) →
  (∀ k, g' k =
        if decide (k = n) then None
        else (λ cd, (filter (λ it, (k, it.1) ∉
                       (if decide (n ∈ cn.*2) then dep_erase n dn else dn)) cd.1,
                     if decide (k ∈ cn.*2) then dep_erase n cd.2 else cd.2)) <$> g k) →
  mirror_graph g'.
Proof.
  intros (Hkeys & Hfw & Hbw) Hn Hg'.
  set (dn1 := if decide (n ∈ cn.*2) then dep_erase n dn else dn) in *.
  assert (∀ k s, k ≠ n → (k, s) ∈ dn → (k, s) ∈ dn1) as Hdn1.
  { intros k s Hk Hin. unfold dn1. destruct (decide (n ∈ cn.*2)); [|done].
    apply list_elem_of_filter. done. }
  assert (∀ x, x ∈ dn1 → x ∈ dn) as Hdn1'.
  { intros x. unfold dn1. destruct (decide (n ∈ cn.*2)); [|done].
    by intros [_ ?]%list_elem_of_filter. }
  split_and!.
  - intros k c d Hk. rewrite Hg' in Hk. destruct (decide (k = n)); [done|].
    destruct (g k) as [[c1 d1]|] eqn:Hgk; simplify_eq/=.
    apply NoDup_keys_filter. eauto.
  - intros k c d s up Hk Hin. rewrite Hg' in Hk.
    destruct (decide (k = n)) as [|Hkn]; [done|].
    destruct (g k) as [[c1 d1]|] eqn:Hgk; simplify_eq/=.
    apply list_elem_of_filter in Hin as [Hout Hin1]. simpl in Hout.
    destruct (Hfw _ _ _ _ _ Hgk Hin1) as (cu & du & Hup & Hocc).
    assert (up ≠ n) as Hupn.
    { intros ->. simplify_eq. apply Hout, Hdn1; [done|].
      apply occurrences_present. lia. }
    rewrite Hg', decide_False, Hup by done. simpl. eexists _, _. split; [done|].
    destruct (decide (up ∈ cn.*2)); [|done]. by rewrite occurrences_dep_erase.
  - intros u cu du d s Hu Hin. rewrite Hg' in Hu.
    destruct (decide (u = n)) as [|Hun]; [done|].
    destruct (g u) as [[c1 d1]|] eqn:Hgu; simplify_eq/=.
    assert ((d, s) ∈ d1 ∧ d ≠ n) as [Hin1 Hdn].
    { destruct (decide (u ∈ cn.*2)) as [|Hc].
      - apply list_elem_of_filter in Hin as [? ?]. done.
      - split; [done|]. intros ->.
        destruct (Hbw _ _ _ _ _ Hgu Hin) as (cd & dd & Hd & Hin').
        simplify_eq. apply Hc. by apply (list_elem_of_fmap_2 snd) in Hin'. }
    clear Hin. destruct (Hbw _ _ _ _ _ Hgu Hin1) as (cd & dd & Hd & Hin').
    rewrite Hg', decide_False, Hd by done. simpl. eexists _, _. split; [done|].
    apply list_elem_of_filter. split; [|done]. simpl. intros Hds%Hdn1'.
    destruct (Hbw _ _ _ _ _ Hn Hds) as (cd' & dd' & Hd' & Hin'').
    simplify_eq.
    apply Hun. eapply (keys_functional _ s u n); eauto.
Qed.

(** [create_node] keeps the mirror invariant. *)
Lemma mirror_graph_create g g' id :
  mirror_graph g →
  (∀ k, g' k = if decide (k = id) then
                 match g id with Some x => Some x | None => Some ([], []) end
               else g k) →
  mirror_graph g'.
Proof.
  intros (Hkeys & Hfw & Hbw) Hg'.
  assert (∀ k x, g k = Some x → g' k = Some x) as Hkeep.
  { intros k x Hk. rewrite Hg'. destruct (decide (k = id)) as [->|]; [|done].
    by rewrite Hk. }
  assert (∀ k c d, g' k = Some (c, d) → g k = Some (c, d) ∨ (c = [] ∧ d = [])) as Hinv.
  { intros k c d. rewrite Hg'. destruct (decide (k = id)) as [->|]; [|by left].
    destruct (g id); [by left|]. intros [= <- <-]. by right. }
  split_and!.
  - intros k c d [Hk|[-> _]]%Hinv; [by eauto|]. apply NoDup_nil_2.
  - intros k c d s up [Hk|[-> _]]%Hinv Hin; [|by apply elem_of_nil in Hin].
    destruct (Hfw _ _ _ _ _ Hk Hin) as (cu & du & Hup & Hocc). eauto.
  - intros u cu du d s [Hu|[_ ->]]%Hinv Hin; [|by apply elem_of_nil in Hin].
    destruct (Hbw _ _ _ _ _ Hu Hin) as (cd & dd & Hd & Hin'). eauto.
Qed.

End GraphFacts.

Section RegistryFacts.
Context {N : Type} `{!NodeImpl N}.
Implicit Types (p : pipeline N) (m : gmap Z (node N)) (nd : node N).

Lemma filter_all {A} (P : A → Prop) `{!∀ x, Decision (P x)} (l : list A) :
  (∀ x, x ∈ l → P x) → filter P l = l.
Proof.
  induction l as [|a l IH]; intros Hall; [done|].
  rewrite filter_cons_True by (apply Hall; by left).
  f_equal. apply IH. intros x Hx. apply Hall. by right.
Qed.

Lemma mirror_iff_graph p : mirror p ↔ mirror_graph (graph (nodes_ p)).
Proof.
  unfold mirror, mirror_graph, graph. split; intros (Hk & Hf & Hb); split_and!.
  - intros n c d Hn. destruct (nodes_ p !! n) as [nd|] eqn:E; simplify_eq/=. eauto.
  - intros n c d s up Hn Hin.
    destruct (nodes_ p !! n) as [nd|] eqn:E; simplify_eq/=.
    destruct (Hf _ _ _ _ E Hin) as (u & -> & Hocc). simpl. eauto.
  - intros u cu du d s Hu Hin.
    destruct (nodes_ p !! u) as [nd|] eqn:E; simplify_eq/=.
    destruct (Hb _ _ _ _ E Hin) as (dn & -> & Hin'). simpl. eauto.
  - intros n nd Hn. eapply (Hk n). by rewrite Hn.
  - intros n nd s up Hn Hin.
    destruct (Hf n (connections_ nd) (dependencies_ nd) s up) as (cu & du & Hu & Hocc);
      [by rewrite Hn|done|].
    destruct (nodes_ p !! up) as [u|]; simplify_eq/=. eauto.
  - intros u ud d s Hu Hin.
    destruct (Hb u (connections_ ud) (dependencies_ ud) d s) as (cd & dd & Hd & Hin');
      [by rewrite Hu|done|].
    destruct (nodes_ p !! d) as [dn|]; simplify_eq/=. eauto.
Qed.

(** *** [erase_node] *)

Lemma erase_upstream_lookup n conns m m1 :
  erase_upstream n conns m = Some m1 →
  ∀ k, m1 !! k =
       (λ nd, if decide (k ∈ conns.*2)
              then set_dependencies (dep_erase n (dependencies_ nd)) nd
              else nd) <$> m !! k.
Proof.
  revert m. induction conns as [|[s src] rest IH]; intros m E k; simpl in E.
  - simplify_eq. by destruct (m1 !! k).
  - destruct (m !! src) as [nd|] eqn:Hsrc; [|done].
    rewrite (IH _ E k). clear IH E.
    destruct (decide (src = k)) as [->|Hne].
    + rewrite lookup_insert_eq, Hsrc. simpl. f_equal.
      destruct (decide (k ∈ k :: _)) as [_|Hn]; [|exfalso; apply Hn; by left].
      destruct (decide (k ∈ rest.*2)); [|done].
      unfold set_dependencies, dep_erase. simpl. f_equal.
      apply list_filter_filter_l. done.
    + rewrite lookup_insert_ne by done. destruct (m !! k) as [ndk|]; [|done].
      simpl. f_equal.
      destruct (decide (k ∈ rest.*2)) as [Hin|Hnin],
               (decide (k ∈ src :: _)) as [Hin'|Hnin']; try done.
      * exfalso. apply Hnin'. by right.
      * exfalso. by apply elem_of_cons in Hin' as [?|?].
Qed.

Lemma erase_downstream_lookup deps m m2 :
  erase_downstream deps m = Some m2 →
  ∀ k, m2 !! k =
       (λ nd, set_connections
                (filter (λ it, (k, it.1) ∉ deps) (connections_ nd)) nd) <$> m !! k.
Proof.
  revert m. induction deps as [|[dst s] rest IH]; intros m E k; simpl in E.
  - simplify_eq. destruct (m2 !! k) as [[x c d]|]; [|done]. simpl. f_equal.
    unfold set_connections. simpl. f_equal. symmetry. apply filter_all.
    intros it _. by intros ?%elem_of_nil.
  - destruct (m !! dst) as [nd|] eqn:Hdst; [|done].
    rewrite (IH _ E k). clear IH E.
    destruct (decide (dst = k)) as [->|Hne].
    + rewrite lookup_insert_eq, Hdst. simpl. f_equal.
      unfold set_connections, conn_erase. simpl. f_equal.
      rewrite list_filter_filter. apply list_filter_iff. intros it.
      rewrite not_elem_of_cons. split.
      * intros [? ?]. split; [|done]. congruence.
      * intros [? ?]. split; [done|]. congruence.
    + rewrite lookup_insert_ne by done. destruct (m !! k) as [ndk|]; [|done].
      simpl. f_equal. f_equal. apply list_filter_iff. intros it.
      rewrite not_elem_of_cons. split; [|by intros [_ ?]].
      intros ?. split; [congruence|done].
Qed.

Lemma erase_node_lookup n p p' :
  erase_node n p = (Ok (), p') →
  ∃ nd, nodes_ p !! n = Some nd ∧ current_id p' = current_id p ∧
    ∀ k, nodes_ p' !! k =
         if decide (k = n) then None
         else (λ ndk,
                 Node (payload ndk)
                      (filter (λ it, (k, it.1) ∉
                         (if decide (n ∈ (connections_ nd).*2)
                          then dep_erase n (dependencies_ nd)
                          else dependencies_ nd)) (connections_ ndk))
                      (if decide (k ∈ (connections_ nd).*2)
                       then dep_erase n (dependencies_ ndk)
                       else dependencies_ ndk)) <$> nodes_ p !! k.
Proof.
  unfold erase_node, get_node. intros E.
  destruct (nodes_ p !! n) as [nd|] eqn:Hn; [|done].
  destruct (erase_upstream n (connections_ nd) (nodes_ p)) as [m1|] eqn:H1; [|done].
  destruct (m1 !! n) as [nd1|] eqn:Hn1; [|done].
  destruct (erase_downstream (dependencies_ nd1) m1) as [m2|] eqn:H2; [|done].
  simplify_eq. exists nd. split; [done|]. split; [done|]. intros k. simpl.
  destruct (decide (k = n)) as [->|Hne]; [apply lookup_delete_eq|].
  rewrite lookup_delete_ne by done.
  rewrite (erase_downstream_lookup _ _ _ H2 k).
  rewrite (erase_upstream_lookup _ _ _ _ H1 k).
  rewrite (erase_upstream_lookup _ _ _ _ H1 n), Hn in Hn1. simplify_eq/=.
  destruct (nodes_ p !! k) as [ndk|]; [|done]. simpl. f_equal.
  destruct (decide (n ∈ (connections_ nd).*2)), (decide (k ∈ (connections_ nd).*2));
    reflexivity.
Qed.

Lemma erase_node_graph n p p' :
  erase_node n p = (Ok (), p') →
  ∃ cn dn, graph (nodes_ p) n = Some (cn, dn) ∧
    ∀ k, graph (nodes_ p') k =
         if decide (k = n) then None
         else (λ cd, (filter (λ it, (k, it.1) ∉
                        (if decide (n ∈ cn.*2) then dep_erase n dn else dn)) cd.1,
                      if decide (k ∈ cn.*2) then dep_erase n cd.2 else cd.2))
                <$> graph (nodes_ p) k.
Proof.
  intros (nd & Hn & _ & Hl)%erase_node_lookup.
  exists (connections_ nd), (dependencies_ nd). unfold graph.
  split; [by rewrite Hn|]. intros k. rewrite Hl.
  destruct (decide (k = n)); [done|]. by destruct (nodes_ p !! k).
Qed.


(** *** [connect] *)

Lemma connect_ok_inv src dst slot p p' :
  connect src dst slot p = (Ok (), p') →
  ∃ sn dn x,
    nodes_ p !! src = Some sn ∧ nodes_ p !! dst = Some dn ∧
    (slot ∉ (connections_ dn).*1) ∧
    node_connect (view (nodes_ p)) (payload dn) (Some src) slot = Ok x ∧
    current_id p' = current_id p ∧
    ∀ k, nodes_ p' !! k =
         (λ nd, Node (if decide (k = dst) then x else payload nd)
                     (if decide (k = dst) then (slot, src) :: connections_ nd
                      else connections_ nd)
                     (if decide (k = src) then dependencies_ nd ++ [(dst, slot)]
                      else dependencies_ nd)) <$> nodes_ p !! k.
Proof.
  unfold connect, get_node. intros E.
  destruct (nodes_ p !! src) as [sn|] eqn:Hs; [|done].
  destruct (nodes_ p !! dst) as [dn|] eqn:Hd; [|done].
  destruct (decide (slot ∈ (connections_ dn).*1)) as [|Hfree]; [done|].
  destruct (decide (slot < 0 ∨ _)); [done|].
  destruct (get_input_types (payload dn) !! Z.to_nat slot) as [ty|]; [|done].
  destruct (decide (ty ≠ get_output_type (payload sn))); [done|].
  destruct (node_connect _ _ _ _) as [x| |] eqn:Hc; [|done..].
  rewrite conn_emplace_fresh in E by done.
  destruct (<[dst:=_]> (nodes_ p) !! src) as [s1|] eqn:Hs1; [|done].
  simplify_eq. exists sn, dn, x. split_and!; [done..|]. intros k. simpl.
  destruct (decide (src = k)) as [->|Hsk].
  - rewrite lookup_insert_eq, Hs. simpl. f_equal.
    destruct (decide (dst = k)) as [->|Hdk].
    + rewrite lookup_insert_eq in Hs1. simplify_eq.
      rewrite !decide_True by done. done.
    + rewrite lookup_insert_ne, Hs in Hs1 by done. simplify_eq.
      rewrite !(decide_False (P := k = dst)) by done.
      rewrite decide_True by done. by destruct s1.
  - rewrite lookup_insert_ne by done.
    destruct (decide (dst = k)) as [->|Hdk].
    + rewrite lookup_insert_eq, Hd. simpl. f_equal.
      rewrite !decide_True by done. by rewrite decide_False by done.
    + rewrite lookup_insert_ne by done.
      destruct (nodes_ p !! k) as [[? ? ?]|]; [|done]. simpl.
      by rewrite !decide_False by done.
Qed.

Lemma connect_graph src dst slot p p' :
  connect src dst slot p = (Ok (), p') →
  is_Some (graph (nodes_ p) src) ∧
  (∃ c d, graph (nodes_ p) dst = Some (c, d) ∧ slot ∉ c.*1) ∧
  ∀ k, graph (nodes_ p') k =
       (λ cd, (if decide (k = dst) then (slot, src) :: cd.1 else cd.1,
               if decide (k = src) then cd.2 ++ [(dst, slot)] else cd.2))
         <$> graph (nodes_ p) k.
Proof.
  intros (sn & dn & x & Hs & Hd & Hfree & _ & _ & Hl)%connect_ok_inv.
  unfold graph. split_and!.
  - rewrite Hs. simpl. eauto.
  - rewrite Hd. simpl. eauto.
  - intros k. rewrite Hl. by destruct (nodes_ p !! k).
Qed.

(** *** [disconnect] *)

Lemma clear_slots_lookup src dst conns m m' :
  clear_slots src dst conns m = (Ok (), m') →
  ∀ k, (k ≠ dst → m' !! k = m !! k) ∧ graph m' k = graph m k.
Proof.
  revert m. induction conns as [|[slot by_] rest IH]; intros m E k; simpl in E.
  - by simplify_eq.
  - destruct (decide (src = by_)); [|by eauto].
    destruct (m !! dst) as [nd|] eqn:Hd; [|done].
    destruct (node_connect _ _ _ _) as [x| |]; [|done..].
    destruct (IH _ E k) as [H1 H2]. split.
    + intros Hne. rewrite H1 by done. by rewrite lookup_insert_ne.
    + rewrite H2. unfold graph. destruct (decide (dst = k)) as [->|Hne].
      * by rewrite lookup_insert_eq, Hd.
      * by rewrite lookup_insert_ne.
Qed.

Lemma disconnect_ok_inv src dst p p' :
  disconnect src dst p = (Ok (), p') →
  ∃ sn dn m,
    nodes_ p !! src = Some sn ∧ nodes_ p !! dst = Some dn ∧
    clear_slots src dst (connections_ dn) (nodes_ p) = (Ok (), m) ∧
    p' = Pipeline
           (alter (λ nd, set_dependencies (dep_erase dst (dependencies_ nd)) nd) src
              (alter (λ nd, set_connections (conn_erase_src src (connections_ nd)) nd)
                 dst m))
           (current_id p).
Proof.
  unfold disconnect, get_node. intros E.
  destruct (nodes_ p !! src) as [sn|] eqn:Hs; [|done].
  destruct (nodes_ p !! dst) as [dn|] eqn:Hd; [|done].
  destruct (clear_slots src dst (connections_ dn) (nodes_ p)) as [[[]| |] m] eqn:Hc;
    [|done..].
  simplify_eq. eauto 10.
Qed.

Lemma disconnect_graph src dst p p' :
  disconnect src dst p = (Ok (), p') →
  ∀ k, graph (nodes_ p') k =
       (λ cd, (if decide (k = dst) then conn_erase_src src cd.1 else cd.1,
               if decide (k = src) then dep_erase dst cd.2 else cd.2))
         <$> graph (nodes_ p) k.
Proof.
  intros (sn & dn & m & Hs & Hd & Hc & ->)%disconnect_ok_inv k. simpl.
  destruct (clear_slots_lookup _ _ _ _ _ Hc k) as [_ <-].
  unfold graph. rewrite !lookup_alter.
  destruct (decide (src = k)) as [->|Hsk], (decide (dst = k)) as [->|Hdk];
    destruct (m !! k) as [[? ? ?]|]; simpl; try done;
    repeat (rewrite ?decide_True by done; rewrite ?decide_False by done); done.
Qed.

(** *** [create_node] *)

Lemma create_node_graph n p :
  ∀ k, graph (nodes_ (create_node n p).2) k =
       if decide (k = current_id p) then
         match graph (nodes_ p) (current_id p) with
         | Some x => Some x
         | None => Some ([], [])
         end
       else graph (nodes_ p) k.
Proof.
  intros k. unfold create_node, map_emplace, graph. simpl.
  destruct (nodes_ p !! current_id p) as [nd|] eqn:Hc.
  - destruct (decide (k = current_id p)) as [->|]; [by rewrite Hc|done].
  - destruct (decide (k = current_id p)) as [->|].
    + by rewrite lookup_insert_eq.
    + by rewrite lookup_insert_ne.
Qed.

Lemma mirror_empty : mirror (empty_pipeline (N := N)).
Proof.
  unfold mirror, empty_pipeline. simpl.
  split_and!; intros *; by rewrite lookup_empty.
Qed.


Lemma create_node_mirror n p : mirror p → mirror (create_node n p).2.
Proof.
  rewrite !mirror_iff_graph. intros Hm.
  eapply mirror_graph_create; [exact Hm|]. apply create_node_graph.
Qed.

Lemma connect_mirror src dst slot p p' :
  connect src dst slot p = (Ok (), p') → mirror p → mirror p'.
Proof.
  rewrite !mirror_iff_graph. intros (Hs & Hd & Hg)%connect_graph Hm.
  eapply mirror_graph_connect; eauto.
Qed.

Lemma disconnect_mirror src dst p p' :
  disconnect src dst p = (Ok (), p') → mirror p → mirror p'.
Proof.
  rewrite !mirror_iff_graph. intros E Hm.
  eapply mirror_graph_disconnect; [exact Hm|]. by apply disconnect_graph.
Qed.

Lemma erase_node_mirror id p p' :
  erase_node id p = (Ok (), p') → mirror p → mirror p'.
Proof.
  rewrite !mirror_iff_graph. intros (cn & dn & Hn & Hg)%erase_node_graph Hm.
  eapply mirror_graph_erase; eauto.
Qed.

End RegistryFacts.

(** ** Facts about the example pipelines *)

Module ExampleFacts.
Import TestNodes Examples.

(** Case analysis on the nodes of a closed registry. *)
Ltac registry_cases H :=
  apply elem_of_map_to_list in H;
  match type of H with
  | _ ∈ ?l0 =>
      let l := fresh "l" in
      let Hl := fresh "Hl" in
      remember l0 as l eqn:Hl; vm_compute in Hl; subst l
  end;
  repeat (apply elem_of_cons in H as [H|H]; [injection H as -> ->|]);
  try (by apply elem_of_nil in H).

Ltac list_cases H :=
  repeat (apply elem_of_cons in H as [H|H]; [injection H as -> ->|]);
  try (by apply elem_of_nil in H).

Lemma deref_value_poll m id nd r x s :
  m !! id = Some nd →
  test_poll_next (view m) (payload nd) = Some (r, x) →
  is_Some (deref_value (view m) s) →
  is_Some (deref_value (view (<[id := set_payload x nd]> m)) s).
Proof.
  intros Hnd Hp. destruct s as [k|]; simpl; [|done].
  unfold view. destruct (decide (id = k)) as [->|Hne].
  - rewrite lookup_insert_eq, Hnd. simpl.
    destruct (payload nd); simpl in *; repeat (case_match; simplify_eq);
      simpl; eauto; by intros [? ?].
  - by rewrite lookup_insert_ne.
Qed.

Lemma bound_poll m id nd r x n :
  m !! id = Some nd →
  test_poll_next (view m) (payload nd) = Some (r, x) →
  bound (view m) n → bound (view (<[id := set_payload x nd]> m)) n.
Proof.
  intros Hnd Hp. destruct n; simpl; try done.
  - by eapply deref_value_poll.
  - intros [? ?]. split; by eapply deref_value_poll.
  - by eapply deref_value_poll.
Qed.

Lemma all_bound_poll_returns : poll_returns all_bound.
Proof.
  split.
  - intros m id nd Hall Hnd. specialize (Hall _ _ Hnd). simpl.
    destruct (payload nd); simpl in *.
    + destruct Hall as [v ->]. eauto.
    + case_decide; eauto.
    + destruct Hall as [[a ->] [b ->]]. eauto.
    + case_decide; eauto.
    + destruct Hall as [v ->]. eauto.
    + repeat case_decide; eauto.
    + done.
  - intros m id nd r x Hall Hnd Hp k nk Hk. simpl in Hp.
    destruct (decide (id = k)) as [->|Hne].
    + rewrite lookup_insert_eq in Hk. injection Hk as <-. simpl.
      pose proof (Hall _ _ Hnd) as Hb.
      pose proof (bound_poll _ _ _ _ _ _ Hnd Hp Hb) as Hb'.
      destruct (payload nd); simpl in Hp; repeat (case_match; simplify_eq);
        simplify_eq; done.
    + rewrite lookup_insert_ne in Hk by done.
      eapply bound_poll; eauto.
Qed.

Lemma s1_ranked : ranked s1_rank (nodes_ s1).
Proof.
  intros id nd slot u Hnd Hin. registry_cases Hnd; simpl in Hin; list_cases Hin;
    (split; [eexists; vm_compute; reflexivity | vm_compute; lia]).
Qed.

Lemma s1_all_bound : all_bound (nodes_ s1).
Proof.
  intros id nd Hnd. registry_cases Hnd.
  all: cbn [payload bound].
  all: first [exact I | repeat split; eexists; vm_compute; reflexivity].
Qed.


Lemma apply_edit_mirror e p p' :
  apply_edit e p = (Ok (), p') → mirror p → mirror p'.
Proof.
  destruct e; simpl; intros E Hm.
  - injection E as <-. by apply create_node_mirror.
  - by eapply connect_mirror.
  - by eapply disconnect_mirror.
  - by eapply erase_node_mirror.
Qed.

Lemma build_mirror es p p' : build es p = Some p' → mirror p → mirror p'.
Proof.
  revert p. induction es as [|e es IH]; intros p E Hm; simpl in E.
  - by simplify_eq.
  - destruct (apply_edit e p) as [[[]| |] p1] eqn:He; [|done..].
    eapply IH; [exact E|]. by eapply apply_edit_mirror.
Qed.

Lemma s1_mirror : mirror s1.
Proof.
  apply (build_mirror s1_script empty_pipeline); [vm_compute; reflexivity|].
  apply mirror_empty.
Qed.

End ExampleFacts.

(** ** The scheduler claims *)

Section SchedulerClaims.
Context {N : Type} `{!NodeImpl N}.
Implicit Types (t : tick N) (p : pipeline N).

(** X13: what the loop of [polling] does with the results of the upstreams:
    when a node [n] without memo entry is demanded, and the upstreams met
    first by the iteration over its [connections_] ([pre]) are all ready
    while the next one ([u]) returns [r], empty or closed, then the demand
    of [n] returns [r] and memoizes it for [n]; the final state is the one
    left by the demand of [u] plus that memo entry, so the upstreams after
    [u] are not demanded and [poll_next] of [n] is not invoked. *)
Lemma polling_first_unready f n nd t pre slot u post t1 r t2 :
  visited t !! n = None →
  heap t !! n = Some nd →
  connections_ nd = pre ++ (slot, u) :: post →
  poll_upstreams (polling f) pre t = Some (None, t1) →
  polling f u t1 = Some (r, t2) →
  r ≠ ready →
  polling (S f) n t = Some (r, memoize n r t2) ∧
  visited (memoize n r t2) !! n = Some r ∧
  ∃ delta, polled (memoize n r t2) = polled t ++ delta ∧ n ∉ delta.
Proof.
  intros Hv Hnd Hconn Hpre Hu Hr.
  assert (poll_upstreams (polling f) (connections_ nd) t = Some (Some r, t2)) as Hl.
  { rewrite Hconn, poll_upstreams_app, Hpre. simpl. rewrite Hu. by destruct r. }
  split_and!.
  - simpl. by rewrite Hv, Hnd, Hl.
  - cbn [memoize visited]. apply lookup_insert_eq.
  - assert (polled_more t t2) as [_ (d & Hd & Hx)].
    { eapply (poll_upstreams_keeps polled_more);
        [apply polled_more_refl | apply polled_more_trans | | exact Hl].
      intros ????. apply polling_polled_more. }
    exists d. split; [done|]. intros Hin.
    destruct (Hx n Hin) as [_ [r' Hr']].
    pose proof (poll_upstreams_self _ _ _ _ _ _ Hv Hnd Hl). congruence.
Qed.


(** C7: in the trace of a tick no id occurs twice, whatever the number of
    sinks and paths that reach a node; and a call of [polling] polls no
    node that had a memo entry when the call started. *)
Theorem polled_at_most_once :
  (∀ fuel p b t, step_tick fuel p = Some (b, t) → NoDup (polled t)) ∧
  (∀ fuel src t r t',
     polling fuel src t = Some (r, t') →
     ∃ delta, polled t' = polled t ++ delta ∧
              ∀ x, is_Some (visited t !! x) → x ∉ delta).
Proof.
  split.
  - intros fuel p b t E. unfold step_tick in E.
    assert (polled_once (Tick (nodes_ p) ∅ [])) as H0.
    { split; [apply NoDup_nil_2|]. intros x Hx. by apply elem_of_nil in Hx. }
    assert (polled_once t) as [Hnd _]; [|done].
    revert H0.
    apply (poll_sinks_keeps (λ a b, polled_once a → polled_once b)
             fuel (ordered_ids (nodes_ p)) true _ b t); [done|by auto| |done].
    intros u t0 r t1 Hu. by eapply polling_polled_once.
  - intros fuel src t r t' (_ & d & Hd & Hx)%polling_polled_more.
    exists d. split; [done|]. intros x [r' Hr'] Hin.
    destruct (Hx x Hin) as [Hn _]. congruence.
Qed.

End SchedulerClaims.

(** ** The registry claims *)

Section RegistryClaims.
Context {N : Type} `{!NodeImpl N}.
Implicit Types (p : pipeline N) (m : gmap Z (node N)) (nd : node N).

(** C4: the kind thrown by [connect] is that of the first violated
    precondition in the order [invalid_node_id], [slot_already_used],
    [no_such_slot], [connection_type_mismatch], whatever the later
    preconditions are. *)
Theorem connect_error_order p src dst slot :
  (violates_node_id p src dst →
     (connect src dst slot p).1 = Throw invalid_node_id) ∧
  (¬ violates_node_id p src dst → violates_slot_free p dst slot →
     (connect src dst slot p).1 = Throw slot_already_used) ∧
  (¬ violates_node_id p src dst → ¬ violates_slot_free p dst slot →
     violates_slot_range p dst slot →
     (connect src dst slot p).1 = Throw no_such_slot) ∧
  (¬ violates_node_id p src dst → ¬ violates_slot_free p dst slot →
     ¬ violates_slot_range p dst slot → violates_type p src dst slot →
     (connect src dst slot p).1 = Throw connection_type_mismatch).
Proof.
  unfold violates_node_id, violates_slot_free, violates_slot_range, violates_type,
    connect.
  destruct (get_node p src) as [sn|] eqn:Hs; cycle 1.
  { split_and!; [done|intros []; by left..]. }
  destruct (get_node p dst) as [dn|] eqn:Hd; cycle 1.
  { split_and!; [done|intros []; by right..]. }
  split_and!.
  - by intros [|].
  - intros _ (nd & [= <-] & Hin). by rewrite decide_True.
  - intros _ Hfree (nd & [= <-] & Hr).
    rewrite decide_False by (intros ?; apply Hfree; eauto).
    by rewrite decide_True.
  - intros _ Hfree Hrange (sn' & nd & [= <-] & [= <-] & Hty).
    rewrite decide_False by (intros ?; apply Hfree; eauto).
    rewrite decide_False by (intros ?; apply Hrange; eauto).
    destruct (get_input_types (payload dn) !! Z.to_nat slot) as [ty|] eqn:Hl.
    + rewrite decide_True; [done|]. congruence.
    + exfalso. apply Hrange. exists dn. split; [done|].
      apply lookup_ge_None in Hl. lia.
Qed.

(** C5: a call of [connect] or [erase_node] that throws leaves the
    pipeline as it was: same nodes, same [connections_], same
    [dependencies_]. *)
Theorem failed_edit_leaves_state p :
  (∀ src dst slot e p', connect src dst slot p = (Throw e, p') → p' = p) ∧
  (∀ id e p', erase_node id p = (Throw e, p') → p' = p).
Proof.
  split.
  - intros src dst slot e p'. unfold connect.
    repeat case_match; intros [= ]; by simplify_eq.
  - intros id e p'. unfold erase_node.
    repeat case_match; intros [= ]; by simplify_eq.
Qed.

(** C6: the mirror invariant holds in the empty pipeline, and every editing
    operation that returns normally ([create_node], [connect],
    [disconnect], [erase_node]) keeps it. *)
Theorem edits_keep_mirror :
  mirror (empty_pipeline (N := N)) ∧
  ∀ p p', mirror p → edited p p' → mirror p'.
Proof.
  split; [apply mirror_empty|].
  intros p p' Hm Hed.
  destruct Hed as [n p|src dst slot p p' E|src dst p p' E|id p p' E].
  - by apply create_node_mirror.
  - by eapply connect_mirror.
  - by eapply disconnect_mirror.
  - by eapply erase_node_mirror.
Qed.

(** C9: after a move construction or a move assignment from [p], the
    source finds no node, the target finds every node of [p] under its
    id, and [create_node] on the source returns the source's own
    [current_id] and stores the new node there; a move assignment of an
    object to itself changes nothing. *)
Theorem move_semantics :
  (∀ junk p,
     (∀ id, get_node (move_construct junk p).2 id = None) ∧
     (∀ id, get_node (move_construct junk p).1 id = get_node p id) ∧
     (∀ n, (create_node n (move_construct junk p).2).1 = current_id p ∧
           get_node (create_node n (move_construct junk p).2).2 (current_id p)
             = Some (Node n [] []))) ∧
  (∀ (s : gmap nat (pipeline N)) a b pa pb,
     a ≠ b → s !! a = Some pa → s !! b = Some pb →
     ∃ s' pa' pb',
       move_assign b a s = Some s' ∧ s' !! a = Some pa' ∧ s' !! b = Some pb' ∧
       (∀ id, get_node pa' id = None) ∧
       (∀ id, get_node pb' id = get_node pa id) ∧
       (∀ n, (create_node n pa').1 = current_id pa ∧
             get_node (create_node n pa').2 (current_id pa) = Some (Node n [] []))) ∧
  (∀ (s : gmap nat (pipeline N)) a pa,
     s !! a = Some pa → move_assign a a s = Some s).
Proof.
  split_and!.
  - intros junk p. unfold move_construct, get_node, create_node, map_emplace. simpl.
    split_and!; [intros id; apply lookup_empty|done|].
    intros n. rewrite lookup_empty. split; [done|]. apply lookup_insert_eq.
  - intros s a b pa pb Hne Ha Hb. unfold move_assign. rewrite Hb, Ha.
    rewrite decide_True by done. eexists _, _, _. split; [done|].
    rewrite lookup_insert_eq, lookup_insert_ne, lookup_insert_eq by done.
    split_and!; [done|done|..]; unfold get_node, create_node, map_emplace; simpl.
    + intros id. apply lookup_empty.
    + done.
    + intros n. rewrite lookup_empty. split; [done|]. apply lookup_insert_eq.
  - intros s a pa Ha. unfold move_assign. rewrite Ha.
    by rewrite decide_False by (by intros []).
Qed.

(** The loop of [disconnect] makes the calls [connect(null, s)] for the
    slots bound to [src], and no other call. *)
Lemma clear_slots_connect_null src dst conns m :
  clear_slots src dst conns m =
  connect_null dst (filter (λ item, item.2 = src) conns).*1 m.
Proof.
  revert m. induction conns as [|[s0 u0] rest IH]; intros m; [done|]. simpl.
  destruct (decide (src = u0)) as [<-|Hne].
  - rewrite filter_cons_True by done. simpl.
    destruct (m !! dst) as [nd|]; [|done].
    destruct (node_connect _ _ _ _) as [x| |]; [|done..]. apply IH.
  - rewrite filter_cons_False by (simpl; congruence). apply IH.
Qed.

(** C10: a successful [erase_node id] removes from every other node [d]
    the slots that were connected to [id] and leaves the user object of
    [d] untouched (no [node_connect] with a null source), whereas
    [disconnect src dst] calls [node_connect] with a null source on the
    object of [dst] once for each slot of [dst] bound to [src]: it
    returns normally exactly when these calls do, the user object of
    [dst] is then the one they leave, and the entries of [connections_]
    that remain are those of the other upstreams. *)
Theorem erase_keeps_downstream_binding :
  (∀ id p p',
     mirror p → erase_node id p = (Ok (), p') →
     ∀ d nd, d ≠ id → get_node p d = Some nd →
       ∃ nd', get_node p' d = Some nd' ∧
              payload nd' = payload nd ∧
              ∀ slot, (slot, id) ∈ connections_ nd →
                      slot ∉ (connections_ nd').*1) ∧
  (∀ src dst p sn nd,
     get_node p src = Some sn → get_node p dst = Some nd →
     (disconnect src dst p).1 =
       (connect_null dst (bound_slots src nd) (nodes_ p)).1 ∧
     ∀ p', disconnect src dst p = (Ok (), p') →
       ∃ nd' md,
         get_node p' dst = Some nd' ∧
         (connect_null dst (bound_slots src nd) (nodes_ p)).2 !! dst = Some md ∧
         payload nd' = payload md ∧
         (∀ s, (s, src) ∉ connections_ nd') ∧
         (∀ s u, (s, u) ∈ connections_ nd' ↔ (s, u) ∈ connections_ nd ∧ u ≠ src)).
Proof.
  split.
  - intros id p p' Hm (ndi & Hi & _ & Hl)%erase_node_lookup d nd Hne Hd.
    unfold get_node in *. rewrite Hl, decide_False, Hd by done. simpl.
    eexists. split; [done|]. split; [done|]. simpl.
    intros slot Hin [[s u] [Hs Hin']]%list_elem_of_fmap. simpl in Hs. subst s.
    apply list_elem_of_filter in Hin' as [Hout _]. simpl in Hout. apply Hout.
    destruct Hm as (_ & Hfw & _).
    destruct (Hfw _ _ _ _ Hd Hin) as (u' & Hu' & Hocc). simplify_eq.
    assert ((d, slot) ∈ dependencies_ ndi) as Hdep
      by (apply occurrences_present; lia).
    destruct (decide (id ∈ (connections_ ndi).*2)); [|done].
    apply list_elem_of_filter. done.
  - intros src dst p sn nd Hs Hd. unfold disconnect, bound_slots. rewrite Hs, Hd.
    unfold get_node in *.
    pose proof (clear_slots_lookup src dst (connections_ nd) (nodes_ p)) as Hlook.
    rewrite clear_slots_connect_null in *.
    destruct (connect_null dst _ (nodes_ p)) as [[[]| |] m]; simpl; [|done..].
    split; [done|]. intros p' [= <-]. simpl.
    destruct (Hlook m eq_refl dst) as [_ Hg]. unfold graph in Hg. rewrite Hd in Hg.
    destruct (m !! dst) as [md|] eqn:Hmd; [|done].
    simpl in Hg. injection Hg as Hconn Hdeps.
    assert (∃ nd', alter (λ n, set_dependencies (dep_erase dst (dependencies_ n)) n) src
                     (alter (λ n, set_connections
                                    (conn_erase_src src (connections_ n)) n) dst m)
                     !! dst = Some nd' ∧
                   payload nd' = payload md ∧
                   connections_ nd' = conn_erase_src src (connections_ nd))
      as (nd' & Hnd' & Hpay & Hc').
    { destruct (decide (src = dst)) as [->|Hne].
      - rewrite !lookup_alter_eq, Hmd. simpl. eexists. split; [done|].
        by rewrite Hconn.
      - rewrite lookup_alter_ne, lookup_alter_eq, Hmd by done. simpl.
        eexists. split; [done|]. by rewrite Hconn. }
    exists nd', md. split_and!; [done|done|done| |].
    + intros s Hin. rewrite Hc' in Hin.
      by apply list_elem_of_filter in Hin as [Hu _].
    + intros s u. rewrite Hc'. unfold conn_erase_src.
      rewrite list_elem_of_filter. simpl. tauto.
Qed.

End RegistryClaims.

(** ** The claims on the example pipelines *)

Module ExampleClaims.
Import TestNodes Examples ExampleFacts.

(** C1: the code at the failing input.  In [mixed] (a valid pipeline) the
    demand of source 1 returns [closed] and that of source 2 [empty] in the
    same tick; component 3, whose loop meets source 2 first, is memoized
    [empty], not [closed], and [step] returns [false].  With the same two
    slots filled in the other order ([mixed_swapped]) the loop meets
    source 1 first, the component is memoized [closed] and [step] returns
    [true]. *)
Theorem mixed_closed_upstream_observed_empty :
  build mixed_script empty_pipeline = Some mixed ∧
  build mixed_swapped_script empty_pipeline = Some mixed_swapped ∧
  is_valid mixed = Some true ∧
  connections_ <$> get_node mixed 3 = Some [(1, 2); (0, 1)] ∧
  connections_ <$> get_node mixed_swapped 3 = Some [(0, 1); (1, 2)] ∧
  (λ bt, (bt.1, visited bt.2 !! 1, visited bt.2 !! 2, visited bt.2 !! 3))
    <$> step_tick 3 mixed
    = Some (false, Some closed, Some empty, Some empty) ∧
  (λ bt, (bt.1, visited bt.2 !! 1, visited bt.2 !! 2, visited bt.2 !! 3))
    <$> step_tick 3 mixed_swapped
    = Some (true, Some closed, None, Some closed).
Proof. repeat split; vm_compute; reflexivity. Qed.

(** C2: [is_valid] returns [true] on the pipeline [cyclic], in which the
    components 3 and 4 feed each other: the cycle is not upstream of the
    sink, where alone the search for cycles starts. *)
Theorem cyclic_pipeline_reported_valid :
  build cyclic_script empty_pipeline = Some cyclic ∧
  connections_ <$> get_node cyclic 3 = Some [(1, 4); (0, 2)] ∧
  connections_ <$> get_node cyclic 4 = Some [(1, 3); (0, 2)] ∧
  is_valid cyclic = Some true.
Proof. repeat split; vm_compute; reflexivity. Qed.



Lemma polled_at_most_once_witness :
  ∃ t, step_tick 3 s1 = Some (false, t) ∧ polled t = [2; 1; 3; 4; 5] ∧
       NoDup (polled t).
Proof.
  eexists. split; [vm_compute; reflexivity|]. split; [reflexivity|].
  eapply (proj1 (@polled_at_most_once test_node _) 3%nat s1 false).
  vm_compute; reflexivity.
Defined.

(** C8: scenario S1 is valid and, run with at least 11 ticks, ends with
    the stream of sink 4 equal to ["2 4 6 8 10 "] and the stream of sink 5
    equal to ["1 2 3 4 5 6 7 8 9 10 "]. *)
Theorem s1_run_to_completion ticks fuel :
  (11 ≤ ticks)%nat → (3 ≤ fuel)%nat →
  build s1_script empty_pipeline = Some s1 ∧
  is_valid s1 = Some true ∧
  ∃ p', run ticks fuel s1 = Some p' ∧
        stream_of p' 4 = Some "2 4 6 8 10 " ∧
        stream_of p' 5 = Some "1 2 3 4 5 6 7 8 9 10 ".
Proof.
  intros Hticks Hfuel.
  split; [vm_compute; reflexivity|]. split; [vm_compute; reflexivity|].
  exists (default s1 (run 11 3 s1)). split_and!.
  - eapply run_mono; [exact Hticks|exact Hfuel|]. vm_compute; reflexivity.
  - vm_compute; reflexivity.
  - vm_compute; reflexivity.
Qed.

Lemma s1_run_to_completion_witness :
  ∃ p', run 11 3 s1 = Some p' ∧
        stream_of p' 4 = Some "2 4 6 8 10 " ∧
        stream_of p' 5 = Some "1 2 3 4 5 6 7 8 9 10 ".
Proof.
  apply (s1_run_to_completion 11 3); lia.
Defined.

Lemma connect_error_order_witness :
  (connect 4 1 0 test9).1 = Throw invalid_node_id ∧
  (connect 3 1 0 test9).1 = Throw slot_already_used ∧
  (connect 3 1 1 test9).1 = Throw no_such_slot ∧
  (connect 2 3 0 test9).1 = Throw connection_type_mismatch.
Proof.
  assert (∀ src dst, is_Some (nodes_ test9 !! src) → is_Some (nodes_ test9 !! dst) →
                     ¬ violates_node_id test9 src dst) as Hlive.
  { intros src dst [? Hs] [? Hd] [?|?]; unfold get_node in *; congruence. }
  assert (∀ dst slot nd, nodes_ test9 !! dst = Some nd →
                         slot ∉ (connections_ nd).*1 →
                         ¬ violates_slot_free test9 dst slot) as Hfree.
  { intros dst slot nd Hd Hnin (nd' & Hd' & Hin). unfold get_node in *. congruence. }
  split_and!.
  - apply (proj1 (connect_error_order test9 4 1 0)). by left.
  - apply (proj1 (proj2 (connect_error_order test9 3 1 0))).
    + apply Hlive; eexists; vm_compute; reflexivity.
    + eexists. split; [vm_compute; reflexivity|]. by left.
  - apply (proj1 (proj2 (proj2 (connect_error_order test9 3 1 1)))).
    + apply Hlive; eexists; vm_compute; reflexivity.
    + eapply Hfree; [vm_compute; reflexivity|].
      cbn [connections_ fmap list_fmap fst]. intros Hin.
      repeat (apply elem_of_cons in Hin as [Hin|Hin]; [discriminate|]).
      by apply elem_of_nil in Hin.
    + eexists. split; [vm_compute; reflexivity|]. simpl. lia.
  - apply (proj2 (proj2 (proj2 (connect_error_order test9 2 3 0)))).
    + apply Hlive; eexists; vm_compute; reflexivity.
    + eapply Hfree; [vm_compute; reflexivity|].
      cbn [connections_ fmap list_fmap fst]. intros Hin.
      by apply elem_of_nil in Hin.
    + intros (nd & Hnd & Hr). vm_compute in Hnd. injection Hnd as <-.
      simpl in Hr. lia.
    + eexists _, _. split_and!; [vm_compute; reflexivity..|]. simpl. discriminate.
Defined.

Lemma failed_edit_leaves_state_witness :
  (connect 4 4 0 s1).1 = Throw slot_already_used ∧
  (connect 4 4 0 s1).2 = s1 ∧
  (erase_node 9 s1).1 = Throw invalid_node_id ∧
  (erase_node 9 s1).2 = s1.
Proof.
  split_and!.
  - vm_compute; reflexivity.
  - apply (proj1 (failed_edit_leaves_state s1) 4 4 0 slot_already_used).
    vm_compute; reflexivity.
  - vm_compute; reflexivity.
  - apply (proj2 (failed_edit_leaves_state s1) 9 invalid_node_id).
    vm_compute; reflexivity.
Defined.

Lemma edits_keep_mirror_witness :
  ∃ p', erase_node 2 s1 = (Ok (), p') ∧ mirror p'.
Proof.
  eexists. split; [vm_compute; reflexivity|].
  eapply (proj2 (@edits_keep_mirror test_node _) s1); [apply s1_mirror|].
  apply (edited_erase 2). vm_compute; reflexivity.
Defined.

Lemma move_semantics_witness :
  ∃ s', move_assign 1 0 (<[0%nat := s1]> {[1%nat := empty_pipeline]}) = Some s' ∧
        (λ p, get_node p 3) <$> (s' !! 0%nat) = Some None ∧
        (λ p, get_node p 3) <$> (s' !! 1%nat) = Some (get_node s1 3).
Proof.
  destruct (proj1 (proj2 (@move_semantics test_node))
              (<[0%nat := s1]> {[1%nat := empty_pipeline]}) 0%nat 1%nat
              s1 empty_pipeline)
    as (s' & pa' & pb' & Hmove & Ha & Hb & Hnone & Hsame & _);
    [done|done|done|].
  exists s'. split; [done|]. rewrite Ha, Hb. simpl.
  by rewrite Hnone, Hsame.
Defined.

Lemma erase_keeps_downstream_binding_witness :
  (∃ p' nd', erase_node 1 s1 = (Ok (), p') ∧
             get_node p' 3 = Some nd' ∧
             payload nd' = test_component (Some 1) (Some 2) 0 ∧
             0 ∉ (connections_ nd').*1) ∧
  (∃ p' nd', disconnect 1 2 test27 = (Ok (), p') ∧
             bound_slots 1 <$> get_node test27 2 = Some [1; 0] ∧
             get_node p' 2 = Some nd' ∧
             payload nd' = test_component None None 0 ∧
             ∀ s, (s, 1) ∉ connections_ nd').
Proof.
  split.
  - destruct (proj1 (@erase_keeps_downstream_binding test_node _) 1 s1
                (erase_node 1 s1).2 s1_mirror)
      with (d := 3) (nd := default (Node (test_sink None) [] []) (get_node s1 3))
      as (nd' & Hnd' & Hpay & Hconn);
      [vm_compute; reflexivity|done|vm_compute; reflexivity|].
    eexists _, nd'. split_and!; [vm_compute; reflexivity|done|done|].
    apply Hconn. vm_compute. right. left.
  - destruct (proj2 (@erase_keeps_downstream_binding test_node _) 1 2 test27
                (Node (skip_source 0 6) [] [(2, 0); (2, 1)])
                (Node (test_component (Some 1) (Some 1) 0) [(1, 1); (0, 1)] [(3, 0)]))
      as [_ Hok]; [vm_compute; reflexivity..|].
    destruct (Hok (disconnect 1 2 test27).2) as (nd' & md & Hnd' & Hmd & Hpay & Hgone & _);
      [vm_compute; reflexivity|].
    eexists _, nd'. split_and!; [vm_compute; reflexivity|vm_compute; reflexivity|done| |done].
    rewrite Hpay. vm_compute in Hmd. by injection Hmd as <-.
Defined.

End ExampleClaims.

(** ** More of the registry *)

Section RegistryExtras.
Context {N : Type} `{!NodeImpl N}.
Implicit Types (p : pipeline N) (m : gmap Z (node N)) (nd : node N).

Lemma int_wrap_small z : - 2 ^ 31 ≤ z < 2 ^ 31 → int_wrap z = z.
Proof. intros Hz. unfold int_wrap. rewrite Z.mod_small; lia. Qed.

Lemma edited_current_id p p' :
  edited p p' →
  current_id p' = current_id p ∨ current_id p' = int_wrap (current_id p + 1).
Proof.
  intros [n p0|src dst slot p0 p1 E|src dst p0 p1 E|id p0 p1 E].
  - by right.
  - left. by apply connect_ok_inv in E as (? & ? & ? & _ & _ & _ & _ & ? & _).
  - left. by apply disconnect_ok_inv in E as (? & ? & ? & _ & _ & _ & ->).
  - left. by apply erase_node_lookup in E as (? & _ & ? & _).
Qed.

Lemma edited_live p p' id :
  edited p p' → is_Some (nodes_ p' !! id) →
  is_Some (nodes_ p !! id) ∨ id = current_id p.
Proof.
  intros [n p0|src dst slot p0 p1 E|src dst p0 p1 E|id0 p0 p1 E] Hlive.
  - unfold create_node, map_emplace in Hlive. simpl in Hlive.
    destruct (nodes_ p0 !! current_id p0) eqn:Hc; [by left|].
    destruct (decide (id = current_id p0)) as [->|Hne]; [by right|].
    rewrite lookup_insert_ne in Hlive by done. by left.
  - left. apply connect_ok_inv in E as (? & ? & ? & _ & _ & _ & _ & _ & Hl).
    rewrite Hl in Hlive. by destruct (nodes_ p0 !! id).
  - left. apply disconnect_graph with (k := id) in E. unfold graph in E.
    destruct (nodes_ p0 !! id); [done|]. by destruct (nodes_ p1 !! id), Hlive.
  - left. apply erase_node_lookup in E as (? & _ & _ & Hl).
    rewrite Hl in Hlive. destruct (decide (id = id0)); [by destruct Hlive|].
    by destruct (nodes_ p0 !! id).
Qed.

Lemma counted_edit_ids_below p p' :
  counted_edit p p' → ids_below p →
  ids_below p' ∧ current_id p ≤ current_id p'.
Proof.
  intros [Hc Hed] Hb.
  destruct (edited_current_id _ _ Hed) as [Hcur|Hcur].
  - split; [|lia]. intros id Hlive. rewrite Hcur.
    destruct (edited_live _ _ _ Hed Hlive) as [Hold| ->]; [by apply Hb|].
    exfalso. destruct Hed as [n p0|src dst slot p0 p1 E|src dst p0 p1 E|id0 p0 p1 E].
    + simpl in Hcur. rewrite int_wrap_small in Hcur by lia. lia.
    + apply connect_ok_inv in E as (? & ? & ? & _ & _ & _ & _ & _ & Hl).
      rewrite Hl in Hlive. destruct (nodes_ p0 !! current_id p0) eqn:Hn; [|by destruct Hlive].
      specialize (Hb (current_id p0)). rewrite Hn in Hb. specialize (Hb (mk_is_Some _ _ eq_refl)). lia.
    + apply disconnect_graph with (k := current_id p0) in E. unfold graph in E.
      destruct (nodes_ p0 !! current_id p0) eqn:Hn.
      * specialize (Hb (current_id p0)). rewrite Hn in Hb.
        specialize (Hb (mk_is_Some _ _ eq_refl)). lia.
      * by destruct (nodes_ p1 !! current_id p0), Hlive.
    + apply erase_node_lookup in E as (? & _ & _ & Hl).
      rewrite Hl in Hlive. destruct (decide (current_id p0 = id0)); [by destruct Hlive|].
      destruct (nodes_ p0 !! current_id p0) eqn:Hn; [|by destruct Hlive].
      specialize (Hb (current_id p0)). rewrite Hn in Hb.
      specialize (Hb (mk_is_Some _ _ eq_refl)). lia.
  - rewrite int_wrap_small in Hcur by lia. split; [|lia].
    intros id Hlive. rewrite Hcur.
    destruct (edited_live _ _ _ Hed Hlive) as [Hold| ->]; [|lia].
    specialize (Hb _ Hold). lia.
Qed.

(** X1: [create_node] hands out the counter's value, which is in use by no
    node, stores the new node under it without connections or
    dependencies, and leaves every other node as it is. *)
Theorem create_node_fresh n p :
  ids_below p →
  get_node p (create_node n p).1 = None ∧
  get_node (create_node n p).2 (create_node n p).1 = Some (Node n [] []) ∧
  get_dependencies (create_node n p).1 (create_node n p).2 = Ok [] ∧
  ∀ k, k ≠ (create_node n p).1 → get_node (create_node n p).2 k = get_node p k.
Proof.
  intros Hb. unfold create_node, get_dependencies, get_node, map_emplace. simpl.
  assert (nodes_ p !! current_id p = None) as Hnone.
  { destruct (nodes_ p !! current_id p) eqn:Hn; [|done].
    specialize (Hb (current_id p)). rewrite Hn in Hb.
    specialize (Hb (mk_is_Some _ _ eq_refl)). lia. }
  rewrite Hnone, lookup_insert_eq. split_and!; [done..|].
  intros k Hk. by rewrite lookup_insert_ne.
Qed.

(** X2: an id that is in use is never handed out again by [create_node],
    whatever editing operations follow (also after the node is erased), as
    long as the [int] counter does not overflow. *)
Theorem ids_never_reused p p' id n :
  ids_below p → is_Some (get_node p id) → rtc counted_edit p p' →
  ids_below p' ∧ (create_node n p').1 ≠ id.
Proof.
  intros Hb Hlive Hrtc.
  assert (id < current_id p) as Hlt by by apply Hb.
  clear Hlive. induction Hrtc as [p|p p1 p2 Hstep _ IH].
  - split; [done|]. simpl. lia.
  - destruct (counted_edit_ids_below _ _ Hstep Hb) as [Hb1 Hle].
    apply IH; [done|lia].
Qed.


Lemma connect_ok_typed src dst slot p p' :
  connect src dst slot p = (Ok (), p') →
  ∃ sn dn, nodes_ p !! src = Some sn ∧ nodes_ p !! dst = Some dn ∧ 0 ≤ slot ∧
           get_input_types (payload dn) !! Z.to_nat slot =
             Some (get_output_type (payload sn)).
Proof.
  unfold connect, get_node. intros E.
  destruct (nodes_ p !! src) as [sn|] eqn:Hs; [|done].
  destruct (nodes_ p !! dst) as [dn|] eqn:Hd; [|done].
  destruct (decide (slot ∈ (connections_ dn).*1)) as [Hin|Hfree]; [done|].
  destruct (decide (slot < 0 ∨ _)) as [Hr|Hr]; [done|].
  destruct (get_input_types (payload dn) !! Z.to_nat slot) as [ty|] eqn:Hty; cycle 1.
  { exfalso. apply lookup_ge_None in Hty. lia. }
  destruct (decide (ty ≠ get_output_type (payload sn))) as [Hne|Heq%dec_stable]; [done|].
  exists sn, dn. split_and!; [done|done|lia|congruence].
Qed.

(** X3: [connect] returns normally exactly when none of its four
    preconditions is violated and the [connect] member of the destination
    returns normally; it never dereferences a null node. *)
Theorem connect_succeeds_iff src dst slot p :
  (connect src dst slot p).1 = Ok () ↔
  ¬ violates_node_id p src dst ∧ ¬ violates_slot_free p dst slot ∧
  ¬ violates_slot_range p dst slot ∧ ¬ violates_type p src dst slot ∧
  ∃ dn x, get_node p dst = Some dn ∧
          node_connect (view (nodes_ p)) (payload dn) (Some src) slot = Ok x.
Proof.
  unfold violates_node_id, violates_slot_free, violates_slot_range, violates_type,
    connect, get_node.
  destruct (nodes_ p !! src) as [sn|] eqn:Hs; cycle 1.
  { split; [done|]. intros (Hv & _). destruct Hv. by left. }
  destruct (nodes_ p !! dst) as [dn|] eqn:Hd; cycle 1.
  { split; [done|]. intros (Hv & _). destruct Hv. by right. }
  destruct (decide (slot ∈ (connections_ dn).*1)) as [Hin|Hfree].
  { split; [done|]. intros (_ & Hv & _). destruct Hv. eauto. }
  destruct (decide (slot < 0 ∨ _)) as [Hr|Hr].
  { split; [done|]. intros (_ & _ & Hv & _). destruct Hv. eauto. }
  destruct (get_input_types (payload dn) !! Z.to_nat slot) as [ty|] eqn:Hty; cycle 1.
  { exfalso. apply lookup_ge_None in Hty. lia. }
  destruct (decide (ty ≠ get_output_type (payload sn))) as [Hne|Heq%dec_stable].
  { split; [done|]. intros (_ & _ & _ & Hv & _). destruct Hv.
    exists sn, dn. split_and!; [done..|]. congruence. }
  destruct (node_connect _ _ _ _) as [x| |] eqn:Hc.
  - assert (is_Some (<[dst:=Node x (conn_emplace slot src (connections_ dn))
                              (dependencies_ dn)]> (nodes_ p) !! src)) as [s1 Hs1].
    { destruct (decide (dst = src)) as [->|].
      - rewrite lookup_insert_eq. eauto.
      - rewrite lookup_insert_ne, Hs by done. eauto. }
    rewrite Hs1. simpl. split; [intros _|done]. split_and!.
    + by intros [|].
    + intros (nd & [= <-] & ?). done.
    + intros (nd & [= <-] & ?). done.
    + intros (sn' & nd & [= <-] & [= <-] & Hv). congruence.
    + eauto.
  - split; [done|]. intros (_ & _ & _ & _ & dn' & x & [= <-] & Hx). congruence.
  - split; [done|]. intros (_ & _ & _ & _ & dn' & x & [= <-] & Hx). congruence.
Qed.

(** X4: what a successful [connect] changes: the slot is bound to [src] in
    [dst], the pair [(dst, slot)] is appended to the dependencies of [src],
    no other bookkeeping entry and no other user object changes, and the
    same call made again throws [slot_already_used]. In [dst] the
    entries of [connections_] are the new one and those it had, and its
    user object is the one its [connect] member returns; the counter is
    kept. *)
Theorem connect_effect src dst slot p p' :
  connect src dst slot p = (Ok (), p') →
  (∃ dn', get_node p' dst = Some dn' ∧ (slot, src) ∈ connections_ dn') ∧
  (∃ d, get_dependencies src p = Ok d ∧
        get_dependencies src p' = Ok (d ++ [(dst, slot)])) ∧
  (∀ k, k ≠ src → get_dependencies k p' = get_dependencies k p) ∧
  (∀ k, k ≠ dst → connections_ <$> get_node p' k = connections_ <$> get_node p k) ∧
  (∀ k, k ≠ dst → payload <$> get_node p' k = payload <$> get_node p k) ∧
  (connect src dst slot p').1 = Throw slot_already_used ∧
  (∃ dn dn', get_node p dst = Some dn ∧ get_node p' dst = Some dn' ∧
     (∀ s u, (s, u) ∈ connections_ dn' ↔
             (s, u) = (slot, src) ∨ (s, u) ∈ connections_ dn) ∧
     connections_ dn' ≡ₚ (slot, src) :: connections_ dn ∧
     (slot ∉ (connections_ dn).*1) ∧
     node_connect (view (nodes_ p)) (payload dn) (Some src) slot =
       Ok (payload dn')) ∧
  current_id p' = current_id p.
Proof.
  intros E.
  pose proof (connect_ok_inv _ _ _ _ _ E) as (sn & dn & x & Hs & Hd & Hfree & Hc & Hcur & Hl).
  unfold get_dependencies, get_node.
  assert (∃ dn', nodes_ p' !! dst = Some dn' ∧ (slot, src) ∈ connections_ dn' ∧
                 connections_ dn' = (slot, src) :: connections_ dn ∧
                 payload dn' = x)
    as (dn' & Hdn' & Hin & Hconn' & Hpay').
  { rewrite Hl, Hd. simpl. eexists. split; [done|]. simpl.
    rewrite !decide_True by done. split_and!; [by left|done..]. }
  split_and!.
  - eauto.
  - exists (dependencies_ sn). rewrite Hs, Hl, Hs. simpl.
    by rewrite (decide_True (P := src = src)).
  - intros k Hk. rewrite Hl. destruct (nodes_ p !! k); [|done]. simpl.
    by rewrite (decide_False (P := k = src)).
  - intros k Hk. rewrite Hl. destruct (nodes_ p !! k); [|done]. simpl.
    by rewrite (decide_False (P := k = dst)).
  - intros k Hk. rewrite Hl. destruct (nodes_ p !! k); [|done]. simpl.
    by rewrite (decide_False (P := k = dst)).
  - unfold connect, get_node. rewrite Hdn'.
    assert (is_Some (nodes_ p' !! src)) as [sn' ->].
    { rewrite Hl, Hs. simpl. eauto. }
    rewrite decide_True; [done|]. by apply (list_elem_of_fmap_2 fst) in Hin.
  - exists dn, dn'. split_and!; [done|done| | | |by rewrite Hpay'].
    + intros s u. rewrite Hconn', elem_of_cons. done.
    + by rewrite Hconn'.
    + done.
  - done.
Qed.

(** X5: in a pipeline whose filled slots all exist, [connect] into a node
    without input slots (a source) throws [no_such_slot] for live ids, so
    the [connect] member of a source is never reached. *)
Theorem connect_into_source src dst slot p sn dn :
  well_typed p →
  get_node p src = Some sn → get_node p dst = Some dn →
  get_input_types (payload dn) = [] →
  connect src dst slot p = (Throw no_such_slot, p).
Proof.
  intros Hwt Hs Hd Hnil. unfold connect. rewrite Hs, Hd.
  rewrite decide_False.
  - rewrite decide_True; [done|]. rewrite Hnil. simpl. lia.
  - intros [[s u] [Hsu Hin]]%list_elem_of_fmap. simpl in Hsu. subst s.
    destruct (Hwt _ _ _ _ Hd Hin) as (_ & u' & _ & Hty).
    by rewrite Hnil in Hty.
Qed.


Lemma pipeline_eta p : Pipeline (nodes_ p) (current_id p) = p.
Proof. by destruct p. Qed.

Lemma clear_slots_unbound src dst conns m :
  src ∉ conns.*2 → clear_slots src dst conns m = (Ok (), m).
Proof.
  induction conns as [|[s u] rest IH]; intros Hn; [done|]. simpl.
  rewrite decide_False.
  - apply IH. intros ?. apply Hn. by right.
  - intros ->. apply Hn. by left.
Qed.

(** X6: [disconnect] of two live nodes that are not connected changes
    nothing at all. *)
Theorem disconnect_not_connected src dst p sn dn :
  mirror p →
  get_node p src = Some sn → get_node p dst = Some dn →
  (∀ slot, (slot, src) ∉ connections_ dn) →
  disconnect src dst p = (Ok (), p).
Proof.
  intros (_ & _ & Hbw) Hs Hd Hnc. unfold disconnect. rewrite Hs, Hd.
  unfold get_node in *.
  rewrite clear_slots_unbound; cycle 1.
  { intros [[s u] [Hu Hin]]%list_elem_of_fmap. simpl in Hu. subst u.
    by apply (Hnc s). }
  rewrite !alter_id; [by rewrite pipeline_eta| |].
  - intros nd Hnd. rewrite Hd in Hnd. injection Hnd as <-.
    unfold set_connections, conn_erase_src.
    rewrite filter_all; [by destruct dn|].
    intros [s u] Hin. simpl. intros ->. by apply (Hnc s).
  - intros nd Hnd.
    assert (dependencies_ nd = dependencies_ sn) as Hdeps.
    { rewrite lookup_alter in Hnd. destruct (decide (dst = src)) as [->|].
      - rewrite Hs in Hnd. by simplify_eq/=.
      - congruence. }
    unfold set_dependencies, dep_erase. rewrite filter_all; [by destruct nd|].
    intros [d s] Hin. simpl. intros ->. rewrite Hdeps in Hin.
    destruct (Hbw _ _ _ _ Hs Hin) as (dn' & Hdn' & Hin'). simplify_eq.
    by apply (Hnc s).
Qed.

Lemma disconnect_connections src dst p p' :
  disconnect src dst p = (Ok (), p') →
  ∀ k, connections_ <$> nodes_ p' !! k =
       (λ nd, if decide (k = dst) then conn_erase_src src (connections_ nd)
              else connections_ nd) <$> nodes_ p !! k.
Proof.
  intros E. pose proof (disconnect_graph _ _ _ _ E) as Hg. unfold graph in Hg.
  intros k. specialize (Hg k).
  destruct (nodes_ p' !! k), (nodes_ p !! k); simplify_eq/=; [|done].
  by f_equal.
Qed.

(** X7: after a successful [disconnect] no slot of [dst] is bound to [src]
    and no dependency of [src] names [dst]; the slots of [dst] bound to
    other nodes, the dependencies of [src] on other nodes and the
    bookkeeping of every other node are kept. *)
Theorem disconnect_effect src dst p p' :
  disconnect src dst p = (Ok (), p') →
  (∀ k, connections_ <$> get_node p' k =
        (λ nd, if decide (k = dst) then conn_erase_src src (connections_ nd)
               else connections_ nd) <$> get_node p k) ∧
  (∀ k, dependencies_ <$> get_node p' k =
        (λ nd, if decide (k = src) then dep_erase dst (dependencies_ nd)
               else dependencies_ nd) <$> get_node p k) ∧
  (∀ dn' slot, get_node p' dst = Some dn' → (slot, src) ∉ connections_ dn') ∧
  (∀ sn' slot, get_node p' src = Some sn' → (dst, slot) ∉ dependencies_ sn').
Proof.
  intros E. pose proof (disconnect_graph _ _ _ _ E) as Hg. unfold graph in Hg.
  unfold get_node.
  pose proof (disconnect_connections _ _ _ _ E) as Hc.
  assert (∀ k, dependencies_ <$> nodes_ p' !! k =
               (λ nd, if decide (k = src) then dep_erase dst (dependencies_ nd)
                      else dependencies_ nd) <$> nodes_ p !! k) as Hd.
  { intros k. specialize (Hg k).
    destruct (nodes_ p' !! k), (nodes_ p !! k); simplify_eq/=; [|done].
    by f_equal. }
  split_and!; [done|done|..].
  - intros dn' slot Hdn' Hin. specialize (Hc dst). rewrite Hdn' in Hc.
    destruct (nodes_ p !! dst); simplify_eq/=.
    rewrite decide_True in Hc by done. rewrite Hc in Hin.
    by apply list_elem_of_filter in Hin as [? _].
  - intros sn' slot Hsn' Hin. specialize (Hd src). rewrite Hsn' in Hd.
    destruct (nodes_ p !! src); simplify_eq/=.
    rewrite decide_True in Hd by done. rewrite Hd in Hin.
    by apply list_elem_of_filter in Hin as [? _].
Qed.


Lemma filter_ext_in {A} (P Q : A → Prop) `{!∀ x, Decision (P x), !∀ x, Decision (Q x)}
    (l : list A) :
  (∀ x, x ∈ l → (P x ↔ Q x)) → filter P l = filter Q l.
Proof.
  induction l as [|a l IH]; intros Hext; [done|].
  assert (filter P l = filter Q l) as Hl
    by (apply IH; intros x Hx; apply Hext; by right).
  destruct (decide (P a)) as [Hp|Hp].
  - rewrite !filter_cons_True, Hl; [done| |done]. apply Hext; [by left|done].
  - rewrite !filter_cons_False, Hl; [done| |done].
    intros Hq. apply Hp, Hext; [by left|done].
Qed.

Lemma erase_upstream_total n conns m :
  (∀ su, su ∈ conns → is_Some (m !! su.2)) →
  is_Some (erase_upstream n conns m).
Proof.
  revert m. induction conns as [|[s u] rest IH]; intros m Hlive; simpl; [eauto|].
  destruct (Hlive (s, u)) as [nd Hnd]; [by left|]. simpl in Hnd. rewrite Hnd.
  apply IH. intros su Hsu.
  destruct (decide (u = su.2)) as [->|Hne].
  - rewrite lookup_insert_eq. eauto.
  - rewrite lookup_insert_ne by done. apply Hlive. by right.
Qed.

Lemma erase_downstream_total deps m :
  (∀ ds, ds ∈ deps → is_Some (m !! ds.1)) →
  is_Some (erase_downstream deps m).
Proof.
  revert m. induction deps as [|[d s] rest IH]; intros m Hlive; simpl; [eauto|].
  destruct (Hlive (d, s)) as [nd Hnd]; [by left|]. simpl in Hnd. rewrite Hnd.
  apply IH. intros ds Hds.
  destruct (decide (d = ds.1)) as [->|Hne].
  - rewrite lookup_insert_eq. eauto.
  - rewrite lookup_insert_ne by done. apply Hlive. by right.
Qed.

Lemma erase_node_returns id p :
  mirror p → is_Some (get_node p id) → ∃ p', erase_node id p = (Ok (), p').
Proof.
  intros Hm [nd Hnd]. pose proof Hm as (Hkeys & Hfw & Hbw). unfold get_node in *.
  unfold erase_node, get_node. rewrite Hnd.
  destruct (erase_upstream_total id (connections_ nd) (nodes_ p)) as [m1 H1].
  { intros [s u] Hin. destruct (Hfw _ _ _ _ Hnd Hin) as (? & Hu & _).
    simpl. eauto. }
  rewrite H1. pose proof (erase_upstream_lookup _ _ _ _ H1) as Hl1.
  rewrite (Hl1 id), Hnd. simpl.
  destruct (erase_downstream_total
              (dependencies_
                 (if decide (id ∈ (connections_ nd).*2)
                  then set_dependencies (dep_erase id (dependencies_ nd)) nd
                  else nd)) m1) as [m2 ->]; [|eauto].
  intros [d s] Hin. rewrite Hl1.
  assert ((d, s) ∈ dependencies_ nd) as Hin'.
  { destruct (decide (id ∈ (connections_ nd).*2)); [|done].
    simpl in Hin. by apply list_elem_of_filter in Hin as [_ ?]. }
  destruct (Hbw _ _ _ _ Hnd Hin') as (dn & Hdn & _). simpl. rewrite Hdn.
  simpl. eauto.
Qed.

Lemma erase_node_others id p p' :
  mirror p → erase_node id p = (Ok (), p') →
  ∀ k, k ≠ id →
       nodes_ p' !! k =
       (λ nd, Node (payload nd) (conn_erase_src id (connections_ nd))
                   (dep_erase id (dependencies_ nd))) <$> nodes_ p !! k.
Proof.
  intros Hm E. pose proof Hm as (Hkeys & Hfw & Hbw).
  apply erase_node_lookup in E as (nd & Hnd & Hcur & Hl).
  intros k Hk. rewrite Hl, decide_False by done.
  destruct (nodes_ p !! k) as [ndk|] eqn:Hndk; [|done]. simpl. f_equal. f_equal.
  - apply filter_ext_in. intros [s u] Hin. simpl. split.
    + intros Hout ->. apply Hout.
      destruct (Hfw _ _ _ _ Hndk Hin) as (u' & Hu' & Hocc). simplify_eq.
      assert ((k, s) ∈ dependencies_ nd) by (apply occurrences_present; lia).
      destruct (decide (id ∈ (connections_ nd).*2)); [|done].
      by apply list_elem_of_filter.
    + intros Hu Hdep. apply Hu.
      assert ((k, s) ∈ dependencies_ nd) as Hdep'.
      { destruct (decide (id ∈ (connections_ nd).*2)); [|done].
        by apply list_elem_of_filter in Hdep as [_ ?]. }
      destruct (Hbw _ _ _ _ Hnd Hdep') as (dn & Hdn & Hin'). simplify_eq.
      eapply keys_functional; eauto.
  - destruct (decide (k ∈ (connections_ nd).*2)) as [|Hnin]; [done|].
    unfold dep_erase. symmetry. apply filter_all. intros [d s] Hin. simpl. intros ->.
    destruct (Hbw _ _ _ _ Hndk Hin) as (dn & Hdn & Hin'). simplify_eq.
    apply Hnin. by apply (list_elem_of_fmap_2 snd) in Hin'.
Qed.

(** X8: in a pipeline that satisfies the mirror invariant [erase_node] of a
    live id returns normally (no null node is dereferenced); the id is
    then unknown, and every other node keeps its user object and loses
    exactly the connections and dependencies that name the erased id. *)
Theorem erase_node_effect id p :
  mirror p → is_Some (get_node p id) →
  ∃ p', erase_node id p = (Ok (), p') ∧
        get_node p' id = None ∧
        current_id p' = current_id p ∧
        ∀ k, k ≠ id →
             get_node p' k =
             (λ nd, Node (payload nd) (conn_erase_src id (connections_ nd))
                         (dep_erase id (dependencies_ nd))) <$> get_node p k.
Proof.
  intros Hm Hlive. destruct (erase_node_returns id p Hm Hlive) as [p' E].
  exists p'. split; [done|]. unfold get_node.
  pose proof (erase_node_others id p p' Hm E) as Hothers.
  apply erase_node_lookup in E as (nd & Hnd & Hcur & Hl).
  split_and!.
  - by rewrite Hl, decide_True.
  - done.
  - exact Hothers.
Qed.


Lemma well_typed_mono p p' :
  well_typed p →
  (∀ k nd' e, nodes_ p' !! k = Some nd' → e ∈ connections_ nd' →
     ∃ nd, nodes_ p !! k = Some nd ∧
           get_input_types (payload nd') = get_input_types (payload nd) ∧
           e ∈ connections_ nd ∧
           ∀ u, nodes_ p !! e.2 = Some u →
                ∃ u', nodes_ p' !! e.2 = Some u' ∧
                      get_output_type (payload u') = get_output_type (payload u)) →
  well_typed p'.
Proof.
  intros Hwt Hsub n nd' slot up Hn Hin.
  destruct (Hsub _ _ _ Hn Hin) as (nd & Hnd & Hty & Hin' & Hup).
  destruct (Hwt _ _ _ _ Hnd Hin') as (Hslot & u & Hu & Htok).
  split; [done|]. destruct (Hup _ Hu) as (u' & Hu' & Hout).
  exists u'. split; [done|]. by rewrite Hty, Hout.
Qed.

Lemma clear_slots_tokens src dst conns m m' :
  tokens_fixed →
  clear_slots src dst conns m = (Ok (), m') →
  ∀ k, (λ nd, (get_input_types (payload nd), get_output_type (payload nd))) <$> m' !! k =
       (λ nd, (get_input_types (payload nd), get_output_type (payload nd))) <$> m !! k.
Proof.
  intros Hfix. revert m. induction conns as [|[slot by_] rest IH]; intros m E k;
    simpl in E.
  - by simplify_eq.
  - destruct (decide (src = by_)); [|by eauto].
    destruct (m !! dst) as [nd|] eqn:Hd; [|done].
    destruct (node_connect _ _ _ _) as [x| |] eqn:Hc; [|done..].
    rewrite (IH _ E k). destruct (decide (dst = k)) as [->|Hne].
    + rewrite lookup_insert_eq, Hd. simpl.
      destruct (Hfix _ _ _ _ _ Hc) as [-> ->]. done.
    + by rewrite lookup_insert_ne.
Qed.

Lemma edited_well_typed p p' :
  tokens_fixed → mirror p → well_typed p → edited p p' → well_typed p'.
Proof.
  intros Hfix.
  - intros Hm Hwt Hed.
    destruct Hed as [n p|src dst slot p p' E|src dst p p' E|id p p' E].
    + apply (well_typed_mono p); [done|].
      intros k nd' e Hk He. unfold create_node, map_emplace in *. simpl in *.
      destruct (nodes_ p !! current_id p) eqn:Hc.
      * exists nd'. split_and!; [done..|]. eauto.
      * destruct (decide (current_id p = k)) as [<-|Hne].
        { rewrite lookup_insert_eq in Hk. simplify_eq. by apply elem_of_nil in He. }
        rewrite lookup_insert_ne in Hk by done.
        exists nd'. split_and!; [done..|]. intros u Hu.
        exists u. split; [|done]. rewrite lookup_insert_ne; [done|]. congruence.
    + pose proof (connect_ok_typed _ _ _ _ _ E) as (sn0 & dn0 & Hs0 & Hd0 & Hrange & Htype).
      apply connect_ok_inv in E as (sn & dn & x & Hs & Hd & Hfree & Hc & _ & Hl).
      destruct (Hfix _ _ _ _ _ Hc) as [Hin Hout].
      assert (∀ k u, nodes_ p !! k = Some u →
                ∃ u', nodes_ p' !! k = Some u' ∧
                      get_input_types (payload u') = get_input_types (payload u) ∧
                      get_output_type (payload u') = get_output_type (payload u))
        as Hkeep.
      { intros k u Hu. rewrite Hl, Hu. simpl. eexists. split; [done|]. simpl.
        destruct (decide (k = dst)) as [->|]; [|done]. by simplify_eq. }
      intros n nd' s up Hn Hsu. rewrite Hl in Hn.
      destruct (nodes_ p !! n) as [nd|] eqn:Hnd; simplify_eq/=.
      assert (get_input_types (if decide (n = dst) then x else payload nd) =
              get_input_types (payload nd)) as ->.
      { destruct (decide (n = dst)) as [->|]; [|done]. by simplify_eq. }
      assert (((s, up) = (slot, src) ∧ n = dst) ∨ (s, up) ∈ connections_ nd)
        as [[? ->]|Hold].
      { destruct (decide (n = dst)); [|by right].
        apply elem_of_cons in Hsu as [?|?]; auto. }
      * assert (nd = dn) as -> by congruence.
        assert (s = slot ∧ up = src) as [-> ->] by (by simplify_eq). clear Hsu.
        split; [done|].
        destruct (Hkeep _ _ Hs) as (u' & Hu' & _ & Hout'). exists u'.
        split; [done|]. rewrite Hout'. congruence.
      * destruct (Hwt _ _ _ _ Hnd Hold) as (Hslot & u & Hu & Htok).
        split; [done|]. destruct (Hkeep _ _ Hu) as (u' & Hu' & _ & Hout').
        exists u'. split; [done|]. by rewrite Hout'.
    + pose proof (disconnect_connections _ _ _ _ E) as Hc.
      apply disconnect_ok_inv in E as (sn & dn & m & Hs & Hd & Hcl & ->).
      pose proof (clear_slots_tokens _ _ _ _ _ Hfix Hcl) as Htok. simpl in *.
      unfold get_node in *. simpl in Hc.
      assert (∀ k, (λ nd, (get_input_types (payload nd), get_output_type (payload nd)))
                     <$> alter (λ nd, set_dependencies (dep_erase dst (dependencies_ nd)) nd)
                           src (alter (λ nd, set_connections
                                               (conn_erase_src src (connections_ nd)) nd)
                                  dst m) !! k =
                   (λ nd, (get_input_types (payload nd), get_output_type (payload nd)))
                     <$> nodes_ p !! k) as Htok'.
      { intros k. rewrite <- Htok.
        destruct (decide (src = k)) as [->|Hsk], (decide (dst = k)) as [->|Hdk];
          repeat first [rewrite lookup_alter_eq | rewrite lookup_alter_ne by done];
          destruct (m !! k) as [[]|]; done. }
      apply (well_typed_mono p); [done|]. simpl.
      intros k nd' e Hk He. specialize (Hc k). specialize (Htok' k) as Hk'.
      rewrite Hk in Hc, Hk'.
      destruct (nodes_ p !! k) as [nd|] eqn:Hnd; simplify_eq/=.
      exists nd. split_and!; [done|congruence| |].
      * rewrite Hc in He. destruct (decide (k = dst)); [|done].
        by apply list_elem_of_filter in He as [_ ?].
      * intros u Hu. specialize (Htok' e.2). rewrite Hu in Htok'.
        destruct (alter _ src _ !! e.2) as [u'|]; simplify_eq/=.
        exists u'. split; [done|]. congruence.
    + pose proof (erase_node_others id p p' Hm E) as Hl.
      assert (nodes_ p' !! id = None) as Hgone.
      { apply erase_node_lookup in E as (nd & Hnd & _ & Hl'). by rewrite Hl', decide_True. }
      apply (well_typed_mono p); [done|].
      intros k nd' e Hk He.
      assert (k ≠ id) as Hne by (intros ->; congruence).
      rewrite Hl in Hk by done.
      destruct (nodes_ p !! k) as [nd|] eqn:Hnd; simplify_eq/=.
      apply list_elem_of_filter in He as [Heid He].
      exists nd. split_and!; [done..|].
      intros u Hu. rewrite Hl, Hu by done. simpl. eauto.
Qed.

(** X9: every pipeline built by the registry functions from the empty
    one is well typed, whatever the node classes are, as long as their
    [connect] members leave the type tokens alone: each entry of a
    [connections_] map names a slot that exists and a live node whose
    output token is the token of that slot. *)
Theorem built_well_typed p n nd slot up :
  tokens_fixed →
  rtc edited (empty_pipeline (N := N)) p →
  get_node p n = Some nd → (slot, up) ∈ connections_ nd →
  0 ≤ slot < Z.of_nat (length (get_input_types (payload nd))) ∧
  ∃ u, get_node p up = Some u ∧
       get_input_types (payload nd) !! Z.to_nat slot =
         Some (get_output_type (payload u)).
Proof.
  intros Hfix Hb Hn Hin.
  assert (mirror p ∧ well_typed p) as [_ Hwt].
  { clear Hn Hin.
    eapply (rtc_ind_r (λ q, mirror q ∧ well_typed q)); [| |exact Hb].
    - split; [apply mirror_empty|].
      intros k x s u Hk. unfold empty_pipeline in Hk. simpl in Hk.
      by rewrite lookup_empty in Hk.
    - intros p1 p2 _ Hstep [Hm Hwt]. split; [|by eapply edited_well_typed].
      destruct Hstep as [x q|src dst s q q' E|src dst q q' E|id q q' E].
      + by apply create_node_mirror.
      + by eapply connect_mirror.
      + by eapply disconnect_mirror.
      + by eapply erase_node_mirror. }
  destruct (Hwt _ _ _ _ Hn Hin) as (Hslot & u & Hu & Hty).
  split; [|eauto]. apply lookup_lt_Some in Hty. lia.
Qed.


(** X10: the messages of the four error kinds are pairwise different. *)
Theorem what_injective k1 k2 : what k1 = what k2 → k1 = k2.
Proof. destruct k1, k2; simpl; intros [=]; reflexivity. Qed.

End RegistryExtras.

(** ** More of the scheduler *)

Section SchedulerExtras.
Context {N : Type} `{!NodeImpl N}.
Implicit Types (t : tick N) (p : pipeline N).

Lemma tick_frame_refl t : tick_frame t t.
Proof. split_and!; [done| |done]. exists []. by rewrite app_nil_r. Qed.

Lemma tick_frame_trans t1 t2 t3 :
  tick_frame t1 t2 → tick_frame t2 t3 → tick_frame t1 t3.
Proof.
  intros (Hg1 & [d1 Hd1] & Hh1) (Hg2 & [d2 Hd2] & Hh2). split_and!.
  - intros k. by rewrite Hg2.
  - exists (d1 ++ d2). by rewrite Hd2, Hd1, app_assoc.
  - intros k Hk. rewrite Hh2 by done. apply Hh1.
    intros Hin. apply Hk. rewrite Hd2. apply elem_of_app. by left.
Qed.

Lemma polling_frame fuel src t r t' :
  polling fuel src t = Some (r, t') → tick_frame t t'.
Proof.
  revert src t r t'. induction fuel as [|f IH]; intros src t r t' E; [done|].
  simpl in E.
  destruct (visited t !! src) as [r0|] eqn:Hv.
  { simplify_eq. apply tick_frame_refl. }
  destruct (heap t !! src) as [nd|] eqn:Hnd; [|done].
  destruct (poll_upstreams (polling f) (connections_ nd) t) as [[o t1]|] eqn:Hl; [|done].
  assert (tick_frame t t1) as Hfr.
  { eapply (poll_upstreams_keeps tick_frame);
      [apply tick_frame_refl | apply tick_frame_trans | | exact Hl].
    intros u t0 r1 t2 Hu. by eapply IH. }
  eapply tick_frame_trans; [exact Hfr|]. destruct o as [r1|].
  - simplify_eq. split_and!; cbn [memoize heap polled]; [done| |done].
    exists []. by rewrite app_nil_r.
  - apply poll_node_inv in E as (nd1 & x & Hnd1 & Hp & ->). split_and!; cbn [heap polled].
    + intros k. unfold graph. destruct (decide (src = k)) as [->|Hne].
      * by rewrite lookup_insert_eq, Hnd1.
      * by rewrite lookup_insert_ne.
    + eauto.
    + intros k Hk. rewrite lookup_insert_ne; [done|].
      intros ->. apply Hk. apply elem_of_app. right. by left.
Qed.

(** X11: a tick changes no bookkeeping: [step] leaves the counter, the set of
    ids, every [connections_] and every [dependencies_] as they are (so
    the mirror invariant is kept), and the user object of every node that
    was not polled in the tick is the same as before. *)
Theorem step_keeps_graph fuel p b t :
  step_tick fuel p = Some (b, t) →
  (∀ k, graph (heap t) k = graph (nodes_ p) k) ∧
  (∀ k, k ∉ polled t → heap t !! k = nodes_ p !! k) ∧
  (mirror p → mirror (Pipeline (heap t) (current_id p))) ∧
  step fuel p = Some (b, Pipeline (heap t) (current_id p)).
Proof.
  intros E. unfold step. rewrite E.
  assert (tick_frame (Tick (nodes_ p) ∅ []) t) as (Hg & _ & Hh).
  { unfold step_tick in E.
    eapply (poll_sinks_keeps tick_frame);
      [apply tick_frame_refl | apply tick_frame_trans | | exact E].
    intros u t0 r t1 Hu. by eapply polling_frame. }
  split_and!; [done|done| |done].
  rewrite !mirror_iff_graph. simpl. intros (H1 & H2 & H3).
  split_and!; intros *; rewrite ?Hg; eauto.
Qed.

(** *** The memo of a tick *)

Lemma poll_upstreams_outcome f conns t o t' :
  poll_upstreams (polling f) conns t = Some (o, t') →
  tick_ext t t' ∧
  match o with
  | None => ∀ su, su ∈ conns → visited t' !! su.2 = Some ready
  | Some r => r ≠ ready ∧ ∃ su, su ∈ conns ∧ visited t' !! su.2 = Some r
  end.
Proof.
  revert t. induction conns as [|[slot u] rest IH]; intros t E; simpl in E.
  - simplify_eq. split; [apply tick_ext_refl|]. intros su Hsu. by apply elem_of_nil in Hsu.
  - destruct (polling f u t) as [[r t1]|] eqn:Hu; [|done].
    apply polling_ext in Hu as [Hext Hr].
    destruct r.
    + apply IH in E as [Hext' Ho]. split; [by eapply tick_ext_trans|].
      destruct o as [r|].
      * destruct Ho as (Hne & su & Hin & Hsu). split; [done|].
        exists su. split; [by right|done].
      * intros su [->|Hin]%elem_of_cons; [|by apply Ho].
        by apply Hext'.
    + simplify_eq. split; [done|]. split; [done|].
      exists (slot, u). split; [by left|done].
    + simplify_eq. split; [done|]. split; [done|].
      exists (slot, u). split; [by left|done].
Qed.

Lemma justified_ext t t' :
  justified t → polled_more t t' →
  ∀ n r, visited t !! n = Some r →
    ∃ nd, heap t' !! n = Some nd ∧
      ((n ∈ polled t' ∧
        (∀ su, su ∈ connections_ nd → visited t' !! su.2 = Some ready)) ∨
       ((n ∉ polled t') ∧ r ≠ ready ∧
        ∃ su, su ∈ connections_ nd ∧ visited t' !! su.2 = Some r)).
Proof.
  intros Hj [(Hv & Hc & _) (delta & Hd & Hx)] n r Hn.
  destruct (Hj n r Hn) as (nd & Hnd & Hcase).
  pose proof (Hc n) as Hcn. rewrite Hnd in Hcn.
  destruct (heap t' !! n) as [nd'|] eqn:Hnd'; [|done].
  simpl in Hcn. injection Hcn as Hcn. exists nd'. split; [done|]. rewrite Hcn.
  destruct Hcase as [[Hp Hall]|(Hnp & Hne & su & Hin & Hsu)].
  - left. split; [rewrite Hd; apply elem_of_app; by left|]. intros su Hsu. by apply Hv, Hall.
  - right. split_and!; [|done|eauto].
    rewrite Hd. intros [?|Hin']%elem_of_app; [done|].
    destruct (Hx n Hin') as [? _]. congruence.
Qed.

Lemma polling_justified fuel src t r t' :
  polling fuel src t = Some (r, t') →
  polled_once t → justified t → justified t'.
Proof.
  revert src t r t'. induction fuel as [|f IH]; intros src t r t' E Hpo Hj; [done|].
  pose proof (polling_polled_more _ _ _ _ _ E) as Hmore.
  simpl in E.
  destruct (visited t !! src) as [r0|] eqn:Hv.
  { by simplify_eq. }
  destruct (heap t !! src) as [nd|] eqn:Hnd; [|done].
  destruct (poll_upstreams (polling f) (connections_ nd) t) as [[o t1]|] eqn:Hl; [|done].
  pose proof (poll_upstreams_self _ _ _ _ _ _ Hv Hnd Hl) as Hv1.
  pose proof (poll_upstreams_outcome _ _ _ _ _ Hl) as [(Hvm & Hc1 & _) Ho].
  assert (polled_once t1) as Hpo1.
  { revert Hpo.
    eapply (poll_upstreams_keeps (λ a b, polled_once a → polled_once b));
      [done | by auto | | exact Hl].
    intros u t0 r1 t2 Hu. by eapply polling_polled_once. }
  pose proof (Hc1 src) as Hcs. rewrite Hnd in Hcs.
  destruct (heap t1 !! src) as [nd1|] eqn:Hnd1; [|done].
  simpl in Hcs. injection Hcs as Hcs.
  intros n r' Hn.
  destruct (visited t !! n) as [r0|] eqn:Hvn.
  { pose proof (justified_ext _ _ Hj Hmore n r0 Hvn) as Hres.
    assert (r' = r0) as ->; [|done].
    destruct Hmore as [(Hv' & _) _]. apply Hv' in Hvn. congruence. }
  destruct (decide (n = src)) as [->|Hne].
  - destruct o as [r1|].
    + simplify_eq. cbn [memoize visited heap polled] in *.
      rewrite lookup_insert_eq in Hn. simplify_eq.
      exists nd1. split; [done|]. right. destruct Ho as (Hne & su & Hin & Hsu).
      split_and!; [|done|].
      * intros Hin'. destruct Hpo1 as [_ Hvis]. destruct (Hvis _ Hin') as [? ?]. congruence.
      * exists su. split; [by rewrite Hcs|].
        destruct (decide (src = su.2)) as [Heq|Hne'].
        -- rewrite <- Heq in Hsu. congruence.
        -- by rewrite lookup_insert_ne.
    + apply poll_node_inv in E as (nd2 & x & Hnd2 & Hp & ->).
      cbn [visited heap polled] in *. rewrite lookup_insert_eq in Hn. simplify_eq.
      rewrite lookup_insert_eq. eexists. split; [done|]. left.
      split; [apply elem_of_app; right; by left|].
      simpl. rewrite Hcs. intros su Hsu.
      destruct (decide (src = su.2)) as [Heq|Hne'].
      * apply Ho in Hsu. rewrite <- Heq in Hsu. congruence.
      * rewrite lookup_insert_ne by done. by apply Ho.
  - assert (∃ t0, polled_more t0 t' ∧ justified t0 ∧ visited t0 !! n = Some r') as
      (t0 & Hm0 & Hj0 & Hn0).
    2:{ eapply justified_ext; eauto. }
    exists t1.
    assert (visited t1 !! n = Some r') as Hn1.
    { destruct o as [r1|].
      - simplify_eq. cbn [memoize visited] in Hn. by rewrite lookup_insert_ne in Hn.
      - apply poll_node_inv in E as (nd2 & x & Hnd2 & Hp & ->).
        cbn [visited] in Hn. by rewrite lookup_insert_ne in Hn. }
    split_and!; [| |done].
    + destruct o as [r1|].
      * simplify_eq. split; [by apply tick_ext_memoize|].
        exists []. cbn [memoize polled]. split; [by rewrite app_nil_r|].
        intros y Hy. by apply elem_of_nil in Hy.
      * split; [by eapply tick_ext_poll_node|].
        apply poll_node_inv in E as (nd2 & x & Hnd2 & Hp & ->). cbn [polled visited].
        exists [src]. split; [done|]. intros y ->%list_elem_of_singleton.
        split; [done|]. rewrite lookup_insert_eq. eauto.
    + revert Hpo Hj.
      enough (polled_once t → justified t → polled_once t1 ∧ justified t1) by tauto.
      eapply (poll_upstreams_keeps
                (λ a b, polled_once a → justified a → polled_once b ∧ justified b));
        [done | | | exact Hl].
      * intros t00 t01 t02 H01 H12 Hp0 Hj00.
        destruct (H01 Hp0 Hj00). by apply H12.
      * intros u t00 r1 t01 Hu Hp0 Hj00. split.
        -- by eapply polling_polled_once.
        -- by eapply IH.
Qed.

(** X12: at the end of a tick every memo entry is accounted for. A node
    with an entry was polled exactly when the entries of all its upstreams
    are [ready]; otherwise its entry is [empty] or [closed] and is the
    entry of one of its upstreams. In particular a sink that is [ready]
    sits on top of upstreams that are all [ready]. *)
Theorem tick_memo_justified fuel p b t n r :
  step_tick fuel p = Some (b, t) →
  visited t !! n = Some r →
  ∃ nd, heap t !! n = Some nd ∧
    (n ∈ polled t ↔
       ∀ su, su ∈ connections_ nd → visited t !! su.2 = Some ready) ∧
    (n ∉ polled t →
       r ≠ ready ∧ ∃ su, su ∈ connections_ nd ∧ visited t !! su.2 = Some r).
Proof.
  intros E Hn.
  assert (polled_once t ∧ justified t) as [_ Hj].
  { unfold step_tick in E.
    enough (polled_once (Tick (nodes_ p) ∅ []) → justified (Tick (nodes_ p) ∅ []) →
            polled_once t ∧ justified t) as Hgo.
    { apply Hgo.
      - split; [constructor|]. intros x Hx. by apply elem_of_nil in Hx.
      - intros k r0 Hk. simpl in Hk. by rewrite lookup_empty in Hk. }
    eapply (poll_sinks_keeps
              (λ a b, polled_once a → justified a → polled_once b ∧ justified b));
      [done | | | exact E].
    - intros t00 t01 t02 H01 H12 Hp0 Hj00.
      destruct (H01 Hp0 Hj00). by apply H12.
    - intros u t00 r1 t01 Hu Hp0 Hj00. split.
      + by eapply polling_polled_once.
      + by eapply polling_justified. }
  destruct (Hj n r Hn) as (nd & Hnd & Hcase). exists nd. split; [done|].
  destruct Hcase as [[Hp Hall]|(Hnp & Hne & su & Hin & Hsu)].
  - split; [done|]. intros Hnp. done.
  - split; [|eauto]. split; [done|]. intros Hall.
    apply Hall in Hin. congruence.
Qed.

(** *** Only demanded nodes are polled *)

Lemma poll_upstreams_reach p f src nd0 :
  nodes_ p !! src = Some nd0 →
  (∀ u t r t', same_graph (nodes_ p) t → polling f u t = Some (r, t') →
     ∀ x, x ∈ polled t' → x ∈ polled t ∨ rtc (plugged p) u x) →
  ∀ conns t o t',
    (∀ su, su ∈ conns → su ∈ connections_ nd0) →
    same_graph (nodes_ p) t →
    poll_upstreams (polling f) conns t = Some (o, t') →
    ∀ x, x ∈ polled t' → x ∈ polled t ∨ rtc (plugged p) src x.
Proof.
  intros Hnd0 Hrec conns. induction conns as [|[slot u] rest IH];
    intros t o t' Hsub Hs E x Hx; simpl in E.
  - simplify_eq. by left.
  - destruct (polling f u t) as [[r t1]|] eqn:Hu; [|done].
    assert (plugged p src u) as Hpl.
    { exists nd0, slot. split; [done|]. apply Hsub. by left. }
    assert (∀ y, y ∈ polled t1 → y ∈ polled t ∨ rtc (plugged p) src y) as H1.
    { intros y Hy. destruct (Hrec _ _ _ _ Hs Hu y Hy) as [?|Hr]; [by left|].
      right. by eapply rtc_l. }
    destruct r; simplify_eq; [|by apply H1..].
    destruct (IH t1 o t') with (x := x) as [Hx1|Hx1]; [| |done|done| |by right].
    + intros su Hsu. apply Hsub. by right.
    + eapply same_graph_ext; [exact Hs|]. by apply polling_ext in Hu as [? _].
    + by apply H1.
Qed.

Lemma polling_reach p fuel : ∀ src t r t',
  same_graph (nodes_ p) t → polling fuel src t = Some (r, t') →
  ∀ x, x ∈ polled t' → x ∈ polled t ∨ rtc (plugged p) src x.
Proof.
  induction fuel as [|f IH]; intros src t r t' Hs E x Hx; [done|].
  simpl in E.
  destruct (visited t !! src) as [r0|] eqn:Hv.
  { simplify_eq. by left. }
  destruct (heap t !! src) as [nd|] eqn:Hnd; [|done].
  destruct (poll_upstreams (polling f) (connections_ nd) t) as [[o t1]|] eqn:Hl; [|done].
  assert (∃ nd0, nodes_ p !! src = Some nd0 ∧ connections_ nd0 = connections_ nd)
    as (nd0 & Hnd0 & Hconn).
  { specialize (Hs src). rewrite Hnd in Hs.
    destruct (nodes_ p !! src) as [nd0|]; [|done]. exists nd0. split; [done|].
    simpl in Hs. congruence. }
  assert (∀ y, y ∈ polled t1 → y ∈ polled t ∨ rtc (plugged p) src y) as H1.
  { eapply (poll_upstreams_reach p f src nd0 Hnd0 IH); [|done|exact Hl].
    intros su Hsu. by rewrite Hconn. }
  destruct o as [r1|].
  - simplify_eq. by apply H1.
  - apply poll_node_inv in E as (nd1 & y & Hnd1 & Hp & ->). cbn [polled] in Hx.
    apply elem_of_app in Hx as [Hx| ->%list_elem_of_singleton]; [by apply H1|].
    by right.
Qed.

Lemma poll_sinks_reach p fuel ids : ∀ b t b' t',
  tick_ext (Tick (nodes_ p) ∅ []) t →
  poll_sinks fuel ids b t = Some (b', t') →
  ∀ x, x ∈ polled t' → x ∈ polled t ∨ demanded p x.
Proof.
  induction ids as [|id rest IH]; intros b t b' t' Hext E x Hx; simpl in E.
  { simplify_eq. by left. }
  destruct (heap t !! id) as [nd|] eqn:Hnd; [|done].
  destruct (decide (get_output_type (payload nd) = ty_void)) as [Hv|Hv]; [|by eauto].
  destruct (polling fuel id t) as [[r t1]|] eqn:Hu; [|done].
  assert (same_graph (nodes_ p) t) as Hs.
  { intros k. destruct Hext as (_ & Hc & _). apply Hc. }
  assert (∃ nd0, nodes_ p !! id = Some nd0 ∧ get_output_type (payload nd0) = ty_void)
    as (nd0 & Hnd0 & Hv0).
  { destruct Hext as (_ & _ & Ht). specialize (Ht id). cbn [heap] in Ht.
    rewrite Hnd in Ht. destruct (nodes_ p !! id) as [nd0|]; [|done].
    exists nd0. split; [done|]. simpl in Ht. congruence. }
  assert (tick_ext (Tick (nodes_ p) ∅ []) t1) as Hext1.
  { eapply tick_ext_trans; [exact Hext|]. by apply polling_ext in Hu as [? _]. }
  destruct (IH _ _ _ _ Hext1 E x Hx) as [Hx1|Hx1]; [|by right].
  destruct (polling_reach p _ _ _ _ _ Hs Hu x Hx1) as [?|Hr]; [by left|].
  right. exists id, nd0. done.
Qed.

(** X14: a tick polls only what a sink demands: every node whose
    [poll_next] is called in a tick is a sink or upstream of one, and the
    user object of every other node is left as it is. *)
Theorem polled_only_demanded fuel p b t :
  step_tick fuel p = Some (b, t) →
  (∀ n, n ∈ polled t → demanded p n) ∧
  (∀ n, ¬ demanded p n → heap t !! n = nodes_ p !! n).
Proof.
  intros E.
  assert (∀ n, n ∈ polled t → demanded p n) as Hdem.
  { intros n Hn. unfold step_tick in E.
    destruct (poll_sinks_reach p _ _ _ _ _ _ (tick_ext_refl _) E n Hn) as [Hin|?];
      [|done].
    by apply elem_of_nil in Hin. }
  split; [done|]. intros n Hn.
  assert (tick_frame (Tick (nodes_ p) ∅ []) t) as (_ & _ & Hh).
  { unfold step_tick in E.
    eapply (poll_sinks_keeps tick_frame);
      [apply tick_frame_refl | apply tick_frame_trans | | exact E].
    intros u t0 r t1 Hu. by eapply polling_frame. }
  apply Hh. intros Hin. by apply Hn, Hdem.
Qed.

End SchedulerExtras.

(** ** The validator *)

Section ValidatorExtras.
Context {N : Type} `{!NodeImpl N}.
Implicit Types (p : pipeline N) (v : gmap Z Z).

(** *** The first loop of [is_valid] *)

Lemma node_complete_dec p id nd :
  nodes_ p !! id = Some nd →
  (length (connections_ nd) ≠ length (get_input_types (payload nd)) ∨
   bool_decide (get_output_type (payload nd) ≠ ty_void) &&
     deps_empty (get_dependencies id p) = true) ↔ ¬ node_complete nd.
Proof.
  intros Hnd. unfold get_dependencies, get_node, node_complete. rewrite Hnd. simpl.
  destruct (decide (length (connections_ nd) = length (get_input_types (payload nd))))
    as [Hl|Hl]; [|split; [tauto|by left]].
  destruct (decide (get_output_type (payload nd) = ty_void)) as [Hv|Hv].
  - rewrite bool_decide_eq_false_2 by (intros ?; done). simpl. split; [intros [?|?]; done|].
    intros Hn. exfalso. apply Hn. split; [done|]. intros ?; done.
  - rewrite bool_decide_eq_true_2 by done. simpl.
    destruct (dependencies_ nd) as [|d ds]; simpl.
    + split; [|by right]. intros _ [_ Hd]. by apply Hd.
    + split; [intros [?|?]; done|]. intros Hn. exfalso. apply Hn. split; done.
Qed.

Lemma scan_nodes_Some p ids hs hsrc a b :
  scan_nodes p ids hs hsrc = Some (a, b) →
  (∀ id, id ∈ ids → ∃ nd, nodes_ p !! id = Some nd ∧ node_complete nd) ∧
  (a = true → hs = true ∨
     ∃ id nd, id ∈ ids ∧ nodes_ p !! id = Some nd ∧
              get_output_type (payload nd) = ty_void) ∧
  (b = true → hsrc = true ∨
     ∃ id nd, id ∈ ids ∧ nodes_ p !! id = Some nd ∧
              get_input_types (payload nd) = []).
Proof.
  revert hs hsrc. induction ids as [|id rest IH]; intros hs hsrc E; simpl in E.
  { simplify_eq. split_and!; [|by left..]. intros id Hid. by apply elem_of_nil in Hid. }
  destruct (nodes_ p !! id) as [nd|] eqn:Hnd; [|done].
  destruct (decide (length (connections_ nd) ≠ _)) as [Hl|Hl]; [done|].
  destruct (bool_decide _ && deps_empty _) eqn:Hd; [done|].
  assert (node_complete nd) as Hc.
  { split.
    - destruct (decide (length (connections_ nd) =
                        length (get_input_types (payload nd)))); [done|by destruct Hl].
    - intros Hv Hdeps. rewrite bool_decide_eq_true_2 in Hd by done.
      unfold get_dependencies, get_node in Hd. by rewrite Hnd, Hdeps in Hd. }
  apply IH in E as (Hall & Ha & Hb). split_and!.
  - intros i [->|Hi]%elem_of_cons; [eauto|by apply Hall].
  - intros ->. destruct (Ha eq_refl) as [Hs|(i & n & Hi & Hn & Hv)].
    + destruct (decide (get_output_type (payload nd) = ty_void)) as [Hv|]; [|by left].
      right. exists id, nd. split_and!; [by left|done..].
    + right. exists i, n. split_and!; [by right|done..].
  - intros ->. destruct (Hb eq_refl) as [Hs|(i & n & Hi & Hn & Hv)].
    + destruct (decide (get_input_types (payload nd) = [])) as [Hv|]; [|by left].
      right. exists id, nd. split_and!; [by left|done..].
    + right. exists i, n. split_and!; [by right|done..].
Qed.

Lemma scan_nodes_flags p ids hs hsrc a b :
  scan_nodes p ids hs hsrc = Some (a, b) →
  (hs = true ∨ (∃ id nd, id ∈ ids ∧ nodes_ p !! id = Some nd ∧
                         get_output_type (payload nd) = ty_void) → a = true) ∧
  (hsrc = true ∨ (∃ id nd, id ∈ ids ∧ nodes_ p !! id = Some nd ∧
                           get_input_types (payload nd) = []) → b = true).
Proof.
  revert hs hsrc. induction ids as [|id rest IH]; intros hs hsrc E; simpl in E.
  { simplify_eq. split; (intros [?|(i & n & Hi & _)]; [done|by apply elem_of_nil in Hi]). }
  destruct (nodes_ p !! id) as [nd|] eqn:Hnd; [|done].
  destruct (decide (length (connections_ nd) ≠ _)) as [Hl|Hl]; [done|].
  destruct (bool_decide _ && deps_empty _) eqn:Hd; [done|].
  apply IH in E as [Ha Hb]. split.
  - intros [->|(i & n & [->|Hi]%elem_of_cons & Hn & Hv)]; apply Ha.
    + left. by destruct (decide (get_output_type (payload nd) = ty_void)).
    + left. rewrite Hnd in Hn. injection Hn as <-. by rewrite decide_True.
    + right. eauto.
  - intros [->|(i & n & [->|Hi]%elem_of_cons & Hn & Hv)]; apply Hb.
    + left. by destruct (decide (get_input_types (payload nd) = [])).
    + left. rewrite Hnd in Hn. injection Hn as <-. by rewrite decide_True.
    + right. eauto.
Qed.

Lemma scan_nodes_None p ids hs hsrc :
  (∃ id nd, id ∈ ids ∧ nodes_ p !! id = Some nd ∧ ¬ node_complete nd) →
  scan_nodes p ids hs hsrc = None.
Proof.
  intros (id & nd & Hid & Hnd & Hn).
  destruct (scan_nodes p ids hs hsrc) as [[a b]|] eqn:E; [|done].
  apply scan_nodes_Some in E as (Hall & _).
  destruct (Hall id Hid) as (nd' & Hnd' & Hc). congruence.
Qed.

Lemma scan_nodes_complete p ids hs hsrc :
  (∀ id, id ∈ ids → ∃ nd, nodes_ p !! id = Some nd ∧ node_complete nd) →
  is_Some (scan_nodes p ids hs hsrc).
Proof.
  revert hs hsrc. induction ids as [|id rest IH]; intros hs hsrc Hall; simpl; [eauto|].
  destruct (Hall id) as (nd & Hnd & Hc); [by left|]. rewrite Hnd.
  destruct (decide (length (connections_ nd) ≠ _)) as [Hl|Hl]; [by destruct Hc|].
  destruct (bool_decide _ && deps_empty _) eqn:Hd.
  { exfalso. apply (node_complete_dec p id nd Hnd); [by right|done]. }
  apply IH. intros i Hi. apply Hall. by right.
Qed.

(** X15: what the first loop of [is_valid] decides. A result [true]
    needs every node to have all its slots filled and, unless it is a
    sink, a dependant, and needs a sink and a source to exist; when one of
    these fails the result is [false], and it is reached before either
    graph search starts (no fuel is needed). *)
Theorem is_valid_conditions fuel p :
  (is_valid_fuel fuel p = Some true →
     (∀ id nd, get_node p id = Some nd → node_complete nd) ∧
     (∃ id nd, get_node p id = Some nd ∧ get_output_type (payload nd) = ty_void) ∧
     (∃ id nd, get_node p id = Some nd ∧ get_input_types (payload nd) = [])) ∧
  ((∃ id nd, get_node p id = Some nd ∧ ¬ node_complete nd) ∨
   ¬ (∃ id nd, get_node p id = Some nd ∧ get_output_type (payload nd) = ty_void) ∨
   ¬ (∃ id nd, get_node p id = Some nd ∧ get_input_types (payload nd) = []) →
   is_valid_fuel fuel p = Some false ∧ is_valid_fuel 0 p = Some false).
Proof.
  unfold get_node. split.
  - unfold is_valid_fuel. intros E.
    destruct (scan_nodes _ _ _ _) as [[a b]|] eqn:Hs; [|done].
    destruct a, b; try done. simpl in E.
    apply scan_nodes_Some in Hs as (Hall & Ha & Hb). split_and!.
    + intros id nd Hnd.
      destruct (Hall id) as (nd' & Hnd' & Hc); [apply elem_of_ordered_ids; eauto|].
      congruence.
    + destruct (Ha eq_refl) as [?|(i & n & _ & ? & ?)]; [done|eauto].
    + destruct (Hb eq_refl) as [?|(i & n & _ & ? & ?)]; [done|eauto].
  - assert (∀ f, (∃ id nd, nodes_ p !! id = Some nd ∧ ¬ node_complete nd) ∨
       ¬ (∃ id nd, nodes_ p !! id = Some nd ∧ get_output_type (payload nd) = ty_void) ∨
       ¬ (∃ id nd, nodes_ p !! id = Some nd ∧ get_input_types (payload nd) = []) →
       is_valid_fuel f p = Some false) as Hgo; [|by split; apply Hgo].
    intros f Hcase. unfold is_valid_fuel.
    destruct (scan_nodes _ _ _ _) as [[a b]|] eqn:Hs; [|done].
    pose proof (scan_nodes_Some _ _ _ _ _ _ Hs) as (Hall & Ha & Hb).
    destruct Hcase as [(id & nd & Hnd & Hn)|[Hn|Hn]].
    + rewrite scan_nodes_None in Hs; [done|].
      exists id, nd. split_and!; [apply elem_of_ordered_ids; eauto|done..].
    + destruct a; [|done]. destruct (Ha eq_refl) as [?|(i & n & _ & ? & ?)]; [done|].
      exfalso. apply Hn. eauto.
    + destruct b; [|by rewrite orb_true_r].
      destruct (Hb eq_refl) as [?|(i & n & _ & ? & ?)]; [done|].
      exfalso. apply Hn. eauto.
Qed.

(** *** The search for a cycle *)

Lemma touch_lookup_ne src v k : k ≠ src → touch src v !! k = v !! k.
Proof.
  intros Hne. unfold touch. destruct (v !! src); [done|]. by rewrite lookup_insert_ne.
Qed.

Lemma touch_lookup_eq src v : touch src v !! src = Some (default 0 (v !! src)).
Proof.
  unfold touch. destruct (v !! src) eqn:E; simpl; [done|]. by rewrite lookup_insert_eq.
Qed.

Lemma touch_lookup_mark src v k x : x ≠ 0 → touch src v !! k = Some x ↔ v !! k = Some x.
Proof.
  intros Hx. destruct (decide (k = src)) as [->|Hne]; [|by rewrite touch_lookup_ne].
  rewrite touch_lookup_eq. destruct (v !! src); simpl; [done|]. split; [|done].
  intros [= <-]. done.
Qed.

Lemma marks_kept_refl v : marks_kept v v.
Proof. by intros k. Qed.

Lemma marks_kept_trans v1 v2 v3 : marks_kept v1 v2 → marks_kept v2 v3 → marks_kept v1 v3.
Proof. intros H1 H2 k. destruct (H1 k), (H2 k). split; auto. Qed.

Lemma cycle_loop_sound p rec conns :
  (∀ u v v' rk, rec u v = Some (false, v') → finished p rk v →
     marks_kept v v' ∧ v' !! u = Some 2 ∧ ∃ rk', finished p rk' v') →
  ∀ v v' rk, cycle_loop rec conns v = Some (false, v') → finished p rk v →
    marks_kept v v' ∧ (∀ su, su ∈ conns → v' !! su.2 = Some 2) ∧
    ∃ rk', finished p rk' v'.
Proof.
  intros Hrec. induction conns as [|[slot u] rest IH]; intros v v' rk E Hf; simpl in E.
  - simplify_eq. split_and!; [apply marks_kept_refl| |eauto].
    intros su Hsu. by apply elem_of_nil in Hsu.
  - destruct (rec u v) as [[[] v1]|] eqn:Hu; [done| |done].
    destruct (Hrec _ _ _ _ Hu Hf) as (Hk1 & Hu2 & rk1 & Hf1).
    destruct (IH _ _ _ E Hf1) as (Hk2 & Hall & rk2 & Hf2).
    split_and!; [by eapply marks_kept_trans| |eauto].
    intros su [->|Hsu]%elem_of_cons; [|by apply Hall].
    by apply Hk2.
Qed.

Lemma has_cycle_sound p fuel : ∀ src v v' rk,
  has_cycle fuel p src v = Some (false, v') → finished p rk v →
  marks_kept v v' ∧ v' !! src = Some 2 ∧ ∃ rk', finished p rk' v'.
Proof.
  induction fuel as [|f IH]; intros src v v' rk E Hf; [done|].
  simpl in E.
  destruct (decide (touch src v !! src = Some 1)) as [H1|H1]; [done|].
  assert (marks_kept v (touch src v)) as Hkt.
  { intros k. by rewrite !touch_lookup_mark. }
  assert (finished p rk (touch src v)) as Hft.
  { intros k Hk. rewrite touch_lookup_mark in Hk by done.
    destruct (Hf k Hk) as (nd & Hnd & Hall). exists nd. split; [done|].
    intros su Hsu. rewrite touch_lookup_mark by done. by apply Hall. }
  destruct (decide (touch src v !! src = Some 2)) as [H2|H2].
  { simplify_eq. eauto. }
  unfold get_node in E. destruct (nodes_ p !! src) as [nd|] eqn:Hnd; [|done].
  destruct (cycle_loop _ _ _) as [[[] v2]|] eqn:Hl; [done| |done].
  simplify_eq.
  assert (finished p rk (<[src:=1]> (touch src v))) as Hf1.
  { intros k Hk. destruct (decide (k = src)) as [->|Hne].
    { by rewrite lookup_insert_eq in Hk. }
    rewrite lookup_insert_ne in Hk by done.
    destruct (Hft k Hk) as (nd' & Hnd' & Hall). exists nd'. split; [done|].
    intros su Hsu. destruct (Hall su Hsu) as [Hs2 Hlt]. split; [|done].
    rewrite lookup_insert_ne; [done|]. intros Heq. rewrite <- Heq in Hs2. done. }
  destruct (cycle_loop_sound p _ _ (IH) _ _ _ Hl Hf1) as (Hk2 & Hall & rk2 & Hf2).
  assert (v2 !! src = Some 1) as Hsrc1 by (apply Hk2, lookup_insert_eq).
  split_and!.
  - intros k. destruct (decide (k = src)) as [->|Hne].
    + split; intros Hk; apply Hkt in Hk; done.
    + rewrite lookup_insert_ne by done. split; intros Hk; apply Hk2;
        rewrite lookup_insert_ne by done; by apply Hkt.
  - apply lookup_insert_eq.
  - exists (λ k, if decide (k = src)
                 then S (max_list (rk2 <$> (connections_ nd).*2)) else rk2 k).
    assert (∀ su, su ∈ connections_ nd → su.2 ≠ src) as Hns.
    { intros su Hsu Heq. apply Hall in Hsu. rewrite Heq in Hsu. congruence. }
    intros k Hk. destruct (decide (k = src)) as [->|Hne].
    + exists nd. split; [done|]. intros su Hsu.
      rewrite lookup_insert_ne by (by intros ?; eapply Hns).
      split; [by apply Hall|].
      rewrite decide_False by (by eapply Hns).
      apply Nat.lt_succ_r, max_list_elem_of_le.
      apply list_elem_of_fmap_2, list_elem_of_fmap_2, Hsu.
    + rewrite lookup_insert_ne in Hk by done.
      destruct (Hf2 k Hk) as (nd' & Hnd' & Hall'). exists nd'. split; [done|].
      intros su Hsu. destruct (Hall' su Hsu) as [Hs2 Hlt].
      assert (su.2 ≠ src) as Hne' by (intros Heq; rewrite Heq in Hs2; congruence).
      rewrite lookup_insert_ne by done. by rewrite decide_False.
Qed.

Lemma cycle_scan_sound p fuel ids : ∀ v v' rk,
  cycle_scan fuel p ids v = Some (false, v') → finished p rk v →
  marks_kept v v' ∧
  (∀ id nd, id ∈ ids → nodes_ p !! id = Some nd →
            get_output_type (payload nd) = ty_void → v' !! id = Some 2) ∧
  ∃ rk', finished p rk' v'.
Proof.
  induction ids as [|id rest IH]; intros v v' rk E Hf; simpl in E.
  - simplify_eq. split_and!; [apply marks_kept_refl| |eauto].
    intros id nd Hid. by apply elem_of_nil in Hid.
  - destruct (nodes_ p !! id) as [nd|] eqn:Hnd; [|done].
    destruct (decide (get_output_type (payload nd) = ty_void)) as [Hv|Hv].
    + destruct (has_cycle fuel p id v) as [[[] v1]|] eqn:Hc; [done| |done].
      destruct (has_cycle_sound _ _ _ _ _ _ Hc Hf) as (Hk1 & H2 & rk1 & Hf1).
      destruct (IH _ _ _ E Hf1) as (Hk2 & Hall & rk2 & Hf2).
      split_and!; [by eapply marks_kept_trans| |eauto].
      intros i n [->|Hi]%elem_of_cons Hn Hvoid; [by apply Hk2|by eapply Hall].
    + destruct (IH _ _ _ E Hf) as (Hk2 & Hall & rk2 & Hf2).
      split_and!; [done| |eauto].
      intros i n [->|Hi]%elem_of_cons Hn Hvoid; [congruence|by eapply Hall].
Qed.

(** The ranking found by a search that reports no cycle. *)
Lemma is_valid_ranked fuel p :
  is_valid_fuel fuel p = Some true →
  ∃ rk v, finished p rk v ∧
    ∀ id nd, nodes_ p !! id = Some nd →
             get_output_type (payload nd) = ty_void → v !! id = Some 2.
Proof.
  unfold is_valid_fuel. intros E.
  destruct (scan_nodes _ _ _ _) as [[a b]|]; [|done].
  destruct (negb a || negb b); [done|].
  destruct (cycle_scan _ _ _ _) as [[[] v]|] eqn:Hc; [done| |done].
  destruct (cycle_scan_sound _ _ _ _ _ (λ _, 0%nat) Hc) as (_ & Hall & rk & Hf).
  { intros k Hk. by rewrite lookup_empty in Hk. }
  exists rk, v. split; [done|]. intros id nd Hnd Hv.
  eapply Hall; [|done..]. apply elem_of_ordered_ids. eauto.
Qed.

Lemma finished_plugged p rk v n u :
  finished p rk v → v !! n = Some 2 → plugged p n u →
  v !! u = Some 2 ∧ (rk u < rk n)%nat.
Proof.
  intros Hf Hn (nd & slot & Hnd & Hin).
  destruct (Hf n Hn) as (nd' & Hnd' & Hall).
  assert (nd' = nd) as -> by congruence. by apply (Hall (slot, u)).
Qed.

Lemma finished_demanded p rk v s n :
  finished p rk v → v !! s = Some 2 → rtc (plugged p) s n → v !! n = Some 2.
Proof.
  intros Hf Hs Hr. induction Hr as [|a b c Hab _ IH]; [done|].
  apply IH. by eapply finished_plugged.
Qed.

Lemma finished_tc p rk v n u :
  finished p rk v → v !! n = Some 2 → tc (plugged p) n u → (rk u < rk n)%nat.
Proof.
  intros Hf Hn Ht. induction Ht as [n u Hnu|n w u Hnw Ht IH].
  - by eapply finished_plugged.
  - destruct (finished_plugged _ _ _ _ _ Hf Hn Hnw) as [Hw Hlt].
    specialize (IH Hw). lia.
Qed.

(** X16: a pipeline that [is_valid] accepts has no cycle below a sink:
    every node that is a sink or upstream of one is live, and no chain of
    filled slots leads from it back to itself. *)
Theorem is_valid_no_cycle_below_sinks fuel p n :
  is_valid_fuel fuel p = Some true → demanded p n →
  is_Some (get_node p n) ∧ ¬ tc (plugged p) n n.
Proof.
  intros (rk & v & Hf & Hsinks)%is_valid_ranked (s & nd & Hs & Hv & Hr).
  assert (v !! n = Some 2) as Hn.
  { eapply finished_demanded; [done| |done]. by eapply Hsinks. }
  split.
  - destruct (Hf n Hn) as (nd' & Hnd' & _). unfold get_node. eauto.
  - intros Ht. pose proof (finished_tc _ _ _ _ _ Hf Hn Ht). lia.
Qed.

(** *** A valid pipeline can be stepped *)

Section TotalOn.
Variable rk : node_id → nat.
Variable I : gmap Z (node N) → Prop.
Variable m0 : gmap Z (node N).
Variable D : node_id → Prop.
Hypothesis HD : ∀ id, D id →
  ∃ nd, m0 !! id = Some nd ∧
        ∀ su, su ∈ connections_ nd → D su.2 ∧ (rk su.2 < rk id)%nat.
Hypothesis HI : poll_returns I.

Lemma poll_upstreams_total_on f conns :
  (∀ src t, same_graph m0 t → I (heap t) → D src → (rk src < f)%nat →
            ∃ r t', polling f src t = Some (r, t') ∧ I (heap t')) →
  ∀ t, (∀ su, su ∈ conns → D su.2 ∧ (rk su.2 < f)%nat) →
       same_graph m0 t → I (heap t) →
       ∃ o t', poll_upstreams (polling f) conns t = Some (o, t') ∧ I (heap t').
Proof.
  intros Hrec. induction conns as [|[slot u] rest IH]; intros t Hall Hs Hi; simpl.
  - eauto.
  - destruct (Hall (slot, u)) as [Hd Hlt]; [by left|].
    destruct (Hrec u t Hs Hi Hd Hlt) as (r & t1 & Hu & Hi1).
    rewrite Hu. destruct r; eauto.
    apply IH; [|eapply same_graph_ext; eauto; by apply polling_ext in Hu as [? _]|done].
    intros su Hsu. apply Hall. by right.
Qed.

Lemma polling_total_on f : ∀ src t,
  same_graph m0 t → I (heap t) → D src → (rk src < f)%nat →
  ∃ r t', polling f src t = Some (r, t') ∧ I (heap t').
Proof.
  induction f as [|f IH]; intros src t Hs Hi Hd Hlt; [lia|].
  destruct (HD src Hd) as (nd0 & Hnd0 & Hall).
  destruct (same_graph_live m0 t src Hs) as [nd Hnd]; [eauto|].
  simpl. destruct (visited t !! src) as [r0|] eqn:Hv; [eauto|].
  rewrite Hnd.
  assert (connections_ nd0 = connections_ nd) as Hconn.
  { specialize (Hs src). rewrite Hnd, Hnd0 in Hs. simpl in Hs. congruence. }
  destruct (poll_upstreams_total_on f (connections_ nd) IH t) as (o & t1 & Hl & Hi1);
    [|done..|].
  { intros su Hsu. rewrite <- Hconn in Hsu. destruct (Hall su Hsu). split; [done|lia]. }
  rewrite Hl. destruct o as [r1|]; [eauto|].
  assert (tick_ext t t1) as Hext.
  { eapply (poll_upstreams_keeps tick_ext);
      [apply tick_ext_refl | apply tick_ext_trans | | exact Hl].
    intros u t0 r1 t2 Hu. by apply polling_ext in Hu as [? _]. }
  destruct (same_graph_live m0 t1 src) as [nd1 Hnd1];
    [by eapply same_graph_ext | by eauto |].
  unfold poll_node. rewrite Hnd1.
  destruct HI as [Hret Hkeep].
  destruct (Hret _ _ _ Hi1 Hnd1) as [[r x] Hp]. rewrite Hp.
  eexists _, _. split; [done|]. cbn [heap]. eauto.
Qed.

Lemma poll_sinks_total_on f ids b t :
  (∀ id, id ∈ ids → is_Some (m0 !! id)) →
  (∀ id nd, m0 !! id = Some nd → get_output_type (payload nd) = ty_void →
            D id ∧ (rk id < f)%nat) →
  tick_ext (Tick m0 ∅ []) t → I (heap t) →
  ∃ b' t', poll_sinks f ids b t = Some (b', t').
Proof.
  intros Hlive Hsinks. revert b t.
  induction ids as [|id rest IH]; intros b t Hext Hi; simpl; [eauto|].
  assert (same_graph m0 t) as Hs.
  { intros k. destruct Hext as (_ & Hc & _). apply Hc. }
  destruct (Hlive id) as [nd0 Hnd0]; [by left|].
  destruct (same_graph_live m0 t id Hs) as [nd Hnd]; [eauto|]. rewrite Hnd.
  assert (∀ i, i ∈ rest → is_Some (m0 !! i)) as Hrest
    by (intros i Hi'; apply Hlive; by right).
  destruct (decide (get_output_type (payload nd) = ty_void)) as [Hv|Hv]; [|by apply IH].
  assert (get_output_type (payload nd0) = ty_void) as Hv0.
  { destruct Hext as (_ & _ & Ht). specialize (Ht id). cbn [heap] in Ht.
    rewrite Hnd, Hnd0 in Ht. simpl in Ht. congruence. }
  destruct (Hsinks _ _ Hnd0 Hv0) as [Hd Hlt].
  destruct (polling_total_on f id t Hs Hi Hd Hlt) as (r & t1 & Hu & Hi1).
  rewrite Hu. apply IH; [done| |done].
  eapply tick_ext_trans; [exact Hext|]. by apply polling_ext in Hu as [? _].
Qed.

End TotalOn.

Lemma finished_step_returns (I : gmap Z (node N) → Prop) rk v f p :
  finished p rk v →
  (∀ id nd, nodes_ p !! id = Some nd → get_output_type (payload nd) = ty_void →
            v !! id = Some 2 ∧ (rk id < f)%nat) →
  poll_returns I → I (nodes_ p) →
  is_Some (step f p).
Proof.
  intros Hf Hs HI Hi.
  assert (∀ id, v !! id = Some 2 →
            ∃ nd, nodes_ p !! id = Some nd ∧
                  ∀ su, su ∈ connections_ nd →
                        v !! su.2 = Some 2 ∧ (rk su.2 < rk id)%nat) as HD.
  { intros id Hid. destruct (Hf id Hid) as (nd & Hnd & Hall). eauto. }
  destruct (poll_sinks_total_on rk I (nodes_ p) (λ k, v !! k = Some 2) HD HI
              f (ordered_ids (nodes_ p)) true (Tick (nodes_ p) ∅ []))
    as (b' & t' & Hp); [|done|apply tick_ext_refl|done|].
  - intros id Hid. by apply elem_of_ordered_ids.
  - unfold step, step_tick. rewrite Hp. eauto.
Qed.

Lemma is_valid_complete fuel p id nd :
  is_valid_fuel fuel p = Some true → nodes_ p !! id = Some nd → node_complete nd.
Proof.
  unfold is_valid_fuel. intros E Hnd.
  destruct (scan_nodes _ _ _ _) as [[a b]|] eqn:Hs; [|done].
  apply scan_nodes_Some in Hs as (Hall & _).
  destruct (Hall id) as (nd' & Hnd' & Hc); [apply elem_of_ordered_ids; eauto|].
  congruence.
Qed.

(** X20: a pipeline that [is_valid] accepts can be stepped: when the
    [poll_next] functions return (under a property [I] of the node
    objects that they keep), [step] returns, for every recursion depth
    from some bound on. The search for cycles of [is_valid] covers what
    [polling] traverses. *)
Theorem valid_step_returns (I : gmap Z (node N) → Prop) fuel p :
  is_valid_fuel fuel p = Some true →
  poll_returns I → I (nodes_ p) →
  ∃ f0, ∀ f, (f0 ≤ f)%nat → is_Some (step f p).
Proof.
  intros (rk & v & Hf & Hsinks)%is_valid_ranked HI Hi.
  exists (S (max_list (rk <$> ordered_ids (nodes_ p)))). intros f Hle.
  apply (finished_step_returns I rk v); [done| |done..].
  intros id nd Hnd Hv. split; [by eapply Hsinks|].
  eapply Nat.lt_le_trans; [|exact Hle].
  apply Nat.lt_succ_r, max_list_elem_of_le, list_elem_of_fmap_2.
  apply elem_of_ordered_ids. eauto.
Qed.

(** *** The search for a second component *)

Lemma dfs_loop_sound p (P : gmap Z Z → Prop) (R : node_id → Prop) rec next :
  (∀ u v v', rec u v = Some v' → P v → R u → P v') →
  ∀ v v', dfs_loop rec next v = Some v' → P v → (∀ u, u ∈ next → R u) → P v'.
Proof.
  intros Hrec. induction next as [|u rest IH]; intros v v' E Hp Hr; simpl in E.
  - by simplify_eq.
  - destruct (rec u v) as [v1|] eqn:Hu; [|done].
    eapply IH; [exact E| |].
    + eapply Hrec; [exact Hu|done|]. apply Hr. by left.
    + intros w Hw. apply Hr. by right.
Qed.

Lemma dfs_all_sound p root fuel : ∀ src v v',
  dfs_all fuel p src v = Some v' →
  (∀ k, is_Some (v !! k) → is_Some (nodes_ p !! k) ∧ rtc (adjacent p) root k) →
  rtc (adjacent p) root src →
  (∀ k, is_Some (v' !! k) → is_Some (nodes_ p !! k) ∧ rtc (adjacent p) root k).
Proof.
  induction fuel as [|f IH]; intros src v v' E Hp Hr; [done|].
  simpl in E.
  destruct (decide (touch src v !! src = Some 1)) as [H1|H1].
  { simplify_eq. rewrite touch_lookup_mark in H1 by done.
    unfold touch. by rewrite H1. }
  unfold get_node in E. destruct (nodes_ p !! src) as [nd|] eqn:Hnd; [|done].
  destruct (dfs_loop _ (connections_ nd).*2 _) as [v2|] eqn:Hl; [|done].
  set (P := λ v : gmap Z Z,
         ∀ k, is_Some (v !! k) → is_Some (nodes_ p !! k) ∧ rtc (adjacent p) root k).
  assert (P (<[src:=1]> (touch src v))) as Hp1.
  { intros k Hk. destruct (decide (k = src)) as [->|Hne]; [by eauto|].
    rewrite lookup_insert_ne, touch_lookup_ne in Hk by done. by apply Hp. }
  assert (P v2) as Hp2.
  { eapply (dfs_loop_sound p P (λ u, rtc (adjacent p) root u)); [|exact Hl|done|].
    - intros u w w' Hu Hw Hru. exact (IH _ _ _ Hu Hw Hru).
    - intros u Hu. eapply rtc_r; [exact Hr|]. exists nd. eauto. }
  eapply (dfs_loop_sound p P (λ u, rtc (adjacent p) root u)); [|exact E|done|].
  - intros u w w' Hu Hw Hru. exact (IH _ _ _ Hu Hw Hru).
  - intros u Hu. eapply rtc_r; [exact Hr|]. exists nd. eauto.
Qed.

(** X17: a pipeline that [is_valid] accepts is connected: from the node
    with the smallest id, every node is reached by going from a node to
    the nodes named in its [connections_] and [dependencies_]. *)
Theorem is_valid_connected fuel p :
  is_valid_fuel fuel p = Some true →
  ∃ root, head (ordered_ids (nodes_ p)) = Some root ∧
          is_Some (get_node p root) ∧
          ∀ n, is_Some (get_node p n) → rtc (adjacent p) root n.
Proof.
  intros E. unfold is_valid_fuel in E. unfold get_node in *.
  destruct (scan_nodes _ _ _ _) as [[a b]|] eqn:Hscan; [|done].
  destruct a; [|done]. destruct b; [|done]. cbn [negb orb] in E.
  apply scan_nodes_Some in Hscan as (_ & Hsink & _).
  destruct (Hsink eq_refl) as [?|(s & nd & Hin & Hs & _)]; [done|].
  destruct (cycle_scan _ _ _ _) as [[[] v]|]; [done| |done].
  destruct (ordered_ids (nodes_ p)) as [|root rest] eqn:Hids.
  { by apply elem_of_nil in Hin. }
  assert (is_Some (nodes_ p !! root)) as Hroot.
  { apply elem_of_ordered_ids. rewrite Hids. by left. }
  exists root. split; [done|]. split; [done|].
  destruct (dfs_all fuel p root ∅) as [w|] eqn:Hd; [|done].
  destruct (decide (size w ≠ size (nodes_ p))) as [|Hsz]; [done|].
  assert (∀ k, is_Some (w !! k) → is_Some (nodes_ p !! k) ∧ rtc (adjacent p) root k) as Hw.
  { eapply dfs_all_sound; [exact Hd| |done].
    intros k Hk. rewrite lookup_empty in Hk. by destruct Hk. }
  assert (dom w = dom (nodes_ p)) as Hdom.
  { apply set_subseteq_size_eq.
    - intros k Hk%elem_of_dom. apply elem_of_dom. by apply Hw.
    - rewrite !size_dom. lia. }
  intros n Hn. apply Hw. apply elem_of_dom. rewrite Hdom. by apply elem_of_dom.
Qed.

(** *** [is_valid] returns *)

Lemma length_le_size {V : Type} (m : gmap Z V) (l : list node_id) :
  NoDup l → (∀ k, k ∈ l → is_Some (m !! k)) → (length l ≤ size m)%nat.
Proof.
  intros Hnd Hl. rewrite <- size_dom. unfold size, set_size. simpl.
  apply submseteq_length, NoDup_submseteq; [done|].
  intros k Hk. apply elem_of_elements, elem_of_dom. by apply Hl.
Qed.

Lemma marked_touch src v l : marked v l → marked (touch src v) l.
Proof. intros [Hnd Hl]. split; [done|]. intros k. by rewrite touch_lookup_mark. Qed.

Lemma marked_enter src v l :
  marked v l → v !! src ≠ Some 1 → marked (<[src:=1]> v) (src :: l).
Proof.
  intros [Hnd Hmk] Hs. split.
  - constructor; [|done]. by rewrite <- Hmk.
  - intros k. rewrite elem_of_cons. destruct (decide (k = src)) as [->|Hne].
    + rewrite lookup_insert_eq. split; [by left|done].
    + rewrite lookup_insert_ne by done. rewrite Hmk.
      split; [by right|]. by intros [?|?].
Qed.

Lemma marked_leave src v l : marked v (src :: l) → marked (<[src:=2]> v) l.
Proof.
  intros [[Hs Hnd]%NoDup_cons Hmk]. split; [done|].
  intros k. destruct (decide (k = src)) as [->|Hne].
  - rewrite lookup_insert_eq. split; [done|]. intros Hin. done.
  - rewrite lookup_insert_ne by done. rewrite Hmk, elem_of_cons.
    split; [by intros [?|?]|by right].
Qed.

Section Returns.
Variable p : pipeline N.
Hypothesis Hm : mirror p.

Lemma mirror_connections_live n nd su :
  nodes_ p !! n = Some nd → su ∈ connections_ nd → is_Some (nodes_ p !! su.2).
Proof.
  destruct Hm as (_ & Hf & _). destruct su as [slot u]. intros Hn Hin.
  destruct (Hf _ _ _ _ Hn Hin) as (x & Hx & _). eauto.
Qed.

Lemma mirror_dependencies_live n nd ds :
  nodes_ p !! n = Some nd → ds ∈ dependencies_ nd → is_Some (nodes_ p !! ds.1).
Proof.
  destruct Hm as (_ & _ & Hb). destruct ds as [d slot]. intros Hn Hin.
  destruct (Hb _ _ _ _ Hn Hin) as (x & Hx & _). eauto.
Qed.

Lemma cycle_loop_total rec conns l :
  (∀ u v, marked v l → is_Some (nodes_ p !! u) →
          ∃ b v', rec u v = Some (b, v') ∧ (b = false → marked v' l)) →
  ∀ v, marked v l → (∀ su, su ∈ conns → is_Some (nodes_ p !! su.2)) →
       ∃ b v', cycle_loop rec conns v = Some (b, v') ∧ (b = false → marked v' l).
Proof.
  intros Hrec. induction conns as [|[slot u] rest IH]; intros v Hv Hlive; simpl.
  - eauto.
  - destruct (Hrec u v Hv) as (b & v1 & Hu & Hv1); [by apply (Hlive (slot, u)); left|].
    rewrite Hu. destruct b; [by eexists _, _|].
    apply IH; [by apply Hv1|]. intros su Hsu. apply Hlive. by right.
Qed.

Lemma has_cycle_total fuel : ∀ src v l,
  marked v l → (∀ k, k ∈ l → is_Some (nodes_ p !! k)) →
  is_Some (nodes_ p !! src) →
  (size (nodes_ p) < fuel + length l)%nat →
  ∃ b v', has_cycle fuel p src v = Some (b, v') ∧ (b = false → marked v' l).
Proof.
  induction fuel as [|f IH]; intros src v l Hv Hl [nd Hnd] Hsz.
  { pose proof (length_le_size (nodes_ p) l (proj1 Hv) Hl). simpl in Hsz. lia. }
  simpl.
  destruct (decide (touch src v !! src = Some 1)) as [H1|H1]; [by eexists _, _|].
  destruct (decide (touch src v !! src = Some 2)) as [H2|H2].
  { eexists _, _. split; [done|]. intros _. by apply marked_touch. }
  unfold get_node. rewrite Hnd.
  destruct (cycle_loop_total (has_cycle f p) (connections_ nd) (src :: l))
    with (v := <[src:=1]> (touch src v)) as (b & v2 & Hloop & Hv2).
  - intros u w Hw Hu. apply IH; [done| |done|simpl; lia].
    intros k [->|Hk]%elem_of_cons; [eauto|by apply Hl].
  - by apply marked_enter; [apply marked_touch|].
  - intros su Hsu. by eapply mirror_connections_live.
  - rewrite Hloop. destruct b; [by eexists _, _|].
    eexists _, _. split; [done|]. intros _. by apply marked_leave, Hv2.
Qed.

Lemma cycle_scan_total fuel ids : ∀ v,
  marked v [] → (∀ id, id ∈ ids → is_Some (nodes_ p !! id)) →
  (size (nodes_ p) < fuel)%nat →
  is_Some (cycle_scan fuel p ids v).
Proof.
  induction ids as [|id rest IH]; intros v Hv Hlive Hsz; simpl; [eauto|].
  destruct (Hlive id) as [nd Hnd]; [by left|]. rewrite Hnd.
  assert (∀ i, i ∈ rest → is_Some (nodes_ p !! i)) as Hrest
    by (intros i Hi; apply Hlive; by right).
  destruct (decide (get_output_type (payload nd) = ty_void)); [|by apply IH].
  destruct (has_cycle_total fuel id v []) as (b & v1 & Hc & Hv1);
    [done|by intros k Hk%elem_of_nil|by eauto|simpl; lia|].
  rewrite Hc. destruct b; [eauto|]. apply IH; [by apply Hv1|done..].
Qed.

Lemma dfs_loop_total rec next n0 :
  (∀ u v l, marked v l → (∀ k, k ∈ l → is_Some (nodes_ p !! k)) →
            is_Some (nodes_ p !! u) → (n0 ≤ length l)%nat →
            ∃ v' l', rec u v = Some v' ∧ marked v' l' ∧
                     (∀ k, k ∈ l' → is_Some (nodes_ p !! k)) ∧
                     (length l ≤ length l')%nat) →
  ∀ v l, marked v l → (∀ k, k ∈ l → is_Some (nodes_ p !! k)) →
         (n0 ≤ length l)%nat → (∀ u, u ∈ next → is_Some (nodes_ p !! u)) →
         ∃ v' l', dfs_loop rec next v = Some v' ∧ marked v' l' ∧
                  (∀ k, k ∈ l' → is_Some (nodes_ p !! k)) ∧
                  (length l ≤ length l')%nat.
Proof.
  intros Hrec. induction next as [|u rest IH]; intros v l Hv Hl Hn Hlive; simpl.
  - eauto 10.
  - destruct (Hrec u v l Hv Hl) as (v1 & l1 & Hu & Hv1 & Hl1 & Hle);
      [by apply Hlive; left|done|].
    rewrite Hu.
    destruct (IH v1 l1 Hv1 Hl1) as (v2 & l2 & Hr & Hv2 & Hl2 & Hle2); [lia| |].
    { intros w Hw. apply Hlive. by right. }
    exists v2, l2. split_and!; [done..|lia].
Qed.

Lemma dfs_all_total fuel : ∀ src v l,
  marked v l → (∀ k, k ∈ l → is_Some (nodes_ p !! k)) →
  is_Some (nodes_ p !! src) →
  (size (nodes_ p) < fuel + length l)%nat →
  ∃ v' l', dfs_all fuel p src v = Some v' ∧ marked v' l' ∧
           (∀ k, k ∈ l' → is_Some (nodes_ p !! k)) ∧
           (length l ≤ length l')%nat.
Proof.
  induction fuel as [|f IH]; intros src v l Hv Hl [nd Hnd] Hsz.
  { pose proof (length_le_size (nodes_ p) l (proj1 Hv) Hl). simpl in Hsz. lia. }
  simpl.
  destruct (decide (touch src v !! src = Some 1)) as [H1|H1].
  { exists (touch src v), l. split_and!; [done|by apply marked_touch|done..]. }
  unfold get_node. rewrite Hnd.
  assert (∀ u w l0, marked w l0 → (∀ k, k ∈ l0 → is_Some (nodes_ p !! k)) →
            is_Some (nodes_ p !! u) → (S (length l) ≤ length l0)%nat →
            ∃ v' l', dfs_all f p u w = Some v' ∧ marked v' l' ∧
                     (∀ k, k ∈ l' → is_Some (nodes_ p !! k)) ∧
                     (length l0 ≤ length l')%nat) as Hrec.
  { intros u w l0 Hw Hl0 Hu Hlen. apply IH; [done..|lia]. }
  destruct (dfs_loop_total (dfs_all f p) (connections_ nd).*2 (S (length l)) Hrec
              (<[src:=1]> (touch src v)) (src :: l))
    as (v2 & l2 & Hloop & Hv2 & Hl2 & Hle2).
  - by apply marked_enter; [apply marked_touch|].
  - intros k [->|Hk]%elem_of_cons; [eauto|by apply Hl].
  - done.
  - intros u (su & -> & Hsu)%list_elem_of_fmap. by eapply mirror_connections_live.
  - rewrite Hloop. simpl in Hle2.
    destruct (dfs_loop_total (dfs_all f p) (dependencies_ nd).*1 (S (length l)) Hrec
                v2 l2 Hv2 Hl2)
      as (v3 & l3 & Hloop3 & Hv3 & Hl3 & Hle3); [lia| |].
    { intros u (ds & -> & Hds)%list_elem_of_fmap. by eapply mirror_dependencies_live. }
    exists v3, l3. split_and!; [done..|lia].
Qed.

End Returns.

(** X18: [is_valid] returns on every pipeline that keeps the mirror
    invariant: both graph searches come back, with a recursion depth of
    at most one call per node plus one. *)
Theorem is_valid_returns p : mirror p → is_Some (is_valid p).
Proof.
  intros Hm. unfold is_valid, is_valid_fuel.
  destruct (scan_nodes _ _ _ _) as [[a b]|]; [|eauto].
  destruct (negb a || negb b); [eauto|].
  assert (marked (∅ : gmap Z Z) []) as Hempty.
  { split; [constructor|]. intros k. rewrite lookup_empty. split; [done|].
    by intros ?%elem_of_nil. }
  destruct (cycle_scan_total p Hm (2 + size (nodes_ p)) (ordered_ids (nodes_ p)) ∅)
    as [[[] v] Hc]; [done| |lia| |].
  { intros id Hid. by apply elem_of_ordered_ids. }
  { rewrite Hc. eauto. }
  rewrite Hc.
  destruct (ordered_ids (nodes_ p)) as [|root rest] eqn:Hids; [eauto|].
  destruct (dfs_all_total p Hm (2 + size (nodes_ p)) root ∅ [])
    as (w & l & Hd & _); [done|by intros k ?%elem_of_nil| |simpl; lia|].
  { apply elem_of_ordered_ids. rewrite Hids. by left. }
  rewrite Hd. destruct (decide _); eauto.
Qed.

(** *** What [is_valid] accepts *)

Lemma cycle_loop_false_marked rec conns l :
  (∀ u v v', rec u v = Some (false, v') → marked v l → marked v' l) →
  ∀ v v', cycle_loop rec conns v = Some (false, v') → marked v l → marked v' l.
Proof.
  intros Hrec. induction conns as [|[slot u] rest IH]; intros v v' E Hv; simpl in E.
  - by simplify_eq.
  - destruct (rec u v) as [[[] v1]|] eqn:Hu; [done| |done]. eauto.
Qed.

Lemma has_cycle_false_marked p fuel : ∀ src v v' l,
  has_cycle fuel p src v = Some (false, v') → marked v l → marked v' l.
Proof.
  induction fuel as [|f IH]; intros src v v' l E Hv; [done|].
  simpl in E.
  destruct (decide (touch src v !! src = Some 1)) as [H1|H1]; [done|].
  destruct (decide (touch src v !! src = Some 2)) as [H2|H2].
  { simplify_eq. by apply marked_touch. }
  destruct (get_node p src) as [nd|]; [|done].
  destruct (cycle_loop _ _ _) as [[[] v2]|] eqn:Hl; [done| |done].
  simplify_eq. apply marked_leave.
  eapply (cycle_loop_false_marked _ _ (src :: l)); [|exact Hl|].
  - intros u w w' Hu Hw. by eapply IH.
  - by apply marked_enter; [apply marked_touch|].
Qed.

Lemma stack_path_origin p l src x :
  stack_path p l src → x ∈ l → tc (plugged p) x src.
Proof.
  revert src. induction l as [|y l IH]; intros src Hp Hx; [by apply elem_of_nil in Hx|].
  destruct Hp as [Hy Hp]. apply elem_of_cons in Hx as [->|Hx].
  - by apply tc_once.
  - eapply tc_r; [by apply IH|done].
Qed.

Lemma last_cons_default {A} (x y : A) l :
  default y (last (x :: l)) = default x (last l).
Proof.
  revert x y. induction l as [|z l IH]; intros x y; [done|].
  by rewrite last_cons_cons, !IH.
Qed.

Lemma stack_path_bottom p l src :
  stack_path p l src → rtc (plugged p) (default src (last l)) src.
Proof.
  revert src. induction l as [|y l IH]; intros src Hp; [done|].
  destruct Hp as [Hy Hp]. specialize (IH _ Hp).
  rewrite last_cons_default. by eapply rtc_r.
Qed.

Lemma has_cycle_true p fuel : ∀ src v v' l,
  marked v l → stack_path p l src →
  has_cycle fuel p src v = Some (true, v') →
  ∃ n, tc (plugged p) n n ∧ rtc (plugged p) (default src (last l)) n.
Proof.
  induction fuel as [|f IH]; intros src v v' l Hv Hp E; [done|].
  simpl in E.
  destruct (decide (touch src v !! src = Some 1)) as [H1|H1].
  { rewrite touch_lookup_mark in H1 by done. apply Hv in H1.
    exists src. split; [by eapply stack_path_origin|by apply stack_path_bottom]. }
  destruct (decide (touch src v !! src = Some 2)) as [H2|H2]; [done|].
  unfold get_node in E. destruct (nodes_ p !! src) as [nd|] eqn:Hnd; [|done].
  destruct (cycle_loop _ _ _) as [[[] v2]|] eqn:Hl; [|done..].
  clear E.
  assert (marked (<[src:=1]> (touch src v)) (src :: l)) as Hv1.
  { by apply marked_enter; [apply marked_touch|]. }
  revert Hv1 Hl. generalize (<[src:=1]> (touch src v)).
  assert (∀ su, su ∈ connections_ nd → su ∈ connections_ nd) as Hsub by done.
  revert Hsub. generalize (connections_ nd) at 1 3.
  intros conns. induction conns as [|[slot u] rest IHc]; intros Hsub w Hw Hl;
    simpl in Hl; [done|].
  destruct (has_cycle f p u w) as [[[] w1]|] eqn:Hu; [| |done].
  - destruct (IH u w w1 (src :: l) Hw) as (n & Hn & Hr); [|done|].
    + split; [|done]. exists nd, slot. split; [done|]. apply Hsub. by left.
    + exists n. split; [done|]. by rewrite last_cons_default in Hr.
  - eapply IHc; [| |exact Hl].
    + intros su Hsu. apply Hsub. by right.
    + by eapply has_cycle_false_marked.
Qed.

Lemma cycle_scan_true p fuel ids : ∀ v v',
  marked v [] →
  cycle_scan fuel p ids v = Some (true, v') →
  ∃ n, demanded p n ∧ tc (plugged p) n n.
Proof.
  induction ids as [|id rest IH]; intros v v' Hv E; simpl in E; [done|].
  destruct (nodes_ p !! id) as [nd|] eqn:Hnd; [|done].
  destruct (decide (get_output_type (payload nd) = ty_void)) as [Hvoid|]; [|by eauto].
  destruct (has_cycle fuel p id v) as [[[] v1]|] eqn:Hc; [| |done].
  - destruct (has_cycle_true _ _ _ _ _ [] Hv I Hc) as (n & Hn & Hr).
    exists n. split; [|done]. exists id, nd. done.
  - eapply IH; [|exact E]. by eapply has_cycle_false_marked.
Qed.

(** The search for a second component marks every node that can be
    reached. *)
Lemma dfs_loop_explored p (S : list node_id) rec next :
  (∀ u v v', rec u v = Some v' → explored p S v →
             explored p S v' ∧ v' !! u = Some 1 ∧
             ∀ k, v !! k = Some 1 → v' !! k = Some 1) →
  ∀ v v', dfs_loop rec next v = Some v' → explored p S v →
          explored p S v' ∧ (∀ u, u ∈ next → v' !! u = Some 1) ∧
          ∀ k, v !! k = Some 1 → v' !! k = Some 1.
Proof.
  intros Hrec. induction next as [|u rest IH]; intros v v' E He; simpl in E.
  - simplify_eq. split_and!; [done| |done]. intros u Hu. by apply elem_of_nil in Hu.
  - destruct (rec u v) as [v1|] eqn:Hu; [|done].
    destruct (Hrec _ _ _ Hu He) as (He1 & Hu1 & Hmono1).
    destruct (IH _ _ E He1) as (He2 & Hall & Hmono2).
    split_and!; [done| |by auto].
    intros w [->|Hw]%elem_of_cons; [by apply Hmono2|by apply Hall].
Qed.

Lemma dfs_all_explored p fuel : ∀ S src v v',
  dfs_all fuel p src v = Some v' → explored p S v →
  explored p S v' ∧ v' !! src = Some 1 ∧
  ∀ k, v !! k = Some 1 → v' !! k = Some 1.
Proof.
  induction fuel as [|f IH]; intros S src v v' E He; [done|].
  simpl in E.
  destruct (decide (touch src v !! src = Some 1)) as [H1|H1].
  { simplify_eq. split_and!; [|done|].
    - intros x y Hx Hs Ha. rewrite touch_lookup_mark in Hx |- * by done. by eapply He.
    - intros k Hk. by rewrite touch_lookup_mark. }
  unfold get_node in E. destruct (nodes_ p !! src) as [nd|] eqn:Hnd; [|done].
  destruct (dfs_loop _ (connections_ nd).*2 _) as [v2|] eqn:Hl; [|done].
  assert (explored p (src :: S) (<[src:=1]> (touch src v))) as He1.
  { intros x y Hx Hs Ha. apply not_elem_of_cons in Hs as [Hne Hs].
    rewrite lookup_insert_ne, touch_lookup_mark in Hx by done.
    destruct (decide (y = src)) as [->|Hy]; [by rewrite lookup_insert_eq|].
    rewrite lookup_insert_ne, touch_lookup_mark by done. by eapply He. }
  assert (∀ u w w', dfs_all f p u w = Some w' → explored p (src :: S) w →
            explored p (src :: S) w' ∧ w' !! u = Some 1 ∧
            ∀ k, w !! k = Some 1 → w' !! k = Some 1) as Hrec.
  { intros u w w'. apply IH. }
  destruct (dfs_loop_explored p (src :: S) _ _ Hrec _ _ Hl He1) as (He2 & Hc & Hm2).
  destruct (dfs_loop_explored p (src :: S) _ _ Hrec _ _ E He2) as (He3 & Hd & Hm3).
  assert (v' !! src = Some 1) as Hsrc by (apply Hm3, Hm2, lookup_insert_eq).
  split_and!; [|done|].
  - intros x y Hx Hs Ha. destruct (decide (x = src)) as [->|Hne].
    + destruct Ha as (nd' & Hnd' & Hadj). assert (nd' = nd) as -> by congruence.
      destruct Hadj as [Hy|Hy]; [by apply Hm3, Hc|by apply Hd].
    + eapply He3; [done| |done]. by apply not_elem_of_cons.
  - intros k Hk. apply Hm3, Hm2. destruct (decide (k = src)) as [->|Hne].
    + apply lookup_insert_eq.
    + by rewrite lookup_insert_ne, touch_lookup_mark.
Qed.

(** X19: what [is_valid] accepts. On a pipeline that keeps the mirror
    invariant the result is [true] when every node has all its slots
    filled and, unless it is a sink, a dependant, a sink and a source
    exist, no node that is a sink or upstream of one lies on a cycle of
    filled slots, and every node is reached from the node with the
    smallest id through [connections_] and [dependencies_]. *)
Theorem is_valid_accepts p :
  mirror p →
  (∀ id nd, get_node p id = Some nd → node_complete nd) →
  (∃ id nd, get_node p id = Some nd ∧ get_output_type (payload nd) = ty_void) →
  (∃ id nd, get_node p id = Some nd ∧ get_input_types (payload nd) = []) →
  (∀ n, demanded p n → ¬ tc (plugged p) n n) →
  (∀ root n, head (ordered_ids (nodes_ p)) = Some root →
             is_Some (get_node p n) → rtc (adjacent p) root n) →
  is_valid p = Some true.
Proof.
  unfold get_node. intros Hm Hcomplete (s & snd & Hs & Hvoid) (o & ond & Ho & Hnil)
    Hacyclic Hconn.
  unfold is_valid, is_valid_fuel.
  assert (∀ id, id ∈ ordered_ids (nodes_ p) → is_Some (nodes_ p !! id)) as Hlive.
  { intros id Hid. by apply elem_of_ordered_ids. }
  destruct (scan_nodes_complete p (ordered_ids (nodes_ p)) false false)
    as [[a b] Hscan].
  { intros id [nd Hnd]%Hlive. eauto. }
  rewrite Hscan. apply scan_nodes_flags in Hscan as [Ha Hb].
  rewrite Ha, Hb; cycle 1.
  { right. exists o, ond. split_and!; [apply elem_of_ordered_ids; eauto|done..]. }
  { right. exists s, snd. split_and!; [apply elem_of_ordered_ids; eauto|done..]. }
  cbn [negb orb].
  assert (marked (∅ : gmap Z Z) []) as Hempty.
  { split; [constructor|]. intros k. rewrite lookup_empty. split; [done|].
    by intros ?%elem_of_nil. }
  destruct (cycle_scan_total p Hm (2 + size (nodes_ p)) (ordered_ids (nodes_ p)) ∅)
    as [[[] v] Hc]; [done|done|lia| |].
  { destruct (cycle_scan_true _ _ _ _ _ Hempty Hc) as (n & Hn & Hcyc).
    by destruct (Hacyclic n). }
  rewrite Hc.
  destruct (ordered_ids (nodes_ p)) as [|root rest] eqn:Hids; [done|].
  assert (is_Some (nodes_ p !! root)) as Hroot.
  { apply elem_of_ordered_ids. rewrite Hids. by left. }
  destruct (dfs_all_total p Hm (2 + size (nodes_ p)) root ∅ [])
    as (w & l & Hd & _); [done|by intros k ?%elem_of_nil|done|simpl; lia|].
  rewrite Hd.
  assert (dom w = dom (nodes_ p)) as Hdom.
  { apply set_eq. intros k. rewrite !elem_of_dom. split.
    - intros Hk. eapply (dfs_all_sound p root); [exact Hd| |done|done].
      intros k' Hk'. rewrite lookup_empty in Hk'. by destruct Hk'.
    - intros Hk.
      destruct (dfs_all_explored p _ [] _ _ _ Hd) as (He & Hr & _).
      { intros x y Hx. by rewrite lookup_empty in Hx. }
      assert (∀ i j, rtc (adjacent p) i j → w !! i = Some 1 → w !! j = Some 1)
        as Hclosed.
      { intros i j Hab. induction Hab as [|x y z Hxy _ IH]; [done|].
        intros Hx. apply IH. eapply He; [exact Hx| |done]. by intros ?%elem_of_nil. }
      rewrite (Hclosed root k); [eauto| |done]. by apply Hconn. }
  rewrite decide_False; [done|]. intros Hne. apply Hne.
  by rewrite <- !size_dom, Hdom.
Qed.

End ValidatorExtras.

(** ** The renderer *)

Section RendererExtras.
Context {N : Type} `{!NodeImpl N}.
Implicit Types (p : pipeline N).

Lemma escape_closed_inj s1 s2 t1 t2 :
  escape s1 +:+ String dquote t1 = escape s2 +:+ String dquote t2 →
  s1 = s2 ∧ t1 = t2.
Proof.
  revert s2. induction s1 as [|c1 r1 IH]; intros [|c2 r2]; simpl.
  - intros [= ->]. done.
  - destruct (decide (c2 = dquote ∨ c2 = backslash)) as [Hs|Hs]; simpl.
    + intros E. discriminate E.
    + intros [= <- _]. destruct Hs. by left.
  - destruct (decide (c1 = dquote ∨ c1 = backslash)) as [Hs|Hs]; simpl.
    + intros E. discriminate E.
    + intros [= -> _]. destruct Hs. by left.
  - destruct (decide (c1 = dquote ∨ c1 = backslash)) as [Hs1|Hs1],
             (decide (c2 = dquote ∨ c2 = backslash)) as [Hs2|Hs2]; simpl.
    + intros [= -> E]. by destruct (IH _ E) as [-> ->].
    + intros [= <- _]. destruct Hs2. by right.
    + intros [= -> _]. destruct Hs1. by right.
    + intros [= -> E]. by destruct (IH _ E) as [-> ->].
Qed.

Lemma string_app_assoc (a b c : string) : (a +:+ b) +:+ c = a +:+ (b +:+ c).
Proof.
  induction a as [|x a IH]; [done|].
  change (String x ((a +:+ b) +:+ c) = String x (a +:+ (b +:+ c))). by rewrite IH.
Qed.

(** X24: text written by [std::quoted] can be read back in one way only:
    when two quoted strings, each followed by any text, give the same
    output, the strings are the same and so is what follows. *)
Theorem quoted_unambiguous s1 s2 t1 t2 :
  quoted s1 +:+ t1 = quoted s2 +:+ t2 → s1 = s2 ∧ t1 = t2.
Proof.
  unfold quoted.
  change (String dquote ((escape s1 +:+ String dquote EmptyString) +:+ t1) =
          String dquote ((escape s2 +:+ String dquote EmptyString) +:+ t2) →
          s1 = s2 ∧ t1 = t2).
  rewrite !string_app_assoc.
  change (String dquote EmptyString +:+ t1) with (String dquote t1).
  change (String dquote EmptyString +:+ t2) with (String dquote t2).
  intros [= E]. by apply escape_closed_inj.
Qed.

(** *** The comparison given to [std::sort] *)

Lemma edge_lines_firsts p start d d' :
  d.*1 = d'.*1 → edge_lines p start d = edge_lines p start d'.
Proof.
  revert d'. induction d as [|[a s] d IH]; intros [|[a' s'] d']; simpl; try done.
  intros [= -> E]. by rewrite (IH _ E).
Qed.

(** X25: the order that [std::sort] leaves between dependencies on the
    same downstream node does not show in the output: every arrangement
    of the vector that is sorted by the comparison of [operator<<] gives
    the edge lines that the model's sort gives. *)
Theorem edge_lines_any_sort p start d d' :
  d' ≡ₚ d → Sorted first_le d' →
  edge_lines p start d' = edge_lines p start (sort_dependencies d).
Proof.
  intros Hp Hs. apply edge_lines_firsts.
  assert (Total first_le) as Htot.
  { intros a b. unfold first_le. lia. }
  apply (Sorted_unique Z.le).
  - by apply (Sorted_fmap fst first_le Z.le).
  - apply (Sorted_fmap fst first_le Z.le); [done|]. apply Sorted_merge_sort, _.
  - unfold sort_dependencies. by rewrite merge_sort_Permutation, Hp.
Qed.

(** *** The renderer returns *)





End RendererExtras.

(** ** The node classes of the test file *)

Module TestNodeExtras.
Import TestNodes Examples MoreExamples.

Lemma test_tokens_fixed : tokens_fixed (N := test_node).
Proof.
  intros h x src slot x' E. destruct x; simpl in E; simplify_eq;
    repeat case_decide; done.
Qed.

(** X21: for the node classes of the test file [closed] is final: a
    [poll_next] that returns [closed] leaves the object as it is, so every
    later call returns [closed] again, whatever the other nodes hold. *)
Theorem closed_is_final h x x' :
  test_poll_next h x = Some (closed, x') →
  x' = x ∧ ∀ h' n, poll_times n h' x = Some (replicate n closed, x).
Proof.
  intros E.
  assert (x' = x ∧ ∀ h', test_poll_next h' x = Some (closed, x)) as [-> Hc].
  { destruct x; simpl in *; repeat case_match; simplify_eq; done. }
  split; [done|]. intros h' n. induction n as [|n IH]; [done|].
  cbn [poll_times replicate]. cbn [poll_next test_node_impl]. by rewrite Hc, IH.
Qed.

(** X22: a [flex_source] counts up to its bound: from the value [v], the
    first [bound - v] polls are [ready] and raise the value by one each,
    and every later poll is [closed] and leaves the value at the bound. *)
Theorem flex_source_counts h n v b :
  - 2 ^ 31 ≤ v ≤ b → b < 2 ^ 31 →
  poll_times n h (flex_source v b) =
    Some (replicate (n `min` Z.to_nat (b - v)) ready ++
          replicate (n - Z.to_nat (b - v)) closed,
          flex_source (v + Z.of_nat (n `min` Z.to_nat (b - v))) b).
Proof.
  revert v. induction n as [|n IH]; intros v Hv Hb.
  { simpl. by rewrite Z.add_0_r. }
  cbn [poll_times]. cbn [poll_next test_node_impl test_poll_next].
  destruct (decide (b ≤ v)) as [Hle|Hlt].
  - assert (v = b) as -> by lia.
    rewrite IH by lia. rewrite Z.sub_diag. simpl.
    rewrite !Nat.min_0_r, !Nat.sub_0_r. simpl. by rewrite Z.add_0_r.
  - rewrite int_wrap_small by lia. rewrite IH by lia.
    assert (Z.to_nat (b - v) = S (Z.to_nat (b - (v + 1)))) as -> by lia.
    cbn [replicate app Nat.min Nat.sub]. do 3 f_equal. lia.
Qed.

(** *** The pointer members follow [connections_] *)

Lemma test_connect_other h n src slot x s :
  test_connect h n src slot = Ok x → s ≠ slot → slot_ptr x s = slot_ptr n s.
Proof.
  intros E Hne. destruct n; simpl in E; simplify_eq;
    repeat (case_decide; simpl); simplify_eq; done.
Qed.

Lemma test_connect_this h n src slot x sn :
  test_connect h n (Some src) slot = Ok x →
  0 ≤ slot →
  test_input_types n !! Z.to_nat slot = Some (test_output_type sn) →
  h src = Some sn →
  slot_ptr x slot = Some (Some src).
Proof.
  intros E Hslot Hty Hs.
  assert (∀ a b : type_index,
            [a] !! Z.to_nat slot = Some b → slot = 0 ∧ a = b) as H1.
  { intros a b Hl. destruct (Z.to_nat slot) as [|k] eqn:Hk; simpl in Hl; [|done].
    split; [lia|congruence]. }
  assert (∀ a b c : type_index,
            [a; b] !! Z.to_nat slot = Some c →
            (slot = 0 ∧ a = c) ∨ (slot = 1 ∧ b = c)) as H2.
  { intros a b c Hl. destruct (Z.to_nat slot) as [|[|k]] eqn:Hk; simpl in Hl; [| |done].
    - left. split; [lia|congruence].
    - right. split; [lia|congruence]. }
  destruct n; simpl in E, Hty; simplify_eq; simpl.
  - apply H1 in Hty as [-> Ho]. simpl. rewrite Hs.
    by rewrite decide_True.
  - apply H2 in Hty as [[-> Ho]|[-> Ho]]; simpl; rewrite Hs; by rewrite decide_True.
  - apply H1 in Hty as [-> Ho]. simpl. rewrite Hs.
    by rewrite decide_True.
  - apply H1 in Hty as [-> Ho]. by destruct sn.
Qed.

Lemma clear_slots_slot_ptr src dst conns (m m' : gmap Z (node test_node)) s :
  clear_slots src dst conns m = (Ok (), m') →
  (s, src) ∉ conns →
  (λ nd, slot_ptr (payload nd) s) <$> m' !! dst =
  (λ nd, slot_ptr (payload nd) s) <$> m !! dst.
Proof.
  revert m. induction conns as [|[slot by_] rest IH]; intros m E Hs; simpl in E.
  - by simplify_eq.
  - assert ((s, src) ∉ rest) as Hrest by (intros ?; apply Hs; by right).
    destruct (decide (src = by_)) as [<-|]; [|by eauto].
    destruct (m !! dst) as [nd|] eqn:Hd; [|done].
    destruct (test_connect (view m) (payload nd) None slot) as [x| |] eqn:Hc; [|done..].
    rewrite (IH _ E Hrest). rewrite lookup_insert_eq. simpl. f_equal.
    eapply test_connect_other; [exact Hc|]. intros ->. apply Hs. by left.
Qed.

Lemma edited_slots_follow p p' :
  mirror p → well_typed p → slots_follow p → edited p p' → slots_follow p'.
Proof.
  intros Hm Hwt Hsf Hed.
  destruct Hed as [n p|src dst slot p p' E|src dst p p' E|id p p' E].
  - intros k nd s up Hk Hin. unfold create_node, map_emplace in Hk. simpl in Hk.
    destruct (nodes_ p !! current_id p) eqn:Hc; [by eapply Hsf|].
    destruct (decide (current_id p = k)) as [<-|Hne].
    + rewrite lookup_insert_eq in Hk. simplify_eq. by apply elem_of_nil in Hin.
    + rewrite lookup_insert_ne in Hk by done. by eapply Hsf.
  - pose proof (connect_ok_typed _ _ _ _ _ E) as (sn0 & dn0 & Hs0 & Hd0 & Hrange & Htype).
    apply connect_ok_inv in E as (sn & dn & x & Hs & Hd & Hfree & Hc & _ & Hl).
    assert (sn0 = sn) as -> by congruence. assert (dn0 = dn) as -> by congruence.
    intros k nd' s up Hk Hin. rewrite Hl in Hk.
    destruct (nodes_ p !! k) as [nd|] eqn:Hnd; simplify_eq/=.
    destruct (decide (k = dst)) as [->|Hne]; [|by eapply Hsf].
    assert (nd = dn) as -> by congruence.
    apply elem_of_cons in Hin as [Heq|Hold].
    + injection Heq as -> ->.
      eapply (test_connect_this _ _ _ _ _ (payload sn)); [exact Hc|done|exact Htype|].
      unfold view. by rewrite Hs.
    + erewrite test_connect_other; [by eapply Hsf|exact Hc|].
      intros ->. apply Hfree. by apply (list_elem_of_fmap_2 fst) in Hold.
  - pose proof (disconnect_connections _ _ _ _ E) as Hconn.
    apply disconnect_ok_inv in E as (sn & dn & m & Hs & Hd & Hcl & ->).
    pose proof (clear_slots_lookup _ _ _ _ _ Hcl) as Hlook.
    intros k nd' s up Hk Hin. simpl in Hk.
    specialize (Hconn k). simpl in Hconn. rewrite Hk in Hconn.
    destruct (nodes_ p !! k) as [nd|] eqn:Hnd; simplify_eq/=.
    assert (payload <$> m !! k = Some (payload nd')) as Hpay.
    { destruct (decide (src = k)) as [->|Hsk], (decide (dst = k)) as [->|Hdk];
        repeat first [rewrite lookup_alter_eq in Hk | rewrite lookup_alter_ne in Hk by done];
        destruct (m !! k) as [[]|]; simplify_eq/=; done. }
    destruct (decide (k = dst)) as [->|Hne].
    + assert (nd = dn) as -> by congruence.
      rewrite Hconn in Hin. apply list_elem_of_filter in Hin as [Hup Hin].
      simpl in Hup.
      pose proof (clear_slots_slot_ptr src dst (connections_ dn) (nodes_ p) m s Hcl)
        as Hptr.
      rewrite Hd in Hptr. simpl in Hptr.
      destruct (m !! dst) as [md|] eqn:Hmd; [|done]. simpl in Hpay, Hptr.
      injection Hpay as <-.
      assert (slot_ptr (payload md) s = slot_ptr (payload dn) s) as ->.
      { assert (Some (slot_ptr (payload md) s) = Some (slot_ptr (payload dn) s)) as Heq;
          [|congruence].
        apply Hptr.
        intros Hin'. apply Hup. destruct Hm as (Hkeys & _).
        eapply keys_functional; eauto. }
      by eapply Hsf.
    + destruct (Hlook k) as [Hsame _]. rewrite Hsame, Hnd in Hpay by done.
      simpl in Hpay. injection Hpay as Hpay. rewrite <- Hpay, Hconn in *.
      by eapply Hsf.
  - pose proof (erase_node_others id p p' Hm E) as Hl.
    assert (nodes_ p' !! id = None) as Hgone.
    { apply erase_node_lookup in E as (nd & Hnd & _ & Hl'). by rewrite Hl', decide_True. }
    intros k nd' s up Hk Hin.
    assert (k ≠ id) as Hne by (intros ->; congruence).
    rewrite Hl in Hk by done.
    destruct (nodes_ p !! k) as [nd|] eqn:Hnd; simplify_eq/=.
    apply list_elem_of_filter in Hin as [_ Hin]. by eapply Hsf.
Qed.

Lemma built_invariants (p : pipeline test_node) :
  rtc edited empty_pipeline p → mirror p ∧ well_typed p ∧ slots_follow p.
Proof.
  intros Hb.
  eapply (rtc_ind_r (λ q, mirror q ∧ well_typed q ∧ slots_follow q)); [| |exact Hb].
  - split_and!; [apply mirror_empty| |].
    + intros k x s u Hk. unfold empty_pipeline in Hk. simpl in Hk.
      by rewrite lookup_empty in Hk.
    + intros k x s u Hk. unfold empty_pipeline in Hk. simpl in Hk.
      by rewrite lookup_empty in Hk.
  - intros p1 p2 _ Hstep (Hm & Hwt & Hsf). split_and!.
    + destruct Hstep as [x q|src dst s q q' E|src dst q q' E|id q q' E].
      * by apply create_node_mirror.
      * by eapply connect_mirror.
      * by eapply disconnect_mirror.
      * by eapply erase_node_mirror.
    + eapply edited_well_typed; eauto using test_tokens_fixed.
    + by eapply edited_slots_follow.
Qed.

Lemma output_int_value (n : test_node) : test_output_type n = ty_int → is_Some (value n).
Proof. destruct n; simpl; intros; by eauto. Qed.

(** A node with all its slots filled: its pointer members lead to live
    producers of [int]. *)
Lemma complete_bound (p : pipeline test_node) id nd :
  mirror p → well_typed p → slots_follow p →
  nodes_ p !! id = Some nd →
  length (connections_ nd) = length (test_input_types (payload nd)) →
  bound (view (nodes_ p)) (payload nd).
Proof.
  intros (Hkeys & _) Hwt Hsf Hnd Hlen.
  assert (∀ s up, (s, up) ∈ connections_ nd →
            0 ≤ s ∧ slot_ptr (payload nd) s = Some (Some up) ∧
            ∃ u, nodes_ p !! up = Some u ∧
                 test_input_types (payload nd) !! Z.to_nat s =
                   Some (test_output_type (payload u))) as Hent.
  { intros s up Hin. destruct (Hwt _ _ _ _ Hnd Hin) as (Hs & u & Hu & Hty).
    split_and!; [done|by eapply Hsf|eauto]. }
  assert (∀ s up, (s, up) ∈ connections_ nd →
            test_input_types (payload nd) !! Z.to_nat s = Some ty_int →
            is_Some (deref_value (view (nodes_ p)) (Some up))) as Hderef.
  { intros s up Hin Hty. destruct (Hent s up Hin) as (_ & _ & u & Hu & Hty').
    unfold deref_value, view. rewrite Hu. simpl.
    apply output_int_value. congruence. }
  specialize (Hkeys _ _ Hnd).
  destruct (payload nd) eqn:Hpay; simpl in *; try done.
  - destruct (connections_ nd) as [|[s up] [|]] eqn:Hc; simplify_eq/=.
    destruct (Hent s up) as (Hs & Hptr & u & Hu & Hty); [by left|].
    assert (s = 0) as ->.
    { destruct (Z.to_nat s) eqn:Hk; simpl in Hty; [lia|done]. }
    simpl in Hptr. injection Hptr as ->. apply (Hderef 0 up); [by left|done].
  - destruct (connections_ nd) as [|[s1 u1] [|[s2 u2] [|]]] eqn:Hc; simplify_eq/=.
    destruct (Hent s1 u1) as (Hs1 & Hptr1 & x1 & _ & Hty1); [by left|].
    destruct (Hent s2 u2) as (Hs2 & Hptr2 & x2 & _ & Hty2); [by right; left|].
    apply NoDup_cons in Hkeys as [Hne _].
    assert (s1 ≠ s2) as Hne' by (intros ->; apply Hne; by left).
    assert (∀ s ty, 0 ≤ s → [ty_int; ty_int] !! Z.to_nat s = Some ty → s = 0 ∨ s = 1)
      as Hrange.
    { intros s ty Hs Hl. destruct (Z.to_nat s) as [|[|k]] eqn:Hk; simpl in Hl;
        [left|right|done]; lia. }
    pose proof (Hrange _ _ Hs1 Hty1) as R1. pose proof (Hrange _ _ Hs2 Hty2) as R2.
    clear Hty1 Hty2 Hs1 Hs2 Hne.
    destruct R1 as [->| ->], R2 as [->| ->];
      try done; simpl in Hptr1, Hptr2; simplify_eq.
    + split; [apply (Hderef 0 u1)|apply (Hderef 1 u2)];
        [by left|done|by right; left|done].
    + split; [apply (Hderef 0 u2)|apply (Hderef 1 u1)];
        [by right; left|done|by left|done].
  - destruct (connections_ nd) as [|[s up] [|]] eqn:Hc; simplify_eq/=.
    destruct (Hent s up) as (Hs & Hptr & u & Hu & Hty); [by left|].
    assert (s = 0) as ->.
    { destruct (Z.to_nat s) eqn:Hk; simpl in Hty; [lia|done]. }
    simpl in Hptr. injection Hptr as ->. apply (Hderef 0 up); [by left|done].
  - destruct (connections_ nd) as [|[s up] [|]] eqn:Hc; simplify_eq/=.
    destruct (Hent s up) as (Hs & Hptr & u & Hu & Hty); [by left|].
    destruct (Z.to_nat s) eqn:Hk; simpl in Hty; [|done].
    destruct (payload u); done.
Qed.

(** X23: the registry and [is_valid] together protect the test classes
    from null and dangling slots. In a pipeline built by the registry
    functions from the empty one and accepted by [is_valid], every
    pointer member that a [poll_next] dereferences leads to a live
    producer of [int], no [poll_next] fails, and [step] returns for every
    recursion depth from some bound on. *)
Theorem valid_built_pipeline_steps fuel (p : pipeline test_node) :
  rtc edited empty_pipeline p →
  is_valid_fuel fuel p = Some true →
  all_bound (nodes_ p) ∧
  (∀ id nd, get_node p id = Some nd →
            is_Some (test_poll_next (view (nodes_ p)) (payload nd))) ∧
  ∃ f0, ∀ f, (f0 ≤ f)%nat → is_Some (step f p).
Proof.
  intros (Hm & Hwt & Hsf)%built_invariants Hv.
  assert (all_bound (nodes_ p)) as Hb.
  { intros id nd Hnd. eapply complete_bound; eauto.
    by destruct (is_valid_complete _ _ _ _ Hv Hnd). }
  pose proof ExampleFacts.all_bound_poll_returns as HI.
  split_and!; [done| |].
  - intros id nd Hnd. destruct HI as [Hret _]. by eapply (Hret _ id).
  - apply is_valid_ranked in Hv as (rk & v & Hf & Hsinks).
    exists (S (max_list (rk <$> ordered_ids (nodes_ p)))). intros f Hle.
    apply (finished_step_returns all_bound rk v); [done| |done..].
    intros id nd Hnd Hvoid. split; [by eapply Hsinks|].
    eapply Nat.lt_le_trans; [|exact Hle].
    apply Nat.lt_succ_r, max_list_elem_of_le, list_elem_of_fmap_2.
    apply elem_of_ordered_ids. eauto.
Qed.

End TestNodeExtras.

(** ** More facts about the examples *)

Module MoreExampleFacts.
Import TestNodes Examples MoreExamples ExampleFacts TestNodeExtras.

Lemma outcome_pair {A B : Type} (x : A * B) (a : A) : x.1 = a → x = (a, x.2).
Proof. destruct x. simpl. by intros ->. Qed.

Lemma apply_edit_edited e p p' : apply_edit e p = (Ok (), p') → edited p p'.
Proof.
  destruct e; simpl; intros E.
  - injection E as <-. constructor.
  - by eapply edited_connect.
  - by eapply edited_disconnect.
  - by eapply edited_erase.
Qed.

Lemma build_edited es p p' : build es p = Some p' → rtc edited p p'.
Proof.
  revert p. induction es as [|e es IH]; intros p E; simpl in E.
  - by simplify_eq.
  - destruct (apply_edit e p) as [[[]| |] p1] eqn:He; [|done..].
    eapply rtc_l; [by eapply apply_edit_edited|by apply IH].
Qed.

Lemma ids_below_check {N : Type} (p : pipeline N) :
  forallb (λ id, bool_decide (id < current_id p)) (ordered_ids (nodes_ p)) = true →
  ids_below p.
Proof.
  intros Hall id Hid. rewrite forallb_forall in Hall.
  eapply bool_decide_eq_true_1, Hall, list_elem_of_In, elem_of_ordered_ids, Hid.
Qed.

Lemma ranked_no_cycle {N : Type} `{!NodeImpl N} (p : pipeline N) rk n :
  ranked rk (nodes_ p) → ¬ tc (plugged p) n n.
Proof.
  intros Hrk.
  assert (∀ a b, tc (plugged p) a b → (rk b < rk a)%nat) as Hlt.
  { intros a b Hab. induction Hab as [a b (nd & slot & Hnd & Hin)|a b c (nd & slot & Hnd & Hin) _ IH].
    - by destruct (Hrk _ _ _ _ Hnd Hin).
    - destruct (Hrk _ _ _ _ Hnd Hin). lia. }
  intros Hn%Hlt. lia.
Qed.

Lemma adjacent_check {N : Type} `{!NodeImpl N} (p : pipeline N) a b :
  from_option
    (λ nd, bool_decide (b ∈ (connections_ nd).*2 ++ (dependencies_ nd).*1))
    false (nodes_ p !! a) = true →
  adjacent p a b.
Proof.
  destruct (nodes_ p !! a) as [nd|] eqn:Hnd; [|done]. simpl.
  intros Hin%bool_decide_eq_true_1%elem_of_app. by exists nd.
Qed.

Lemma s1_built : rtc edited empty_pipeline s1.
Proof. apply (build_edited s1_script). vm_compute. reflexivity. Qed.

Lemma s1_complete id nd : get_node s1 id = Some nd → node_complete nd.
Proof.
  unfold get_node. intros Hnd. registry_cases Hnd.
  all: split; [reflexivity|simpl; try done].
Qed.

Lemma s1_connected root n :
  head (ordered_ids (nodes_ s1)) = Some root →
  is_Some (get_node s1 n) → rtc (adjacent s1) root n.
Proof.
  intros Hroot [nd Hnd]. vm_compute in Hroot. injection Hroot as <-.
  assert (adjacent s1 1 3) as H13.
  { apply adjacent_check. vm_compute. reflexivity. }
  assert (adjacent s1 3 4) as H34.
  { apply adjacent_check. vm_compute. reflexivity. }
  assert (adjacent s1 3 2) as H32.
  { apply adjacent_check. vm_compute. reflexivity. }
  assert (adjacent s1 2 5) as H25.
  { apply adjacent_check. vm_compute. reflexivity. }
  unfold get_node in Hnd. registry_cases Hnd.
  - eapply rtc_l; [exact H13|]. eapply rtc_l; [exact H32|]. by apply rtc_once.
  - eapply rtc_l; [exact H13|]. done.
  - eapply rtc_l; [exact H13|]. by apply rtc_once.
  - eapply rtc_l; [exact H13|]. by apply rtc_once.
  - done.
Qed.


(** ** The properties at work on the examples *)

Lemma create_node_fresh_witness :
  get_node s1 (create_node (test_source 0) s1).1 = None ∧
  get_node (create_node (test_source 0) s1).2 (create_node (test_source 0) s1).1 =
    Some (Node (test_source 0) [] []).
Proof.
  destruct (create_node_fresh (test_source 0) s1) as (H1 & H2 & _).
  - apply ids_below_check. vm_compute. reflexivity.
  - split; [exact H1|exact H2].
Defined.

Lemma ids_never_reused_witness :
  (create_node (test_source 0) (erase_node 5 s1).2).1 ≠ 5.
Proof.
  destruct (ids_never_reused s1 (erase_node 5 s1).2 5 (test_source 0)) as [_ H].
  - apply ids_below_check. vm_compute. reflexivity.
  - eexists. vm_compute. reflexivity.
  - apply rtc_once. split.
    { assert (current_id s1 = 6) as -> by (vm_compute; reflexivity). lia. }
    apply (edited_erase 5). apply outcome_pair. vm_compute. reflexivity.
  - exact H.
Defined.

Lemma connect_effect_witness :
  (∃ dn dn', get_node half_plugged 3 = Some dn ∧
             get_node (connect 2 3 1 half_plugged).2 3 = Some dn' ∧
             connections_ dn = [(0, 1)] ∧
             (∀ s u, (s, u) ∈ connections_ dn' ↔
                     (s, u) = (1, 2) ∨ (s, u) ∈ connections_ dn) ∧
             payload dn' = test_component (Some 1) (Some 2) 0) ∧
  (connect 2 3 1 (connect 2 3 1 half_plugged).2).1 = Throw slot_already_used.
Proof.
  destruct (connect_effect 2 3 1 half_plugged (connect 2 3 1 half_plugged).2)
    as (_ & _ & _ & _ & _ & H6 & (dn & dn' & Hdn & Hdn' & Hiff & _ & _ & Hpay) & _).
  - apply outcome_pair. vm_compute. reflexivity.
  - split; [|exact H6]. exists dn, dn'. split_and!; [exact Hdn|exact Hdn'| |exact Hiff|].
    + vm_compute in Hdn. by injection Hdn as <-.
    + vm_compute in Hdn. injection Hdn as <-.
      assert (test_connect (view (nodes_ half_plugged))
                (test_component (Some 1) None 0) (Some 2) 1 =
              Ok (test_component (Some 1) (Some 2) 0)) as Hx
        by (vm_compute; reflexivity).
      pose proof (eq_trans (eq_sym Hpay) Hx) as Heq. by injection Heq.
Defined.

Lemma connect_into_source_witness :
  connect 2 1 0 s1 = (Throw no_such_slot, s1).
Proof.
  eapply (connect_into_source 2 1 0 s1).
  - apply built_invariants, s1_built.
  - vm_compute. reflexivity.
  - vm_compute. reflexivity.
  - reflexivity.
Defined.

Lemma disconnect_not_connected_witness :
  disconnect 1 5 s1 = (Ok (), s1).
Proof.
  eapply (disconnect_not_connected 1 5 s1 _ (Node (stream_sink (Some 2) EmptyString)
                                                  [(0, 2)] [])).
  - apply s1_mirror.
  - vm_compute. reflexivity.
  - vm_compute. reflexivity.
  - intros slot Hin. simpl in Hin. apply list_elem_of_singleton in Hin. discriminate Hin.
Defined.

Lemma disconnect_effect_witness :
  (∀ dn' slot, get_node (disconnect 2 5 s1).2 5 = Some dn' →
               (slot, 2) ∉ connections_ dn') ∧
  (∀ sn' slot, get_node (disconnect 2 5 s1).2 2 = Some sn' →
               (5, slot) ∉ dependencies_ sn').
Proof.
  destruct (disconnect_effect 2 5 s1 (disconnect 2 5 s1).2) as (_ & _ & H3 & H4).
  - apply outcome_pair. vm_compute. reflexivity.
  - split; [exact H3|exact H4].
Defined.

Lemma erase_node_effect_witness :
  ∃ p', erase_node 3 s1 = (Ok (), p') ∧ get_node p' 3 = None ∧
        current_id p' = current_id s1.
Proof.
  destruct (erase_node_effect 3 s1) as (p' & H1 & H2 & H3 & _).
  - apply s1_mirror.
  - eexists. vm_compute. reflexivity.
  - exists p'. split_and!; [exact H1|exact H2|exact H3].
Defined.

Lemma built_well_typed_witness :
  0 ≤ 1 < Z.of_nat (length (get_input_types (test_component (Some 1) (Some 2) 0))) ∧
  ∃ u, get_node s1 2 = Some u ∧
       get_input_types (test_component (Some 1) (Some 2) 0) !! Z.to_nat 1 =
         Some (get_output_type (payload u)).
Proof.
  apply (built_well_typed s1 3
           (Node (test_component (Some 1) (Some 2) 0) [(1, 2); (0, 1)] [(4, 0)]) 1 2).
  - apply test_tokens_fixed.
  - apply s1_built.
  - vm_compute. reflexivity.
  - simpl. left.
Defined.

Lemma what_injective_witness : invalid_node_id = invalid_node_id.
Proof. apply what_injective. reflexivity. Defined.

Lemma step_keeps_graph_witness :
  (∀ k, graph (heap s1_tick) k = graph (nodes_ s1) k) ∧
  mirror (Pipeline (heap s1_tick) (current_id s1)).
Proof.
  destruct (step_keeps_graph 3 s1 false s1_tick) as (H1 & _ & H3 & _).
  - vm_compute. reflexivity.
  - split; [exact H1|]. apply H3, s1_mirror.
Defined.

Lemma tick_memo_justified_witness :
  ∃ nd, heap s1_tick !! 3 = Some nd ∧
    (3 ∈ polled s1_tick ↔
       ∀ su, su ∈ connections_ nd → visited s1_tick !! su.2 = Some ready) ∧
    (3 ∉ polled s1_tick →
       ready ≠ ready ∧
       ∃ su, su ∈ connections_ nd ∧ visited s1_tick !! su.2 = Some ready).
Proof.
  apply (tick_memo_justified 3 s1 false s1_tick 3 ready).
  - vm_compute. reflexivity.
  - vm_compute. reflexivity.
Defined.

Lemma polling_first_unready_witness :
  polling 2 3 mixed_tick0 = Some (empty, memoize 3 empty mixed_tick1) ∧
  visited (memoize 3 empty mixed_tick1) !! 3 = Some empty ∧
  ∃ delta, polled (memoize 3 empty mixed_tick1) = polled mixed_tick0 ++ delta ∧
           3 ∉ delta.
Proof.
  apply (polling_first_unready 1 3
           (Node (test_component (Some 1) (Some 2) 0) [(1, 2); (0, 1)] [(5, 0)])
           mixed_tick0 [] 1 2 [(0, 1)] mixed_tick0 empty mixed_tick1).
  - reflexivity.
  - vm_compute. reflexivity.
  - reflexivity.
  - reflexivity.
  - vm_compute. reflexivity.
  - discriminate.
Defined.

Lemma polled_only_demanded_witness : demanded cyclic 2.
Proof.
  destruct (polled_only_demanded 2 cyclic false cyclic_tick) as [H _].
  - vm_compute. reflexivity.
  - apply H. vm_compute. left.
Defined.

Lemma is_valid_no_cycle_below_sinks_witness :
  is_Some (get_node s1 1) ∧ ¬ tc (plugged s1) 1 1.
Proof.
  apply (is_valid_no_cycle_below_sinks 7 s1 1).
  - vm_compute. reflexivity.
  - exists 4, (Node (stream_sink (Some 3) EmptyString) [(0, 3)] []).
    split_and!; [vm_compute; reflexivity|reflexivity|].
    eapply rtc_l.
    { eexists _, 0. split; [vm_compute; reflexivity|]. simpl. left. }
    apply rtc_once.
    eexists _, 0. split; [vm_compute; reflexivity|]. simpl. right. left.
Defined.

Lemma is_valid_connected_witness :
  ∃ root, head (ordered_ids (nodes_ s1)) = Some root ∧
          is_Some (get_node s1 root) ∧
          ∀ n, is_Some (get_node s1 n) → rtc (adjacent s1) root n.
Proof. apply (is_valid_connected 7 s1). vm_compute. reflexivity. Defined.

Lemma is_valid_returns_witness : is_Some (is_valid test9).
Proof.
  apply is_valid_returns.
  apply (build_mirror test9_script empty_pipeline); [vm_compute; reflexivity|].
  apply mirror_empty.
Defined.

Lemma is_valid_accepts_witness : is_valid s1 = Some true.
Proof.
  apply is_valid_accepts.
  - apply s1_mirror.
  - apply s1_complete.
  - exists 4. eexists. split; [vm_compute; reflexivity|reflexivity].
  - exists 1. eexists. split; [vm_compute; reflexivity|reflexivity].
  - intros n _. apply (ranked_no_cycle s1 s1_rank), s1_ranked.
  - apply s1_connected.
Defined.

Lemma valid_step_returns_witness :
  ∃ f0, ∀ f, (f0 ≤ f)%nat → is_Some (step f s1).
Proof.
  apply (valid_step_returns all_bound 7 s1).
  - vm_compute. reflexivity.
  - apply all_bound_poll_returns.
  - apply s1_all_bound.
Defined.

Lemma closed_is_final_witness :
  flex_source 5 5 = flex_source 5 5 ∧
  ∀ h' n, poll_times n h' (flex_source 5 5) = Some (replicate n closed, flex_source 5 5).
Proof. apply (closed_is_final (λ _, None)). reflexivity. Defined.

Lemma flex_source_counts_witness :
  poll_times 7 (λ _, None) (flex_source 0 5) =
    Some (replicate (7 `min` Z.to_nat (5 - 0)) ready ++
          replicate (7 - Z.to_nat (5 - 0)) closed,
          flex_source (0 + Z.of_nat (7 `min` Z.to_nat (5 - 0))) 5).
Proof. apply flex_source_counts; lia. Defined.

Lemma valid_built_pipeline_steps_witness :
  all_bound (nodes_ s1) ∧
  (∀ id nd, get_node s1 id = Some nd →
            is_Some (test_poll_next (view (nodes_ s1)) (payload nd))) ∧
  ∃ f0, ∀ f, (f0 ≤ f)%nat → is_Some (step f s1).
Proof.
  apply (valid_built_pipeline_steps 7 s1).
  - apply s1_built.
  - vm_compute. reflexivity.
Defined.

Lemma quoted_unambiguous_witness :
  "1 TestSink" = "1 TestSink" ∧ " -> " = " -> ".
Proof. apply quoted_unambiguous. reflexivity. Defined.

(** Test Case 27: the two edges from the source to the component are
    written for either arrangement of its two dependencies. *)
Lemma edge_lines_any_sort_witness :
  render test27 = Some test27_expected ∧
  edge_lines test27 "1 SkipSource: Bound = 6" [(2, 1); (2, 0)] =
  edge_lines test27 "1 SkipSource: Bound = 6" (sort_dependencies [(2, 0); (2, 1)]).
Proof.
  split; [vm_compute; reflexivity|].
  apply edge_lines_any_sort.
  - apply Permutation_swap.
  - repeat constructor. unfold first_le. simpl. lia.
Defined.


End MoreExampleFacts.
